(** * pgshovel: administration, consumer workers and batch streams

    A shallow embedding of the Python sources

      - [pgshovel/streams/batches.py]     (module [Batches])
      - [pgshovel/consumer/worker.py]     (module [Worker])
      - [pgshovel/administration.py]      (module [Administration])

    followed by their properties (modules [BatchesTheory],
    [UtilitiesTheory], [AdministrationTheory], [WorkerTheory]); each of
    these modules proves the numbered statements C1 to C10 first and further
    properties of the same code, X1 onwards, after them.

    Python dictionaries and sets are [gmap]/[gset].  In [Administration]
    exceptions are values of an error type threaded through a
    state-and-error monad over an explicit world: the Postgres instances,
    the open connections, the ZooKeeper tree and the trace of the actions
    taken on them.  Generators are given by what they yield when drained and
    how they end; threads by what one tick of their loop does. *)

From Stdlib Require Import ZArith NArith Ascii.
From stdpp Require Import base option list gmap strings fin_maps.

Local Open Scope string_scope.
Local Open Scope list_scope.

Set Warnings "-clear-no-such-hyp".

(** ** pgshovel.utilities *)

Module Utilities.

(** Modelled from the spec: [pgshovel.utilities.unique] is not among the
    verified sources; the specification describes it as removing duplicates
    while preserving first-seen order.  The loop keeps the result built so
    far and appends an item only when it has not been seen yet. *)
Fixpoint unique_from {A} `{EqDecision A} (result : list A) (sequence : list A)
  : list A :=
  match sequence with
  | [] => result
  | item :: rest =>
      if decide (item ∈ result) then unique_from result rest
      else unique_from (result ++ [item]) rest
  end.

(** Modelled from the spec: [unique], the loop started with nothing seen. *)
Definition unique {A} `{EqDecision A} (sequence : list A) : list A :=
  unique_from [] sequence.

End Utilities.

(** ** pgshovel.streams.batches *)

Module Batches.

(** *** Messages of the stream (interfaces/streams.proto as used by the
    code and by tests/pgshovel/streams) *)

Record BatchIdentifier := {
  id : N;              (* uint64 *)
  node : string;       (* bytes(16) *)
}.

#[export] Instance BatchIdentifier_eq_dec : EqDecision BatchIdentifier.
Proof. solve_decision. Defined.

Record MutationOperation := {
  schema : string;
  table : string;
  txid : N;
}.

#[export] Instance MutationOperation_eq_dec : EqDecision MutationOperation.
Proof. solve_decision. Defined.

(** The [operation] oneof of a [BatchOperation].  [OtherBatchMember] stands
    for a member that is none of the four known ones (the final [else] of
    [make_mutation_iterator]); with [UnsetBatchOneof] no member is set and
    [WhichOneof('operation')] is [None]. *)
Inductive batch_oneof :=
| BeginOperation
| Mutation (m : MutationOperation)
| CommitOperation
| RollbackOperation
| OtherBatchMember
| UnsetBatchOneof.

Record BatchOperation := {
  batch_identifier : BatchIdentifier;
  batch_operation : batch_oneof;
}.

(** The [operation] oneof of a message: only batch operations are
    supported by [batched].  [NotBatch] stands for a member that is not a
    [BatchOperation]; with [UnsetOneof] no member is set, as in a message
    that carries its header only. *)
Inductive message_oneof :=
| Batch (b : BatchOperation)
| NotBatch
| UnsetOneof.

Record Header := {
  publisher : string;  (* bytes(16) *)
  sequence : N;        (* uint64 *)
}.

Record Message := {
  header : Header;
  operation : message_oneof;
}.

(** *** Validator states (tests/pgshovel/streams/states.py): named tuples
    with a [publisher] and a [batch_identifier]. *)

Inductive State :=
| InTransaction (p : string) (b : BatchIdentifier)
| Committed (p : string) (b : BatchIdentifier)
| RolledBack (p : string) (b : BatchIdentifier).


Definition state_batch_identifier (s : State) : BatchIdentifier :=
  match s with InTransaction _ b | Committed _ b | RolledBack _ b => b end.

(** *** Exceptions *)

Inductive Exception :=
| TransactionAborted      (* 'Unexpected end of transaction iterator.' *)
| TransactionCancelled    (* 'Transaction rolled back.' *)
| ValueError              (* 'Unexpected operation in transaction.' *)
| AssertionError          (* assert isinstance(operation, BatchOperation) *)
| TypeError.              (* getattr(message, None) in get_operation *)

(** How a generator ends once it is drained. *)
Inductive Termination :=
| Returned
| Raised (e : Exception).

(** *** [itertools.groupby]: consecutive runs of equal keys, each paired
    with its key. *)
Fixpoint groupby {A K} `{EqDecision K} (key : A → K) (l : list A)
  : list (K * list A) :=
  match l with
  | [] => []
  | x :: rest =>
      match groupby key rest with
      | (k, g) :: groups =>
          if decide (key x = k) then (k, x :: g) :: groups
          else (key x, [x]) :: (k, g) :: groups
      | [] => [(key x, [x])]
      end
  end.

(** *** [make_mutation_iterator]: the values the generator yields when it
    is drained, and how it terminates.  [get_operation] is
    [getattr(message, message.WhichOneof('operation'))], which raises
    [TypeError] when no member of the oneof is set. *)
Fixpoint make_mutation_iterator (messages : list Message)
  : list MutationOperation * Termination :=
  match messages with
  | [] => ([], Raised TransactionAborted)
  | message :: rest =>
      match operation message with
      | UnsetOneof => ([], Raised TypeError)
      | NotBatch => ([], Raised AssertionError)
      | Batch operation =>
          match batch_operation operation with
          | UnsetBatchOneof => ([], Raised TypeError)
          | BeginOperation => make_mutation_iterator rest
          | Mutation m =>
              let '(yielded, t) := make_mutation_iterator rest in
              (m :: yielded, t)
          | CommitOperation => ([], Returned)
          | RollbackOperation => ([], Raised TransactionCancelled)
          | OtherBatchMember => ([], Raised ValueError)
          end
      end
  end.

Definition key (item : State * Message) : string * BatchIdentifier :=
  (publisher (header (snd item)), state_batch_identifier (fst item)).

(** *** [batched]: one [(batch_identifier, mutations)] pair per group; the
    mutation iterator of each pair is given drained. *)
Definition batched (messages : list (State * Message))
  : list (BatchIdentifier * (list MutationOperation * Termination)) :=
  map (λ '((publisher, batch_identifier), items),
         (batch_identifier, make_mutation_iterator (map snd items)))
      (groupby key messages).

(** *** Transaction validator *)













(** *** Vocabulary for the properties of [batched] *)

(** The [Mutation] operations of a run of messages, in order. *)
Definition mutation_of (message : Message) : option MutationOperation :=
  match operation message with
  | Batch b =>
      match batch_operation b with
      | Mutation m => Some m
      | _ => None
      end
  | NotBatch | UnsetOneof => None
  end.

Definition mutations (messages : list Message) : list MutationOperation :=
  omap mutation_of messages.







(** Everything the drained mutation iterators yield, batch after batch. *)
Definition yielded
  (batches : list (BatchIdentifier * (list MutationOperation * Termination)))
  : list MutationOperation :=
  concat (map (λ batch, batch.2.1) batches).

(** *** Concrete streams *)

Definition message_of (p : string) (b : BatchIdentifier) (o : batch_oneof)
  : Message :=
  {| header := {| publisher := p; sequence := 0 |};
     operation := Batch {| batch_identifier := b; batch_operation := o |} |}.

Definition batch_1 : BatchIdentifier := {| id := 1; node := "node" |}.

Definition m1 : MutationOperation :=
  {| schema := "public"; table := "orders"; txid := 1 |}.

Definition m2 : MutationOperation :=
  {| schema := "public"; table := "orders"; txid := 2 |}.



(** One committed batch. *)
Definition committed_trace : list (State * Message) :=
  [ (InTransaction "A" batch_1, message_of "A" batch_1 BeginOperation);
    (InTransaction "A" batch_1, message_of "A" batch_1 (Mutation m1));
    (Committed "A" batch_1, message_of "A" batch_1 CommitOperation) ].

(** *** Vocabulary and streams for further properties *)

(** The batch that follows [batch_1]. *)
Definition batch_2 : BatchIdentifier := {| id := 2; node := "node" |}.

(** The start of batch 2, as the validator passes it on. *)
Definition second_trace : list (State * Message) :=
  [ (InTransaction "A" batch_2, message_of "A" batch_2 BeginOperation);
    (InTransaction "A" batch_2, message_of "A" batch_2 (Mutation m2)) ].

End Batches.

(** ** pgshovel.consumer.worker *)

Module Worker.

Inductive Exception :=
| DatabaseError          (* what psycopg2 raises while the consumer registers *)
| LostOwnership          (* RuntimeError('Lost ownership of consumer lock!') *)
| CouldNotCloseBatch     (* RuntimeError('Could not close batch!') *)
| FoundDeadConsumer (group : string)  (* RuntimeError('Found dead consumer: %r') *)
| KeyError (group : string).          (* self.__consumers.pop(name) *)

(** What ZooKeeper and PgQ answer during one 10 ms tick. *)
Record Environment := {
  lease_available : string → bool;   (* Lock.acquire() can return for this group *)
  lease_retained : string → bool;    (* Lock.is_acquired *)
  register_consumer : string → bool; (* pgq.register_consumer(queue, group) and
                                        the commit that follows go through *)
  next_batch_info : string → option (N * list N);  (* batch_id, ev_ids *)
  finish_batch : N → bool;           (* pgq.finish_batch(batch_id) *)
}.

(** *** Consumer *)

Inductive Phase :=
| Acquiring              (* inside self._ownership_lock.acquire() *)
| Running                (* inside the [while True] loop *)
| Stopped                (* run() returned, lease released *)
| Failed (e : Exception).

Record Consumer := {
  group : string;
  configuration : string;
  phase : Phase;
  ready : bool;                       (* threading.Event *)
  batches : option (list N * N);      (* Queue(1): (events, batch closed by finish) *)
  stop_requested : bool;              (* threading.Event *)
  lease_held : bool;
}.

Definition new_consumer (group configuration : string) : Consumer :=
  {| group := group; configuration := configuration; phase := Acquiring;
     ready := false; batches := None; stop_requested := false;
     lease_held := false |}.

(** The deferred [release()] runs whenever [run] leaves. *)
Definition leave (p : Phase) (c : Consumer) : Consumer :=
  {| group := group c; configuration := configuration c; phase := p;
     ready := ready c; batches := batches c;
     stop_requested := stop_requested c; lease_held := false |}.

(** One tick of [Consumer.run].  While the thread sits in
    [self._ownership_lock.acquire()] nothing but the lease being granted
    moves it; the stop event is first looked at in the main loop.  Once the
    lease is granted the release is deferred and the consumer registers
    with PgQ: when that raises, the thread ends there, the deferred release
    runs and [ready] is never set. *)
Definition run_tick (env : Environment) (c : Consumer) : Consumer :=
  match phase c with
  | Acquiring =>
      if lease_available env (group c)
      then (* defer(release) *)
        if register_consumer env (group c)
        then (* self.ready.set() *)
          {| group := group c; configuration := configuration c;
             phase := Running; ready := true; batches := batches c;
             stop_requested := stop_requested c; lease_held := true |}
        else leave (Failed DatabaseError) c
      else c
  | Running =>
      if stop_requested c then leave Stopped c
      else if negb (lease_retained env (group c)) then leave (Failed LostOwnership) c
      else match batches c with
           | Some _ => c                     (* self.batches.full() *)
           | None =>
               match next_batch_info env (group c) with
               | None => c                   (* nothing to consume *)
               | Some (batch_id, events) =>
                   {| group := group c; configuration := configuration c;
                      phase := Running; ready := ready c;
                      batches := Some (events, batch_id);
                      stop_requested := stop_requested c;
                      lease_held := lease_held c |}
               end
           end
  | Stopped | Failed _ => c
  end.

Definition stop_async (c : Consumer) : Consumer :=
  {| group := group c; configuration := configuration c; phase := phase c;
     ready := ready c; batches := batches c;
     stop_requested := true; lease_held := lease_held c |}.

Definition running (c : Consumer) : bool :=
  match phase c with
  | Acquiring | Running => true
  | Stopped | Failed _ => false
  end.

(** The consumer thread over a sequence of ticks. *)
Definition run (envs : list Environment) (c : Consumer) : Consumer :=
  foldl (λ c env, run_tick env c) c envs.

(** *** Coordinator *)

(** State of a [concurrent.futures.Future]. *)
Inductive Future :=
| Pending
| Cancelled
| Result (consumer : string)
| Raised (e : Exception).

Inductive Command :=
| subscribe_command (name configuration : string) (response : nat)
| unsubscribe_command (name : string) (response : nat).

Inductive CoordinatorPhase :=
| Looping                                  (* inside the [while True] loop *)
| WaitingReady (name : string) (response : nat)   (* consumer.ready.wait() *)
| Finished                                 (* run() returned *)
| Died (e : Exception).

Record Coordinator := {
  queue : list Command;                 (* self.__queue *)
  consumers : gmap string Consumer;     (* self.__consumers *)
  futures : list Future;                (* every Future() created so far *)
  coordinator_stop_requested : bool;
  coordinator_phase : CoordinatorPhase;
}.

Definition new_coordinator : Coordinator :=
  {| queue := []; consumers := ∅; futures := [];
     coordinator_stop_requested := false; coordinator_phase := Looping |}.

Definition with_queue (q : list Command) (c : Coordinator) : Coordinator :=
  {| queue := q; consumers := consumers c; futures := futures c;
     coordinator_stop_requested := coordinator_stop_requested c;
     coordinator_phase := coordinator_phase c |}.

Definition with_consumers (cs : gmap string Consumer) (c : Coordinator) : Coordinator :=
  {| queue := queue c; consumers := cs; futures := futures c;
     coordinator_stop_requested := coordinator_stop_requested c;
     coordinator_phase := coordinator_phase c |}.

Definition with_phase (p : CoordinatorPhase) (c : Coordinator) : Coordinator :=
  {| queue := queue c; consumers := consumers c; futures := futures c;
     coordinator_stop_requested := coordinator_stop_requested c;
     coordinator_phase := p |}.

(** Modelled from the spec: [pgshovel.utilities.async.invoke] is not among
    the verified sources; a command's future completes with the outcome of
    its operation, a result or the exception it raised. *)
Definition complete (response : nat) (outcome : Future) (c : Coordinator) : Coordinator :=
  {| queue := queue c; consumers := consumers c;
     futures := <[response := outcome]> (futures c);
     coordinator_stop_requested := coordinator_stop_requested c;
     coordinator_phase := coordinator_phase c |}.

(** [subscribe_async] and [unsubscribe_async]: a fresh future is queued with
    the command and handed back to the caller. *)
Definition subscribe_async (name configuration : string) (c : Coordinator)
  : nat * Coordinator :=
  let response := length (futures c) in
  (response,
   {| queue := queue c ++ [subscribe_command name configuration response];
      consumers := consumers c; futures := futures c ++ [Pending];
      coordinator_stop_requested := coordinator_stop_requested c;
      coordinator_phase := coordinator_phase c |}).

Definition unsubscribe_async (name : string) (c : Coordinator)
  : nat * Coordinator :=
  let response := length (futures c) in
  (response,
   {| queue := queue c ++ [unsubscribe_command name response];
      consumers := consumers c; futures := futures c ++ [Pending];
      coordinator_stop_requested := coordinator_stop_requested c;
      coordinator_phase := coordinator_phase c |}).

Definition coordinator_stop_async (c : Coordinator) : Coordinator :=
  {| queue := queue c; consumers := consumers c; futures := futures c;
     coordinator_stop_requested := true;
     coordinator_phase := coordinator_phase c |}.

(** [Consumer.stop]: request the stop and join the thread. *)
Definition stop (env : Environment) (c : Consumer) : Consumer :=
  run_tick env (stop_async c).

(** The deferred [check_stop] calls made for every consumer this
    coordinator started. *)
Definition shutdown (env : Environment) (p : CoordinatorPhase) (c : Coordinator)
  : Coordinator :=
  with_phase p (with_consumers (stop env <$> consumers c) c).

(** One command taken off the queue and invoked.  A [subscribe] for a new
    group registers the consumer, starts its thread and waits in
    [consumer.ready.wait()]: when the consumer is not ready the coordinator
    is left in [WaitingReady] with the future still to be completed.
    [unsubscribe] pops the consumer and stops it; the popped consumer is no
    longer part of the coordinator's state. *)
Definition perform (env : Environment) (command : Command) (c : Coordinator)
  : Coordinator :=
  match command with
  | subscribe_command name configuration response =>
      match consumers c !! name with
      | Some consumer =>
          let consumer :=
            {| group := group consumer; configuration := configuration;
               phase := phase consumer; ready := ready consumer;
               batches := batches consumer;
               stop_requested := stop_requested consumer;
               lease_held := lease_held consumer |} in
          complete response (Result name)
            (with_consumers (<[name := consumer]> (consumers c)) c)
      | None =>
          let consumer := run_tick env (new_consumer name configuration) in
          let c := with_consumers (<[name := consumer]> (consumers c)) c in
          if ready consumer then complete response (Result name) c
          else with_phase (WaitingReady name response) c
      end
  | unsubscribe_command name response =>
      match consumers c !! name with
      | None => complete response (Raised (KeyError name)) c
      | Some consumer =>
          complete response (Result name)
            (with_consumers (delete name (consumers c)) c)
      end
  end.

(** [while not self.__queue.empty(): ... invoke(...)] *)
Fixpoint drain (env : Environment) (commands : list Command) (c : Coordinator)
  : Coordinator :=
  match commands with
  | [] => with_queue [] c
  | command :: rest =>
      let c := perform env command (with_queue rest c) in
      match coordinator_phase c with
      | Looping => drain env rest c
      | _ => c
      end
  end.

(** [for consumer in self.__consumers.values(): ...] *)
Fixpoint supervise (env : Environment) (members : list (string * Consumer))
  (c : Coordinator) : Coordinator :=
  match members with
  | [] => c
  | (name, consumer) :: rest =>
      if negb (running consumer) then
        let e := match phase consumer with
                 | Failed e => e            (* consumer.result() re-raises *)
                 | _ => FoundDeadConsumer name
                 end in
        shutdown env (Died e) c
      else
        match batches consumer with
        | None => supervise env rest c      (* Empty *)
        | Some (events, batch_id) =>
            let taken :=
              {| group := group consumer; configuration := configuration consumer;
                 phase := phase consumer; ready := ready consumer;
                 batches := None;
                 stop_requested := stop_requested consumer;
                 lease_held := lease_held consumer |} in
            let c := with_consumers (<[name := taken]> (consumers c)) c in
            if finish_batch env batch_id then supervise env rest c
            else shutdown env (Died CouldNotCloseBatch) c
        end
  end.

(** The rest of a loop iteration once the coordinator is not waiting. *)
Definition proceed (env : Environment) (c : Coordinator) : Coordinator :=
  let c := drain env (queue c) c in
  match coordinator_phase c with
  | Looping => supervise env (map_to_list (consumers c)) c
  | _ => c
  end.

(** One iteration of [Coordinator.run]. *)
Definition run_iteration (env : Environment) (c : Coordinator) : Coordinator :=
  match coordinator_phase c with
  | Looping =>
      if coordinator_stop_requested c then shutdown env Finished c  (* break *)
      else proceed env c
  | WaitingReady name response =>
      match consumers c !! name with
      | Some consumer =>
          if ready consumer
          then proceed env (complete response (Result name) (with_phase Looping c))
          else c
      | None => c
      end
  | Finished | Died _ => c
  end.

(** Consumer threads tick on their own between coordinator iterations. *)
Definition tick_consumers (env : Environment) (c : Coordinator) : Coordinator :=
  with_consumers (run_tick env <$> consumers c) c.

Definition step (env : Environment) (c : Coordinator) : Coordinator :=
  run_iteration env (tick_consumers env c).

Definition coordinator_run (envs : list Environment) (c : Coordinator) : Coordinator :=
  foldl (λ c env, step env c) c envs.

(** *** Vocabulary for the properties of this module *)




(** *** Concrete environments and states *)

(** Another process holds every lease and keeps it. *)
Definition leases_taken : Environment :=
  {| lease_available := λ _, false; lease_retained := λ _, true;
     register_consumer := λ _, true; next_batch_info := λ _, None;
     finish_batch := λ _, true |}.

(** Every lease is free, no queue has a batch. *)
Definition leases_free : Environment :=
  {| lease_available := λ _, true; lease_retained := λ _, true;
     register_consumer := λ _, true; next_batch_info := λ _, None;
     finish_batch := λ _, true |}.



(** *** Vocabulary and states for further properties *)

(** What the consumer thread keeps true of its own state from tick to tick:
    it holds the lease exactly while it is in its main loop, [ready] is not
    set while it waits for the lease, and a consumer that has not set
    [ready] is still waiting for the lease or has failed to register, and
    has handed off no batch. *)
Definition consistent (c : Consumer) : Prop :=
  (lease_held c = true ↔ phase c = Running)
  ∧ (phase c = Acquiring → ready c = false)
  ∧ (ready c = false →
     (phase c = Acquiring ∨ phase c = Failed DatabaseError)
     ∧ batches c = None).

(** A consumer whose hand-off slot has been emptied
    ([consumer.batches.get(False)]). *)
Definition emptied (c : Consumer) : Consumer :=
  {| group := group c; configuration := configuration c; phase := phase c;
     ready := ready c; batches := None; stop_requested := stop_requested c;
     lease_held := lease_held c |}.

(** What can happen to a coordinator: its thread and the consumer threads
    run for a tick, or another thread calls one of its methods. *)
Inductive Action :=
| tick (env : Environment)
| call_subscribe (name configuration : string)
| call_unsubscribe (name : string)
| call_stop.

Definition act (c : Coordinator) (a : Action) : Coordinator :=
  match a with
  | tick env => step env c
  | call_subscribe name configuration => (subscribe_async name configuration c).2
  | call_unsubscribe name => (unsubscribe_async name c).2
  | call_stop => coordinator_stop_async c
  end.

(** The coordinator after a history of such actions. *)
Definition history (actions : list Action) : Coordinator :=
  foldl act new_coordinator actions.

(** Every consumer the coordinator holds has set [ready]. *)
Definition all_ready (consumers : gmap string Consumer) : Prop :=
  map_Forall (λ _ consumer, consistent consumer ∧ ready consumer = true)
    consumers.

(** The same while the coordinator waits in [subscribe]: every consumer but
    the one it waits for has set [ready]. *)
Definition settled (c : Coordinator) : Prop :=
  match coordinator_phase c with
  | Looping => all_ready (consumers c)
  | WaitingReady name _ =>
      map_Forall (λ other consumer,
                    consistent consumer
                    ∧ (other ≠ name → ready consumer = true))
        (consumers c)
  | Finished | Died _ => True
  end.


(** The lease of every group is free, [orders] has batch 7 waiting. *)
Definition batch_waiting : Environment :=
  {| lease_available := λ _, true; lease_retained := λ _, true;
     register_consumer := λ _, true;
     next_batch_info := λ _, Some (7%N, [1%N; 2%N]); finish_batch := λ _, true |}.

(** The lease of every group is free, but registering with PgQ fails. *)
Definition registration_refused : Environment :=
  {| lease_available := λ _, true; lease_retained := λ _, true;
     register_consumer := λ _, false; next_batch_info := λ _, None;
     finish_batch := λ _, true |}.

(** The lease is lost. *)
Definition lease_lost : Environment :=
  {| lease_available := λ _, false; lease_retained := λ _, false;
     register_consumer := λ _, true; next_batch_info := λ _, None;
     finish_batch := λ _, true |}.


End Worker.

(** ** pgshovel.administration *)

Module Administration.

(** *** Configuration messages (interfaces/configurations.proto) *)

Record ClusterConfiguration := {
  version : string;
}.

Record DatabaseConfiguration := {
  dsn : string;
}.

Record TableConfiguration := {
  table_schema : string;
  table_name : string;
  primary_keys : list string;
  columns : list string;
}.

Record ReplicationSetConfiguration := {
  databases : list DatabaseConfiguration;
  tables : list TableConfiguration;
}.

#[export] Instance ClusterConfiguration_eq_dec : EqDecision ClusterConfiguration.
Proof. solve_decision. Defined.
#[export] Instance DatabaseConfiguration_eq_dec : EqDecision DatabaseConfiguration.
Proof. solve_decision. Defined.
#[export] Instance TableConfiguration_eq_dec : EqDecision TableConfiguration.
Proof. solve_decision. Defined.
#[export] Instance ReplicationSetConfiguration_eq_dec :
  EqDecision ReplicationSetConfiguration.
Proof. solve_decision. Defined.

(** *** What the package takes from its surroundings: its own version
    string, the standard library and the template resources.  None of these
    is defined in administration.py. *)
Class Runtime := {
  __version__ : string;                        (* pgshovel.__version__ *)
  uuid1 : nat → string;                        (* uuid.uuid1().hex, by draw *)
  randint : nat → Z;                           (* random.randint(-2**63, 2**63-1) *)
  pickle_dumps : list string → string;         (* cPickle.dumps *)
  md5_hexdigest : string → string;             (* hashlib.md5(...).hexdigest() *)
  SerializeToString : ReplicationSetConfiguration → string;
  log_trigger_body : string;                   (* sql/log_trigger.py.tmpl *)
  parse_version_gt : string → string → bool;   (* parse_version(a) > parse_version(b) *)
}.

(** *** The cluster handle *)

(** Modelled from the spec: [pgshovel.cluster] is not among the verified
    sources.  A cluster has a name and a schema. *)
Record Cluster := {
  cluster_name : string;
  cluster_schema : string;
}.

(** Modelled from the spec: the queue of a set is named [<cluster>_<set>]. *)
Definition get_queue_name (cluster : Cluster) (name : string) : string :=
  cluster_name cluster ++ "_" ++ name.

(** Modelled from the spec: the triggers of a set are named
    [<cluster>_<set>]. *)
Definition get_trigger_name (cluster : Cluster) (name : string) : string :=
  cluster_name cluster ++ "_" ++ name.

(** *** A Postgres node *)

Record Trigger := {
  trigger_columns : list string;                      (* UPDATE OF ... *)
  trigger_arguments : string * string * string * string;
}.

(** SQL issued by administration.py, one constructor per statement text. *)
Inductive Statement :=
| create_extension_if_not_exists (name : string)
| create_or_replace_language (name : string)
| create_schema_if_not_exists (schema : string)
| create_table_if_not_exists_configuration (schema : string)
| insert_configuration (schema key value : string)
| update_configuration (schema key value : string)
| create_or_replace_function_log (schema generated_by body : string)
| pgq_create_queue (queue : string)
| pgq_drop_queue (queue : string)
| drop_trigger_if_exists (name schema table : string)
| create_trigger_statement (name : string) (columns : list string)
    (schema table cluster_schema : string)
    (arguments : string * string * string * string)
| drop_trigger_statement (name schema table : string)
| select_configuration (schema key : string)
| select_pg_try_advisory_lock (lock_id : Z).

Record Postgres := {
  extensions : gset string;
  languages : gset string;
  schemas : gset string;
  configuration : gmap string (gmap string string);  (* schema → key → value *)
  functions : gmap string (string * string);  (* schema → log(): generated by, body *)
  queues : gset string;
  triggers : gmap (string * string * string) Trigger; (* name, schema, table *)
}.

Definition empty_postgres : Postgres :=
  {| extensions := ∅; languages := ∅; schemas := ∅; configuration := ∅;
     functions := ∅; queues := ∅; triggers := ∅ |}.

(** *** Exceptions *)

Inductive Assertion :=
| node_id_is_none                                    (* line 177 *)
| could_not_take_out_advisory_lock (connection : nat) (* line 201 *)
| local_and_node_versions_do_not_match (local node : string)  (* line 216 *)
| found_duplicate_node (connection other : nat)      (* line 221 *)
| set_versions_do_not_match (given actual : string)  (* line 325 *)
| set_must_have_associated_databases                 (* line 333 *)
| duplicate_databases_not_allowed (dsn : string)     (* line 339 *)
| table_must_have_primary_keys (schema name : string) (* line 343 *)
| cannot_downgrade (stored running : string)         (* line 404 *)
| found_duplicates (nodes : list string).            (* line 496 *)

Inductive Exception :=
| AssertionError (a : Assertion)
| OperationalError (dsn : string)    (* psycopg2.connect failed *)
| ProgrammingError                   (* psycopg2.ProgrammingError *)
| IntegrityError
| InterfaceError                     (* use of a connection that does not exist *)
| VersionMismatchError (stored : string)   (* check_version *)
| NoNodeError
| TransactionFailed.                 (* the ZooKeeper transaction did not commit *)

(** The error kinds of the specification (section 7) that the exceptions of
    this module stand for. *)
Inductive ErrorKind :=
| ConnectionFailed
| NotConfigured
| VersionMismatch
| DuplicateNode
| PossibleDeadlock
| CoordinationStoreConflict.

Definition kind (e : Exception) : option ErrorKind :=
  match e with
  | OperationalError _ => Some ConnectionFailed
  | ProgrammingError => Some NotConfigured
  | VersionMismatchError _ => Some VersionMismatch
  | AssertionError (local_and_node_versions_do_not_match _ _) => Some VersionMismatch
  | AssertionError (found_duplicate_node _ _) => Some DuplicateNode
  | AssertionError (duplicate_databases_not_allowed _) => Some DuplicateNode
  | AssertionError (could_not_take_out_advisory_lock _) => Some PossibleDeadlock
  | TransactionFailed => Some CoordinationStoreConflict
  | _ => None
  end.

(** *** ZooKeeper *)

Inductive Path :=
| cluster_path                    (* cluster.path *)
| sets_path                       (* cluster.get_set_path() *)
| set_path (name : string).       (* cluster.get_set_path(name) *)

(** Node data.  [BinaryCodec] is kept abstract: a node holds the message
    that was encoded into it. *)
Inductive Data :=
| cluster_data (configuration : ClusterConfiguration)
| set_data_of (configuration : ReplicationSetConfiguration)
| no_data.

Inductive Operation :=
| create (path : Path) (data : Data)
| set_data (path : Path) (data : Data) (version : Z)
| check (path : Path) (version : Z)
| delete_node (path : Path) (version : Z).

Record ZooKeeper := {
  cluster_node : option (ClusterConfiguration * Z);
  sets_node : option Z;
  set_nodes : gmap string (ReplicationSetConfiguration * Z);
}.

(** *** Connections, transactions, the trace *)

Record Connection := {
  connection_dsn : string;
  connection_server : string;
  pending : option Postgres;        (* state inside the open transaction *)
}.

Record Transaction := {
  transaction_connection : nat;
  transaction_name : string;
}.

Inductive Event :=
| connected (dsn : string) (connection : nat)
| connection_refused (dsn : string)
| executed (connection : nat) (statement : Statement)
| connection_committed (connection : nat)      (* connection.commit() *)
| connection_rolled_back (connection : nat)    (* connection.rollback() *)
| transaction_began (t : Transaction)          (* Transaction(connection, name) *)
| transaction_committed (t : Transaction)
| transaction_rolled_back (t : Transaction)
| store_read (path : Path)
| store_transaction_started                    (* zookeeper.transaction() *)
| store_committed (operations : list Operation)
| store_commit_failed (operations : list Operation).

Record World := {
  servers : gmap string string;            (* DSN → Postgres instance reached *)
  committed : gmap string Postgres;        (* instance → committed state *)
  connections : list Connection;           (* psycopg2 connections, by identity *)
  advisory_locks : gmap (string * Z) nat;  (* instance, key → holding session *)
  zookeeper : ZooKeeper;
  entropy : nat;                           (* draws made from uuid1/randint *)
  trace : list Event;
}.

(** *** The monad of the module: a world threaded through, and exceptions *)

Definition M (A : Type) : Type := World → (Exception + A) * World.

Definition ret {A} (a : A) : M A := λ w, (inr a, w).

Definition raise {A} (e : Exception) : M A := λ w, (inl e, w).

Definition bind {A B} (m : M A) (k : A → M B) : M B :=
  λ w, match m w with
       | (inl e, w') => (inl e, w')
       | (inr a, w') => k a w'
       end.

(** [try: ... except Exception as error: ...], the handler given the result. *)
Definition try {A} (m : M A) : M (Exception + A) :=
  λ w, let '(r, w') := m w in (inr r, w').

Definition assert (condition : bool) (a : Assertion) : M unit :=
  if condition then ret tt else raise (AssertionError a).

Definition get_world : M World := λ w, (inr w, w).

Definition log (e : Event) : M unit :=
  λ w, (inr tt,
        {| servers := servers w; committed := committed w;
           connections := connections w; advisory_locks := advisory_locks w;
           zookeeper := zookeeper w; entropy := entropy w;
           trace := trace w ++ [e] |}).

Declare Scope admin_scope.
Delimit Scope admin_scope with admin.
Notation "'let*' x := m 'in' k" := (bind m (λ x, k))
  (at level 10, x pattern, m at level 100, k at level 200) : admin_scope.
Notation "m ;;; k" := (bind m (λ _, k))
  (at level 100, k at level 200, right associativity) : admin_scope.
Local Open Scope admin_scope.

(** [for x in xs: ...] with the loop state passed along. *)
Fixpoint for_each {A S} (xs : list A) (body : A → S → M S) (s : S) : M S :=
  match xs with
  | [] => ret s
  | x :: rest => let* s := body x s in for_each rest body s
  end.

Definition set_trace (t : list Event) (w : World) : World :=
  {| servers := servers w; committed := committed w;
     connections := connections w; advisory_locks := advisory_locks w;
     zookeeper := zookeeper w; entropy := entropy w; trace := t |}.

Definition set_connections (cs : list Connection) (w : World) : World :=
  {| servers := servers w; committed := committed w;
     connections := cs; advisory_locks := advisory_locks w;
     zookeeper := zookeeper w; entropy := entropy w; trace := trace w |}.

Definition set_committed (dbs : gmap string Postgres) (w : World) : World :=
  {| servers := servers w; committed := dbs;
     connections := connections w; advisory_locks := advisory_locks w;
     zookeeper := zookeeper w; entropy := entropy w; trace := trace w |}.

Definition set_advisory_locks (locks : gmap (string * Z) nat) (w : World) : World :=
  {| servers := servers w; committed := committed w;
     connections := connections w; advisory_locks := locks;
     zookeeper := zookeeper w; entropy := entropy w; trace := trace w |}.

Definition set_zookeeper (z : ZooKeeper) (w : World) : World :=
  {| servers := servers w; committed := committed w;
     connections := connections w; advisory_locks := advisory_locks w;
     zookeeper := z; entropy := entropy w; trace := trace w |}.

Definition set_entropy (n : nat) (w : World) : World :=
  {| servers := servers w; committed := committed w;
     connections := connections w; advisory_locks := advisory_locks w;
     zookeeper := zookeeper w; entropy := n; trace := trace w |}.

Definition set_pending (p : option Postgres) (c : Connection) : Connection :=
  {| connection_dsn := connection_dsn c;
     connection_server := connection_server c; pending := p |}.

(** *** Postgres as psycopg2 shows it *)

(** The committed state of an instance; an instance never written to is
    empty. *)
Definition instance (w : World) (server : string) : Postgres :=
  default empty_postgres (committed w !! server).

(** What a connection sees: its own open transaction, else what is
    committed on its instance. *)
Definition view (w : World) (connection : nat) : option Postgres :=
  c ← connections w !! connection;
  Some (default (instance w (connection_server c)) (pending c)).

(** [psycopg2.connect(dsn)] *)
Definition connect (dsn : string) : M nat :=
  λ w, match servers w !! dsn with
       | None =>
           (inl (OperationalError dsn),
            set_trace (trace w ++ [connection_refused dsn]) w)
       | Some server =>
           let connection := length (connections w) in
           (inr connection,
            set_trace (trace w ++ [connected dsn connection])
              (set_connections
                 (connections w ++
                    [{| connection_dsn := dsn; connection_server := server;
                        pending := None |}]) w))
       end.

(** The effect of a statement on the state it runs against. *)
Definition apply_statement (s : Statement) (db : Postgres) : Exception + Postgres :=
  match s with
  | create_extension_if_not_exists name =>
      inr {| extensions := {[name]} ∪ extensions db; languages := languages db;
             schemas := schemas db; configuration := configuration db;
             functions := functions db; queues := queues db;
             triggers := triggers db |}
  | create_or_replace_language name =>
      inr {| extensions := extensions db; languages := {[name]} ∪ languages db;
             schemas := schemas db; configuration := configuration db;
             functions := functions db; queues := queues db;
             triggers := triggers db |}
  | create_schema_if_not_exists schema =>
      inr {| extensions := extensions db; languages := languages db;
             schemas := {[schema]} ∪ schemas db; configuration := configuration db;
             functions := functions db; queues := queues db;
             triggers := triggers db |}
  | create_table_if_not_exists_configuration schema =>
      inr {| extensions := extensions db; languages := languages db;
             schemas := schemas db;
             configuration :=
               match configuration db !! schema with
               | Some _ => configuration db
               | None => <[schema := ∅]> (configuration db)
               end;
             functions := functions db; queues := queues db;
             triggers := triggers db |}
  | insert_configuration schema key value =>
      match configuration db !! schema with
      | None => inl ProgrammingError
      | Some rows =>
          match rows !! key with
          | Some _ => inl IntegrityError        (* key is the primary key *)
          | None =>
              inr {| extensions := extensions db; languages := languages db;
                     schemas := schemas db;
                     configuration :=
                       <[schema := <[key := value]> rows]> (configuration db);
                     functions := functions db; queues := queues db;
                     triggers := triggers db |}
          end
      end
  | update_configuration schema key value =>
      match configuration db !! schema with
      | None => inl ProgrammingError
      | Some rows =>
          inr {| extensions := extensions db; languages := languages db;
                 schemas := schemas db;
                 configuration :=
                   <[schema := alter (λ _, value) key rows]> (configuration db);
                 functions := functions db; queues := queues db;
                 triggers := triggers db |}
      end
  | create_or_replace_function_log schema generated_by body =>
      inr {| extensions := extensions db; languages := languages db;
             schemas := schemas db; configuration := configuration db;
             functions := <[schema := (generated_by, body)]> (functions db);
             queues := queues db; triggers := triggers db |}
  | pgq_create_queue queue =>
      inr {| extensions := extensions db; languages := languages db;
             schemas := schemas db; configuration := configuration db;
             functions := functions db; queues := {[queue]} ∪ queues db;
             triggers := triggers db |}
  | pgq_drop_queue queue =>
      if decide (queue ∈ queues db) then
        inr {| extensions := extensions db; languages := languages db;
               schemas := schemas db; configuration := configuration db;
               functions := functions db; queues := queues db ∖ {[queue]};
               triggers := triggers db |}
      else inl ProgrammingError
  | drop_trigger_if_exists name schema table =>
      inr {| extensions := extensions db; languages := languages db;
             schemas := schemas db; configuration := configuration db;
             functions := functions db; queues := queues db;
             triggers := delete (name, schema, table) (triggers db) |}
  | create_trigger_statement name columns schema table cluster_schema arguments =>
      match triggers db !! (name, schema, table) with
      | Some _ => inl ProgrammingError
      | None =>
          inr {| extensions := extensions db; languages := languages db;
                 schemas := schemas db; configuration := configuration db;
                 functions := functions db; queues := queues db;
                 triggers :=
                   <[(name, schema, table) :=
                       {| trigger_columns := columns;
                          trigger_arguments := arguments |}]> (triggers db) |}
      end
  | drop_trigger_statement name schema table =>
      match triggers db !! (name, schema, table) with
      | None => inl ProgrammingError
      | Some _ =>
          inr {| extensions := extensions db; languages := languages db;
                 schemas := schemas db; configuration := configuration db;
                 functions := functions db; queues := queues db;
                 triggers := delete (name, schema, table) (triggers db) |}
      end
  | select_configuration schema key =>
      match configuration db !! schema with
      | None => inl ProgrammingError      (* relation does not exist *)
      | Some _ => inr db
      end
  | select_pg_try_advisory_lock _ => inr db
  end.

(** [cursor.execute(statement)] on a cursor of the connection: the
    statement runs against the connection's view and its effect stays in
    the connection's open transaction.  A statement that fails changes
    nothing. *)
Definition execute (connection : nat) (s : Statement) : M unit :=
  λ w, match connections w !! connection with
       | None => (inl InterfaceError, w)
       | Some c =>
           let w := set_trace (trace w ++ [executed connection s]) w in
           match apply_statement s
                   (default (instance w (connection_server c)) (pending c)) with
           | inl e => (inl e, w)
           | inr db =>
               (inr tt,
                set_connections
                  (<[connection := set_pending (Some db) c]> (connections w)) w)
           end
       end.

(** [connection.commit()] and [connection.rollback()] *)
Definition end_transaction (keep : bool) (connection : nat) (e : Event) : M unit :=
  λ w, match connections w !! connection with
       | None => (inl InterfaceError, w)
       | Some c =>
           let w := set_trace (trace w ++ [e]) w in
           let w :=
             match pending c with
             | Some db =>
                 if keep
                 then set_committed (<[connection_server c := db]> (committed w)) w
                 else w
             | None => w
             end in
           (inr tt,
            set_connections
              (<[connection := set_pending None c]> (connections w)) w)
       end.

Definition connection_commit (connection : nat) : M unit :=
  end_transaction true connection (connection_committed connection).

Definition connection_rollback (connection : nat) : M unit :=
  end_transaction false connection (connection_rolled_back connection).

(** [SELECT pg_try_advisory_lock(%s)]: a session-level lock on the
    instance, refused while another session holds the key. *)
Definition take_advisory_lock (connection : nat) (lock_id : Z) : M bool :=
  λ w, match connections w !! connection with
       | None => (inl InterfaceError, w)
       | Some c =>
           let slot := (connection_server c, lock_id) in
           match advisory_locks w !! slot with
           | Some holder =>
               (inr (bool_decide (holder = connection)), w)
           | None =>
               (inr true,
                set_advisory_locks (<[slot := connection]> (advisory_locks w)) w)
           end
       end.

Definition pg_try_advisory_lock (connection : nat) (lock_id : Z) : M bool :=
  execute connection (select_pg_try_advisory_lock lock_id);;;
  take_advisory_lock connection lock_id.

(** *** Two-phase helpers of pgshovel.utilities.postgresql *)

(** Modelled from the spec: [Transaction] is not among the verified
    sources; it is an open, named Postgres transaction on a connection. *)
Definition Transaction_init (connection : nat) (name : string) : M Transaction :=
  let t := {| transaction_connection := connection;
              transaction_name := name |} in
  log (transaction_began t);;; ret t.

(** Modelled from the spec: committing an open Postgres transaction. *)
Definition Transaction_commit (t : Transaction) : M unit :=
  end_transaction true (transaction_connection t) (transaction_committed t).

(** Modelled from the spec: rolling an open Postgres transaction back. *)
Definition Transaction_rollback (t : Transaction) : M unit :=
  end_transaction false (transaction_connection t) (transaction_rolled_back t).

(** Modelled from the spec: [managed] is not among the verified sources;
    it is the scoped batch of the specification's design notes: it runs its
    body, commits every member on normal exit and rolls every member back
    on any exceptional exit. *)
Definition managed {A} (transactions : list Transaction) (body : M A) : M A :=
  let* outcome := try body in
  match outcome with
  | inl error =>
      for_each transactions (λ t _, Transaction_rollback t) tt;;;
      raise error
  | inr result =>
      for_each transactions (λ t _, Transaction_commit t) tt;;;
      ret result
  end.

(** *** ZooKeeper access (kazoo) *)

Definition apply_operation (o : Operation) (z : ZooKeeper) : option ZooKeeper :=
  match o with
  | create cluster_path (cluster_data c) =>
      match cluster_node z with
      | None => Some {| cluster_node := Some (c, 0%Z); sets_node := sets_node z;
                        set_nodes := set_nodes z |}
      | Some _ => None
      end
  | create sets_path no_data =>
      match cluster_node z, sets_node z with
      | Some _, None => Some {| cluster_node := cluster_node z;
                                sets_node := Some 0%Z;
                                set_nodes := set_nodes z |}
      | _, _ => None
      end
  | create (set_path name) (set_data_of c) =>
      match sets_node z, set_nodes z !! name with
      | Some _, None => Some {| cluster_node := cluster_node z;
                                sets_node := sets_node z;
                                set_nodes := <[name := (c, 0%Z)]> (set_nodes z) |}
      | _, _ => None
      end
  | create _ _ => None
  | set_data cluster_path (cluster_data c) version =>
      match cluster_node z with
      | Some (_, revision) =>
          if decide (revision = version)
          then Some {| cluster_node := Some (c, (revision + 1)%Z);
                       sets_node := sets_node z; set_nodes := set_nodes z |}
          else None
      | None => None
      end
  | set_data (set_path name) (set_data_of c) version =>
      match set_nodes z !! name with
      | Some (_, revision) =>
          if decide (revision = version)
          then Some {| cluster_node := cluster_node z; sets_node := sets_node z;
                       set_nodes :=
                         <[name := (c, (revision + 1)%Z)]> (set_nodes z) |}
          else None
      | None => None
      end
  | set_data _ _ _ => None
  | check cluster_path version =>
      match cluster_node z with
      | Some (_, revision) => if decide (revision = version) then Some z else None
      | None => None
      end
  | check sets_path version =>
      match sets_node z with
      | Some revision => if decide (revision = version) then Some z else None
      | None => None
      end
  | check (set_path name) version =>
      match set_nodes z !! name with
      | Some (_, revision) => if decide (revision = version) then Some z else None
      | None => None
      end
  | delete_node (set_path name) version =>
      match set_nodes z !! name with
      | Some (_, revision) =>
          if decide (revision = version)
          then Some {| cluster_node := cluster_node z; sets_node := sets_node z;
                       set_nodes := delete name (set_nodes z) |}
          else None
      | None => None
      end
  | delete_node _ _ => None
  end.

Fixpoint apply_operations (os : list Operation) (z : ZooKeeper) : option ZooKeeper :=
  match os with
  | [] => Some z
  | o :: rest => z ← apply_operation o z; apply_operations rest z
  end.

(** [zookeeper.transaction()] *)
Definition zookeeper_transaction : M (list Operation) :=
  log store_transaction_started;;; ret [].

(** Modelled from the spec: [pgshovel.utilities.zookeeper.commit] is not
    among the verified sources.  The operations of the transaction are
    applied atomically; when one of them is refused nothing is written and
    the commit raises. *)
Definition commit (ztransaction : list Operation) : M unit :=
  λ w, match apply_operations ztransaction (zookeeper w) with
       | Some z =>
           (inr tt,
            set_trace (trace w ++ [store_committed ztransaction])
              (set_zookeeper z w))
       | None =>
           (inl TransactionFailed,
            set_trace (trace w ++ [store_commit_failed ztransaction]) w)
       end.

(** [zookeeper.get(cluster.path)], decoded. *)
Definition zookeeper_get_cluster : M (ClusterConfiguration * Z) :=
  log (store_read cluster_path);;;
  let* w := get_world in
  match cluster_node (zookeeper w) with
  | Some node => ret node
  | None => raise NoNodeError
  end.

(** [zookeeper.get_async(cluster.get_set_path(name))]: the request goes
    out, the answer is waited for later. *)
Definition zookeeper_get_async (name : string) : M string :=
  log (store_read (set_path name));;; ret name.

(** [future.get()] on such a request, decoded. *)
Definition future_get (name : string) : M (ReplicationSetConfiguration * Z) :=
  let* w := get_world in
  match set_nodes (zookeeper w) !! name with
  | Some node => ret node
  | None => raise NoNodeError
  end.

(** [zookeeper.get_children(cluster.get_set_path())] *)
Definition zookeeper_get_children : M (list string) :=
  log (store_read sets_path);;;
  let* w := get_world in
  match sets_node (zookeeper w) with
  | Some _ => ret (elements (dom (set_nodes (zookeeper w))))
  | None => raise NoNodeError
  end.

Section WithRuntime.

Context `{Runtime}.

(** Modelled from the spec: [pgshovel.cluster.check_version] is not among
    the verified sources.  It starts a coordination-store transaction that
    asserts the cluster's version equals the running version. *)
Definition check_version (cluster : Cluster) : M (list Operation) :=
  let* (configuration, revision) := zookeeper_get_cluster in
  if decide (version configuration = __version__) then
    let* ztransaction := zookeeper_transaction in
    ret (ztransaction ++ [check cluster_path revision])
  else raise (VersionMismatchError (version configuration)).

(** *** pgshovel.database *)

(** Modelled from the spec: the helpers of [pgshovel.database] are not among
    the verified sources.  This one reads a row of [<schema>.configuration];
    it fails when the table does not exist. *)
Definition get_configuration_value (cluster : Cluster) (cursor : nat) (key : string)
  : M (option string) :=
  execute cursor (select_configuration (cluster_schema cluster) key);;;
  let* w := get_world in
  ret (db ← view w cursor;
       rows ← configuration db !! cluster_schema cluster;
       rows !! key).

(** Modelled from the spec: inserts a row of [<schema>.configuration]. *)
Definition set_configuration_value (cluster : Cluster) (cursor : nat)
  (key value : string) : M unit :=
  execute cursor (insert_configuration (cluster_schema cluster) key value).

(** Modelled from the spec: updates a row of [<schema>.configuration]. *)
Definition update_configuration_value (cluster : Cluster) (cursor : nat)
  (key value : string) : M unit :=
  execute cursor (update_configuration (cluster_schema cluster) key value).

(** Modelled from the spec: the node identifier is the row [node_id]. *)
Definition get_node_identifier (cluster : Cluster) (cursor : nat)
  : M (option string) :=
  get_configuration_value cluster cursor "node_id".

(** [uuid.uuid1().hex] *)
Definition draw_uuid : M string :=
  λ w, (inr (uuid1 (entropy w)), set_entropy (S (entropy w)) w).

(** Modelled from the spec: reads [node_id]; if absent, inserts a fresh
    UUID generated by the client. *)
Definition get_or_set_node_identifier (cluster : Cluster) (cursor : nat)
  : M string :=
  let* node_id := get_node_identifier cluster cursor in
  match node_id with
  | Some node_id => ret node_id
  | None =>
      let* node_id := draw_uuid in
      set_configuration_value cluster cursor "node_id" node_id;;;
      ret node_id
  end.

(** *** Database management *)

Definition create_configuration_table (cluster : Cluster) (cursor : nat) : M unit :=
  execute cursor (create_table_if_not_exists_configuration (cluster_schema cluster)).

Definition create_log_trigger_function (cluster : Cluster) (cursor : nat)
  (node_id : string) : M unit :=
  let body := log_trigger_body in
  execute cursor
    (create_or_replace_function_log (cluster_schema cluster) __version__ body).

Definition setup_database (cluster : Cluster) (cursor : nat) : M string :=
  (* Install PGQ if it doesn't already exist. *)
  execute cursor (create_extension_if_not_exists "pgq");;;
  (* Install pypythonu if it doesn't already exist. *)
  execute cursor (create_or_replace_language "plpythonu");;;
  (* Create the schema if it doesn't already exist. *)
  execute cursor (create_schema_if_not_exists (cluster_schema cluster));;;
  (* Create the configuration table if it doesn't already exist. *)
  create_configuration_table cluster cursor;;;
  let* version := get_configuration_value cluster cursor "version" in
  match version with
  | None => set_configuration_value cluster cursor "version" __version__
  | Some version =>
      if decide (version ≠ __version__)
      then update_configuration_value cluster cursor "version" __version__
      else ret tt
  end;;;
  (* Ensure that this database has already had an identifier associated with it. *)
  let* node_id := get_or_set_node_identifier cluster cursor in
  create_log_trigger_function cluster cursor node_id;;;
  ret node_id.

(** [str(value)] of an optional configuration value. *)
Definition str (value : option string) : string :=
  match value with
  | Some value => value
  | None => "None"
  end.

(** The body of [for dsn in dsns:] in [get_managed_databases]; the loop
    state is the [nodes] dictionary and the [transactions] list. *)
Definition get_managed_databases_body (cluster : Cluster)
  (configure skip_inaccessible : bool) (lock_id : Z) (dsn : string)
  (state : gmap string nat * list Transaction)
  : M (gmap string nat * list Transaction) :=
  let '(nodes, transactions) := state in
  let* attempt := try (connect dsn) in
  match attempt with
  | inl error =>
      if skip_inaccessible then ret (nodes, transactions)   (* continue *)
      else raise error
  | inr connection =>
      let* probe :=
        try (let* node_id := get_node_identifier cluster connection in
             match node_id with
             | Some node_id => ret node_id
             | None => raise (AssertionError node_id_is_none)
             end) in
      let* (node_id, transactions) :=
        match probe with
        | inl ProgrammingError =>
            if negb configure then raise ProgrammingError
            else
              connection_rollback connection;;;   (* start over *)
              let* transaction := Transaction_init connection "setup-database" in
              let transactions := transactions ++ [transaction] in
              let* acquired := pg_try_advisory_lock connection lock_id in
              assert acquired (could_not_take_out_advisory_lock connection);;;
              let* node_id := setup_database cluster connection in
              ret (node_id, transactions)
        | inl error => raise error
        | inr node_id =>
            let* version :=
              get_configuration_value cluster connection "version" in
            let version := str version in
            assert (bool_decide (version = __version__))
              (local_and_node_versions_do_not_match __version__ version);;;
            connection_commit connection;;;   (* don't leave idle in transaction *)
            ret (node_id, transactions)
        end in
      match nodes !! node_id with
      | Some other =>
          raise (AssertionError (found_duplicate_node connection other))
      | None => ret (<[node_id := connection]> nodes, transactions)
      end
  end.

Definition draw_randint : M Z :=
  λ w, (inr (randint (entropy w)), set_entropy (S (entropy w)) w).

Definition get_managed_databases (cluster : Cluster) (dsns : list string)
  (configure skip_inaccessible same_version : bool) : M (gmap string nat) :=
  match dsns with
  | [] => ret ∅
  | _ =>
      let* ztransaction :=
        if same_version then check_version cluster
        else zookeeper_transaction in
      let* lock_id := draw_randint in   (* bigint max/min *)
      let* (nodes, transactions) :=
        for_each dsns
          (get_managed_databases_body cluster configure skip_inaccessible lock_id)
          (∅, []) in
      match transactions with
      | [] => ret tt
      | _ => managed transactions (commit ztransaction)
      end;;;
      ret nodes
  end.

(** [nodes.values()] *)
Definition values {K A} `{Countable K} (m : gmap K A) : list A :=
  (map_to_list m).*2.

(** *** Trigger management *)

(** Returns a MD5 hash (version identifier) for a configuration object. *)
Definition get_version (configuration : ReplicationSetConfiguration) : string :=
  md5_hexdigest (SerializeToString configuration).

(** The inner [create_trigger] of [setup_triggers]. *)
Definition create_trigger (cluster : Cluster) (cursor : nat) (name : string)
  (configuration : ReplicationSetConfiguration) (trigger : string)
  (schema table : string) (primary_keys columns : list string) : M unit :=
  let statement :=
    create_trigger_statement trigger columns schema table (cluster_schema cluster)
      (get_queue_name cluster name,
       pickle_dumps primary_keys,
       pickle_dumps columns,
       get_version configuration) in
  execute cursor (drop_trigger_if_exists trigger schema table);;;
  execute cursor statement.

Definition setup_triggers (cluster : Cluster) (cursor : nat) (name : string)
  (configuration : ReplicationSetConfiguration) : M unit :=
  let trigger := get_trigger_name cluster name in
  for_each (tables configuration)
    (λ table _,
       let primary_keys := Utilities.unique (primary_keys table) in
       create_trigger cluster cursor name configuration trigger
         (table_schema table) (table_name table) primary_keys
         (Utilities.unique (primary_keys ++ columns table)))
    tt.

(** Drops a log trigger on the provided table for the specified replication
    set. *)
Definition drop_trigger (cluster : Cluster) (cursor : nat) (name schema table : string)
  : M unit :=
  execute cursor
    (drop_trigger_statement (get_trigger_name cluster name) schema table).

(** *** Replication set management *)

Record VersionedSet := {
  set_name : string;
  set_version : option string;
}.

(** [value.split('@', 1)] *)
Fixpoint split_at_sign (value : string) : string * option string :=
  match value with
  | EmptyString => (EmptyString, None)
  | String a rest =>
      if Ascii.eqb a "@"%char then (EmptyString, Some rest)
      else let '(name, version) := split_at_sign rest in
           (String a name, version)
  end.

Definition expand (value : string) : VersionedSet :=
  let '(name, version) := split_at_sign value in
  {| set_name := name; set_version := version |}.

Definition fetch_sets (cluster : Cluster) (names : option (list string))
  : M (list (string * (ReplicationSetConfiguration * Z))) :=
  let* names :=
    match names with
    | None => zookeeper_get_children
    | Some names => ret names
    end in
  let sets := map expand names in
  let* futures :=
    for_each sets
      (λ s futures,
         let* future := zookeeper_get_async (set_name s) in
         ret (futures ++ [future]))
      [] in
  for_each (zip sets futures)
    (λ '(s, future) results,
       let* (configuration, stat) := future_get future in
       match set_version s with
       | None => ret tt
       | Some version =>
           assert (bool_decide (version = get_version configuration))
             (set_versions_do_not_match version (get_version configuration))
       end;;;
       ret (results ++ [(set_name s, (configuration, stat))]))
    [].

Definition validate_set_configuration (configuration : ReplicationSetConfiguration)
  : M unit :=
  assert (0 <? length (databases configuration))%nat
    set_must_have_associated_databases;;;
  for_each (databases configuration)
    (λ database (dsns : gset string),
       assert (bool_decide (dsn database ∉ dsns))
         (duplicate_databases_not_allowed (dsn database));;;
       ret ({[dsn database]} ∪ dsns))
    ∅;;;
  for_each (tables configuration)
    (λ table _,
       assert (0 <? length (primary_keys table))%nat
         (table_must_have_primary_keys (table_schema table) (table_name table)))
    tt.

Definition table_keys (configuration : ReplicationSetConfiguration)
  : gset (string * string) :=
  list_to_set (map (λ t, (table_schema t, table_name t)) (tables configuration)).

(** Configures a replication set using the provided name and configuration
    data. *)
Definition configure_set (cluster : Cluster) (cursor : nat) (name : string)
  (configuration : ReplicationSetConfiguration)
  (previous_configuration : option ReplicationSetConfiguration) : M unit :=
  (* Create the transaction queue if it doesn't already exist. *)
  execute cursor (pgq_create_queue (get_queue_name cluster name));;;
  setup_triggers cluster cursor name configuration;;;
  match previous_configuration with
  | None => ret tt
  | Some previous_configuration =>
      let current_tables := table_keys previous_configuration in
      let updated_tables := table_keys configuration in
      let dropped_tables := current_tables ∖ updated_tables in
      for_each (elements dropped_tables)
        (λ '(schema, table) _, drop_trigger cluster cursor name schema table)
        tt
  end.

(** Removes all triggers and log queue for the provided replication set. *)
Definition unconfigure_set (cluster : Cluster) (cursor : nat) (name : string)
  (configuration : ReplicationSetConfiguration) : M unit :=
  (* Drop the transaction queue if it exists. *)
  execute cursor (pgq_drop_queue (get_queue_name cluster name));;;
  for_each (tables configuration)
    (λ table _,
       drop_trigger cluster cursor name (table_schema table) (table_name table))
    tt.

(** *** Cluster management *)

(** Initialize a pgshovel cluster in ZooKeeper. *)
Definition initialize_cluster (cluster : Cluster) : M unit :=
  let configuration := {| version := __version__ |} in
  let* ztransaction := zookeeper_transaction in
  let ztransaction := ztransaction ++ [create cluster_path (cluster_data configuration)] in
  let ztransaction := ztransaction ++ [create sets_path no_data] in
  commit ztransaction.

(** One open transaction per connection, the work done inside it. *)
Definition in_transactions (connections : list nat) (name : string)
  (work : nat → M unit) (transactions : list Transaction)
  : M (list Transaction) :=
  for_each connections
    (λ connection transactions,
       let* transaction := Transaction_init connection name in
       let transactions := transactions ++ [transaction] in
       work connection;;;
       ret transactions)
    transactions.

Definition upgrade_cluster (cluster : Cluster) (force : bool) : M unit :=
  let* (configuration, stat) := zookeeper_get_cluster in
  (* if the configuration is newer or equal, require manual intervention *)
  assert (parse_version_gt __version__ (version configuration) || force)
    (cannot_downgrade (version configuration) __version__);;;
  let configuration := {| version := __version__ |} in
  let* ztransaction := zookeeper_transaction in
  let ztransaction :=
    ztransaction ++ [set_data cluster_path (cluster_data configuration) stat] in
  (* collect databases *)
  let* sets := fetch_sets cluster None in
  let '(databases, ztransaction) :=
    foldl (λ '(databases, ztransaction) '(s, (configuration, stat)),
             (databases ∪ list_to_set (map dsn (Administration.databases configuration)),
              ztransaction ++ [check (set_path s) stat]))
          ((∅ : gset string), ztransaction) sets in
  let* nodes :=
    get_managed_databases cluster (elements databases) false false false in
  let* transactions :=
    in_transactions (values nodes) "update-cluster"
      (λ connection, setup_database cluster connection;;; ret tt) [] in
  managed transactions (commit ztransaction).

(** *** Replication set management *)

Definition create_set (cluster : Cluster) (name : string)
  (configuration : ReplicationSetConfiguration) : M unit :=
  validate_set_configuration configuration;;;
  let* databases :=
    get_managed_databases cluster (map dsn (databases configuration))
      true false true in
  let* ztransaction := check_version cluster in
  let* transactions :=
    in_transactions (values databases) ("create-set:" ++ name)
      (λ connection, configure_set cluster connection name configuration None)
      [] in
  let ztransaction :=
    ztransaction ++ [create (set_path name) (set_data_of configuration)] in
  managed transactions (commit ztransaction).

Definition update_set (cluster : Cluster) (name : string)
  (updated_configuration : ReplicationSetConfiguration)
  (allow_forced_removal : bool) : M unit :=
  validate_set_configuration updated_configuration;;;
  let* sets := fetch_sets cluster (Some [name]) in
  match sets with
  | [] => raise NoNodeError      (* unreachable: one name gives one result *)
  | (name, (current_configuration, stat)) :: _ =>
      let current_databases : gset string :=
        list_to_set (map dsn (databases current_configuration)) in
      let updated_databases : gset string :=
        list_to_set (map dsn (databases updated_configuration)) in
      let* additions :=
        get_managed_databases cluster
          (elements (updated_databases ∖ current_databases)) true false true in
      let* mutations :=
        get_managed_databases cluster
          (elements (updated_databases ∩ current_databases)) true false true in
      let* deletions :=
        get_managed_databases cluster
          (elements (current_databases ∖ updated_databases))
          true allow_forced_removal true in
      (* ensure no items show up multiple times *)
      let duplicates :=
        elements ((dom additions ∩ dom mutations)
                  ∪ (dom additions ∩ dom deletions)
                  ∪ (dom mutations ∩ dom deletions)) in
      assert (bool_decide (duplicates = [])) (found_duplicates duplicates);;;
      let* ztransaction := check_version cluster in
      let* transactions :=
        in_transactions (values additions) ("update-set:create:" ++ name)
          (λ connection,
             configure_set cluster connection name updated_configuration None)
          [] in
      let* transactions :=
        in_transactions (values mutations) ("update-set:update:" ++ name)
          (λ connection,
             configure_set cluster connection name updated_configuration
               (Some current_configuration))
          transactions in
      let* transactions :=
        in_transactions (values deletions) ("update-set:delete:" ++ name)
          (λ connection,
             unconfigure_set cluster connection name current_configuration)
          transactions in
      let ztransaction :=
        ztransaction
          ++ [set_data (set_path name) (set_data_of updated_configuration) stat] in
      managed transactions (commit ztransaction)
  end.

Definition drop_set (cluster : Cluster) (name : string)
  (allow_forced_removal : bool) : M unit :=
  let* sets := fetch_sets cluster (Some [name]) in
  match sets with
  | [] => raise NoNodeError      (* unreachable: one name gives one result *)
  | (name, (configuration, stat)) :: _ =>
      let* deletions :=
        get_managed_databases cluster (map dsn (databases configuration))
          false allow_forced_removal true in
      let* ztransaction := check_version cluster in
      let* transactions :=
        in_transactions (values deletions) ("drop-set:" ++ name)
          (λ connection, unconfigure_set cluster connection name configuration)
          [] in
      let ztransaction := ztransaction ++ [delete_node (set_path name) stat] in
      managed transactions (commit ztransaction)
  end.

End WithRuntime.

(** *** Vocabulary for the properties of this module *)

(** The world after statements ran on a cursor: the connection's open
    transaction holds [db], the trace has grown by [events]. *)
Definition in_session (cursor : nat) (db : Postgres) (events : list Event)
  (w : World) : World :=
  set_connections (alter (set_pending (Some db)) cursor (connections w))
    (set_trace (trace w ++ events) w).

(** A DSN can be connected to. *)
Definition accessible (w : World) (dsn : string) : Prop :=
  is_Some (servers w !! dsn).

#[export] Instance accessible_dec w dsn : Decision (accessible w dsn).
Proof. unfold accessible. apply _. Defined.

(** The row of [<schema>.configuration] committed on the instance a DSN
    leads to. *)
Definition stored (cluster : Cluster) (w : World) (dsn key : string)
  : option string :=
  server ← servers w !! dsn;
  rows ← configuration (instance w server) !! cluster_schema cluster;
  rows !! key.

(** A computation never changes where DSNs lead. *)
Definition keeps_servers {A} (m : M A) : Prop :=
  ∀ w, servers (m w).2 = servers w.

(** Events that commit neither a [Transaction] nor the ZooKeeper
    transaction. *)
Definition quiet (e : Event) : Prop :=
  match e with
  | transaction_committed _ | store_committed _ => False
  | _ => True
  end.

(** Events among which the only [Transaction]s committed are the setup
    transactions of [get_managed_databases]. *)
Definition setup_only (e : Event) : Prop :=
  match e with
  | transaction_committed t => transaction_name t = "setup-database"
  | _ => True
  end.

(** A computation only appends to the trace, what it appends satisfies [P],
    and what it returns satisfies [Q]. *)
Definition emits {A} (P : Event → Prop) (Q : A → Prop) (m : M A) : Prop :=
  ∀ w, (∃ events, trace (m w).2 = trace w ++ events ∧ Forall P events)
       ∧ (∀ a, (m w).1 = inr a → Q a).

(** From [w] to [w'] events were appended, none of them the commit of a
    transaction other than a setup transaction. *)
Definition setup_only_between (w w' : World) : Prop :=
  ∃ events, trace w' = trace w ++ events ∧ Forall setup_only events.



(** Whatever else a computation does, the first thing it appends to the
    trace is [e]. *)
Definition starts_with {A} (e : Event) (m : M A) : Prop :=
  ∀ w, ∃ rest, trace (m w).2 = trace w ++ e :: rest.



(** A Postgres state set up for the cluster by the running version, with
    the given node identifier. *)
Definition configured `{Runtime} (cluster : Cluster) (db : Postgres)
  (node_id : string) : Prop :=
  "pgq" ∈ extensions db
  ∧ "plpythonu" ∈ languages db
  ∧ cluster_schema cluster ∈ schemas db
  ∧ (∃ rows, configuration db !! cluster_schema cluster = Some rows
             ∧ rows !! "version" = Some __version__
             ∧ rows !! "node_id" = Some node_id)
  ∧ functions db !! cluster_schema cluster = Some (__version__, log_trigger_body).

(** *** A concrete installation *)

Definition demo : Runtime :=
  {| __version__ := "0.2";
     uuid1 := λ n, String (ascii_of_nat (48 + n)) "-uuid";
     randint := λ n, Z.of_nat n;
     pickle_dumps := λ l, String.concat "," l;
     md5_hexdigest := λ s, ("md5:" ++ s)%string;
     SerializeToString := λ c, String.concat ";" (map dsn (databases c));
     log_trigger_body := "log_trigger.py";
     parse_version_gt := λ a b, negb (bool_decide (a = b)) |}.

Definition c : Cluster := {| cluster_name := "c"; cluster_schema := "c" |}.

Definition orders : ReplicationSetConfiguration :=
  {| databases := [ {| dsn := "d1" |} ];
     tables := [ {| table_schema := "public"; table_name := "orders";
                    primary_keys := ["id"]; columns := ["total"; "id"] |} ] |}.

(** An initialized cluster at the running version; [d1] leads to a fresh
    Postgres instance, [d2] to an instance configured by version 0.1, [d3]
    and [d3-replica] to one instance configured by the running version,
    [d4] to another. *)
Definition configured_by (version node_id : string) : Postgres :=
  {| extensions := {["pgq"]}; languages := {["plpythonu"]}; schemas := {["c"]};
     configuration := {[ "c" := {[ "version" := version; "node_id" := node_id ]} ]};
     functions := {[ "c" := (version, "log_trigger.py") ]};
     queues := ∅; triggers := ∅ |}.

Definition world_0 : World :=
  {| servers := {[ "d1" := "s1"; "d2" := "s2"; "d3" := "s3";
                   "d3-replica" := "s3"; "d4" := "s4" ]};
     committed := {[ "s2" := configured_by "0.1" "node-2";
                     "s3" := configured_by "0.2" "node-3";
                     "s4" := configured_by "0.2" "node-4" ]};
     connections := [];
     advisory_locks := ∅;
     zookeeper := {| cluster_node := Some ({| version := "0.2" |}, 0%Z);
                     sets_node := Some 0%Z; set_nodes := ∅ |};
     entropy := 0;
     trace := [] |}.

(** The same world with a connection to [d1] already open. *)
Definition world_1 : World :=
  set_connections
    [ {| connection_dsn := "d1"; connection_server := "s1"; pending := None |} ]
    world_0.

(** *** Vocabulary and worlds for further properties *)

(** The string holds an [@]. *)
Fixpoint has_at_sign (value : string) : bool :=
  match value with
  | EmptyString => false
  | String a rest => Ascii.eqb a "@"%char || has_at_sign rest
  end.

(** [name@version], or the bare name. *)
Definition qualified (s : VersionedSet) : string :=
  match set_version s with
  | Some version => (set_name s ++ "@" ++ version)%string
  | None => set_name s
  end.

(** What [validate_set_configuration] asks of a configuration. *)
Definition valid (configuration : ReplicationSetConfiguration) : Prop :=
  databases configuration ≠ []
  ∧ NoDup (map dsn (databases configuration))
  ∧ Forall (λ table, primary_keys table ≠ []) (tables configuration).

(** The loop of [validate_set_configuration] over the databases, from a set
    of DSNs already seen. *)
Definition seen_loop (databases : list DatabaseConfiguration) (dsns : gset string)
  : M (gset string) :=
  for_each databases
    (λ database (dsns : gset string),
       assert (bool_decide (dsn database ∉ dsns))
         (duplicate_databases_not_allowed (dsn database));;;
       ret ({[dsn database]} ∪ dsns))
    dsns.

(** The loop of [validate_set_configuration] over the tables. *)
Definition keys_loop (tables : list TableConfiguration) : M unit :=
  for_each tables
    (λ table _,
       assert (0 <? length (primary_keys table))%nat
         (table_must_have_primary_keys (table_schema table) (table_name table)))
    tt.

(** The reads [fetch_sets] sends for the names it is given. *)
Definition reads (names : list string) : list Event :=
  map (λ value, store_read (set_path (set_name (expand value)))) names.

(** What [fetch_sets] answers for a requested name: the set of that name as
    ZooKeeper holds it, of the version asked for when one was given. *)
Definition fetched `{Runtime} (z : ZooKeeper) (value : string)
  (result : string * (ReplicationSetConfiguration * Z)) : Prop :=
  result.1 = set_name (expand value)
  ∧ set_nodes z !! set_name (expand value) = Some result.2
  ∧ ∀ version, set_version (expand value) = Some version →
               version = get_version result.2.1.

(** Why [fetch_sets] fails on a requested name. *)
Definition refused `{Runtime} (z : ZooKeeper) (value : string) (e : Exception)
  : Prop :=
  (set_nodes z !! set_name (expand value) = None ∧ e = NoNodeError)
  ∨ ∃ version configuration revision,
      set_version (expand value) = Some version
      ∧ set_nodes z !! set_name (expand value) = Some (configuration, revision)
      ∧ version ≠ get_version configuration
      ∧ e = AssertionError
              (set_versions_do_not_match version (get_version configuration)).

(** The loop of [fetch_sets] that waits for the answers to its requests. *)
Definition answers_loop `{Runtime} (requests : list (VersionedSet * string))
  (results : list (string * (ReplicationSetConfiguration * Z)))
  : M (list (string * (ReplicationSetConfiguration * Z))) :=
  for_each requests
    (λ '(s, future) results,
       let* (configuration, stat) := future_get future in
       match set_version s with
       | None => ret tt
       | Some version =>
           assert (bool_decide (version = get_version configuration))
             (set_versions_do_not_match version (get_version configuration))
       end;;;
       ret (results ++ [(set_name s, (configuration, stat))]))
    results.

(** What [get_managed_databases] does before it turns to the DSNs: it
    reads the cluster node when the versions are to be compared, and opens
    a ZooKeeper transaction. *)
Definition prologue (same_version : bool) : list Event :=
  (if same_version then [store_read cluster_path] else [])
    ++ [store_transaction_started].

(** The cluster node holds the running version. *)
Definition cluster_at_running_version `{Runtime} (w : World) : Prop :=
  ∃ revision,
    cluster_node (zookeeper w) = Some ({| version := __version__ |}, revision).

(** The world after the prologue. *)
Definition started (same_version : bool) (w : World) : World :=
  set_entropy (S (entropy w)) (set_trace (trace w ++ prologue same_version) w).

(** The rows of [<schema>.configuration] in a database; none when the table
    does not exist. *)
Definition rows_of (cluster : Cluster) (db : Postgres) : gmap string string :=
  default ∅ (configuration db !! cluster_schema cluster).

(** A database with its triggers replaced. *)
Definition set_triggers (t : gmap (string * string * string) Trigger)
  (db : Postgres) : Postgres :=
  {| extensions := extensions db; languages := languages db;
     schemas := schemas db; configuration := configuration db;
     functions := functions db; queues := queues db; triggers := t |}.

(** A database with its queues replaced. *)
Definition set_queues (q : gset string) (db : Postgres) : Postgres :=
  {| extensions := extensions db; languages := languages db;
     schemas := schemas db; configuration := configuration db;
     functions := functions db; queues := q; triggers := triggers db |}.

(** The trigger of a set on a table, as Postgres names it. *)
Definition trigger_on (cluster : Cluster) (name : string)
  (table : string * string) : string * string * string :=
  (get_trigger_name cluster name, table.1, table.2).

(** A table as [configure_set] compares tables: by schema and name. *)
Definition table_key (table : TableConfiguration) : string * string :=
  (table_schema table, table_name table).

(** The log trigger [setup_triggers] creates for a table of a set. *)
Definition log_trigger `{Runtime} (cluster : Cluster) (name : string)
  (configuration : ReplicationSetConfiguration) (table : TableConfiguration)
  : Trigger :=
  let primary_keys := Utilities.unique (primary_keys table) in
  let columns := Utilities.unique (primary_keys ++ columns table) in
  {| trigger_columns := columns;
     trigger_arguments :=
       (get_queue_name cluster name, pickle_dumps primary_keys,
        pickle_dumps columns, get_version configuration) |}.

(** The triggers of a database once the log triggers of the tables have
    been installed, one table after the other. *)
Definition installed `{Runtime} (cluster : Cluster) (name : string)
  (configuration : ReplicationSetConfiguration)
  (tables : list TableConfiguration)
  (triggers : gmap (string * string * string) Trigger)
  : gmap (string * string * string) Trigger :=
  foldl (λ triggers table,
           <[trigger_on cluster name (table_key table)
               := log_trigger cluster name configuration table]> triggers)
        triggers tables.

(** The triggers of a database once the triggers of a set on the given
    tables have been dropped. *)
Definition dropped (cluster : Cluster) (name : string)
  (tables : list (string * string))
  (triggers : gmap (string * string * string) Trigger)
  : gmap (string * string * string) Trigger :=
  foldl (λ triggers table, delete (trigger_on cluster name table) triggers)
        triggers tables.

(** The loop of [configure_set] and of [unconfigure_set] that drops the
    triggers of a set on a list of tables. *)
Definition drop_loop (cluster : Cluster) (cursor : nat) (name : string)
  (keys : list (string * string)) : M unit :=
  for_each keys
    (λ '(schema, table) _, drop_trigger cluster cursor name schema table) tt.

(** What a database holds once a set has been configured on it. *)
Definition with_set `{Runtime} (cluster : Cluster) (name : string)
  (configuration : ReplicationSetConfiguration) (db : Postgres) : Postgres :=
  set_triggers
    (installed cluster name configuration (tables configuration) (triggers db))
    (set_queues ({[get_queue_name cluster name]} ∪ queues db) db).

(** What a database holds once a set has been removed from it. *)
Definition without_set (cluster : Cluster) (name : string)
  (configuration : ReplicationSetConfiguration) (db : Postgres) : Postgres :=
  set_triggers
    (dropped cluster name (map table_key (tables configuration)) (triggers db))
    (set_queues (queues db ∖ {[get_queue_name cluster name]}) db).

(** The world after [get_managed_databases] has probed the one DSN it was
    given and found a node set up by the running version: a connection is
    open, with no transaction left open on it. *)
Definition probed (cluster : Cluster) (same_version : bool) (dsn server : string)
  (w : World) : World :=
  let connection := length (connections w) in
  set_trace
    (trace (started same_version w)
       ++ [ connected dsn connection;
            executed connection
              (select_configuration (cluster_schema cluster) "node_id");
            executed connection
              (select_configuration (cluster_schema cluster) "version");
            connection_committed connection ])
    (set_connections
       (connections w
          ++ [{| connection_dsn := dsn; connection_server := server;
                 pending := None |}])
       (started same_version w)).

(** A DSN leads to a node set up by the running version. *)
Definition set_up `{Runtime} (cluster : Cluster) (w : World) (dsn server : string)
  : Prop :=
  servers w !! dsn = Some server
  ∧ ∃ rows,
      configuration (instance w server) !! cluster_schema cluster = Some rows
      ∧ is_Some (rows !! "node_id")
      ∧ rows !! "version" = Some __version__.

(** What running statements on connections leaves in place: where DSNs
    lead, what is committed, ZooKeeper, the advisory locks, and which
    instance each connection is a session of. *)
Definition in_place (w w' : World) : Prop :=
  servers w' = servers w
  ∧ committed w' = committed w
  ∧ zookeeper w' = zookeeper w
  ∧ advisory_locks w' = advisory_locks w
  ∧ map connection_server (connections w')
    = map connection_server (connections w).

(** A computation that does no more than run statements. *)
Definition statements_only {A} (m : M A) : Prop :=
  ∀ w, in_place w (m w).2.

(** The world in which [get_managed_databases] has found the node behind a
    DSN without the configuration table and has asked for the advisory
    lock on a fresh connection. *)
Definition asked (cluster : Cluster) (lock_id : Z) (dsn server : string)
  (w : World) : World :=
  let connection := length (connections w) in
  let t := {| transaction_connection := connection;
              transaction_name := "setup-database" |} in
  set_trace
    (trace w
       ++ [ connected dsn connection;
            executed connection
              (select_configuration (cluster_schema cluster) "node_id");
            connection_rolled_back connection;
            transaction_began t;
            executed connection (select_pg_try_advisory_lock lock_id) ])
    (set_connections
       (connections w
          ++ [{| connection_dsn := dsn; connection_server := server;
                 pending := Some (instance w server) |}]) w).

(** [orders] with a table that has no primary key. *)
Definition no_keys : ReplicationSetConfiguration :=
  {| databases := [ {| dsn := "d1" |} ];
     tables := [ {| table_schema := "public"; table_name := "orders";
                    primary_keys := []; columns := ["total"] |} ] |}.

(** [world_0] once the set [orders] has been created. *)
Definition world_2 : World :=
  set_zookeeper
    {| cluster_node := Some ({| version := "0.2" |}, 0%Z);
       sets_node := Some 0%Z;
       set_nodes := {[ "orders" := (orders, 0%Z) ]} |}
    world_0.

(** Nothing has been initialized: no cluster node in ZooKeeper. *)
Definition world_blank : World :=
  {| servers := ∅; committed := ∅; connections := []; advisory_locks := ∅;
     zookeeper := {| cluster_node := None; sets_node := None; set_nodes := ∅ |};
     entropy := 0; trace := [] |}.




(** [orders] on the database [d3], a node set up by the running version. *)
Definition orders_3 : ReplicationSetConfiguration :=
  {| databases := [ {| dsn := "d3" |} ]; tables := tables orders |}.

(** [world_0] once [orders_3] has been created under the name [orders]. *)
Definition world_4 : World :=
  (@create_set demo c "orders" orders_3 world_0).2.

End Administration.

(** * Properties *)

(** ** Batches *)

Module BatchesTheory.

Import Batches.

Section Groupby.

Context {A K : Type} `{EqDecision K} (key : A → K).

Lemma groupby_cons x rest :
  groupby key (x :: rest) =
    match groupby key rest with
    | (k, g) :: groups =>
        if decide (key x = k) then (k, x :: g) :: groups
        else (key x, [x]) :: (k, g) :: groups
    | [] => [(key x, [x])]
    end.
Proof. reflexivity. Qed.

(** The groups, laid end to end, are the input. *)
Lemma groupby_concat l : concat (map snd (groupby key l)) = l.
Proof.
  induction l as [|x rest IH]; [done|].
  rewrite groupby_cons.
  destruct (groupby key rest) as [|[k g] groups]; simpl in *.
  - by subst rest.
  - case_decide; simpl; by rewrite <- IH.
Qed.



End Groupby.







Lemma mutations_app l1 l2 : mutations (l1 ++ l2) = mutations l1 ++ mutations l2.
Proof. unfold mutations. apply omap_app. Qed.

Lemma mutations_concat (groups : list (list Message)) :
  mutations (concat groups) = concat (map mutations groups).
Proof.
  induction groups as [|g groups IH]; [done|].
  simpl. by rewrite mutations_app, IH.
Qed.


Lemma batched_yielded trace :
  yielded (batched trace)
  = concat (map (λ g, (make_mutation_iterator (map snd g.2)).1)
                (groupby key trace)).
Proof.
  unfold yielded, batched. rewrite map_map. f_equal.
  apply map_ext. by intros [[p b] items].
Qed.





(** *** Further properties of [batched] *)

(** The iterator of a group yields a prefix of the group's mutations. *)
Lemma make_mutation_iterator_prefix items :
  (make_mutation_iterator items).1 `prefix_of` mutations items.
Proof.
  unfold mutations.
  induction items as [|m rest IH]; simpl; [done|].
  unfold mutation_of.
  destruct (operation m) as [b| |]; [|apply prefix_nil..].
  destruct (batch_operation b); simpl; try apply prefix_nil; [exact IH|].
  destruct (make_mutation_iterator rest) as [ys t]. simpl in *.
  by apply prefix_cons.
Qed.

Lemma sublist_concat_map {A B} (f g : A → list B) (l : list A) :
  (∀ x, f x `sublist_of` g x) →
  concat (map f l) `sublist_of` concat (map g l).
Proof.
  intros Hfg. induction l as [|x l IH]; simpl; [done|].
  by apply sublist_app.
Qed.

Lemma prefix_is_sublist {A} (l1 l2 : list A) :
  l1 `prefix_of` l2 → l1 `sublist_of` l2.
Proof. intros [k ->]. by apply sublist_inserts_r. Qed.

(** X1.  Whatever the input, validated or not, [batched] only passes on
    mutations of the stream, in their order: what the iterators of all the
    batches yield is a sublist of the [Mutation] operations of the input,
    and each iterator yields a prefix of the mutations of its own group,
    under the batch identifier of that group. *)
Theorem batched_yields_sublist (trace : list (State * Message)) :
  yielded (batched trace) `sublist_of` mutations (map snd trace)
  ∧ Forall2 (λ group batch,
               batch.1 = group.1.2
               ∧ batch.2.1 `prefix_of` mutations (map snd group.2))
            (groupby key trace) (batched trace).
Proof.
  split.
  - rewrite batched_yielded.
    rewrite <- (groupby_concat key trace) at 2.
    rewrite concat_map, mutations_concat, !map_map.
    apply sublist_concat_map. intros g.
    apply prefix_is_sublist, make_mutation_iterator_prefix.
  - unfold batched. apply Forall2_fmap_r, Forall_Forall2_diag, Forall_forall.
    intros [[p b] items] _. simpl. split; [done|].
    apply make_mutation_iterator_prefix.
Qed.

Section GroupbyApp.

Context {A K : Type} `{EqDecision K} (key : A → K).

(** The first group carries the key of the first item. *)
Lemma groupby_head x l :
  ∃ g groups, groupby key (x :: l) = (key x, x :: g) :: groups.
Proof.
  revert x. induction l as [|y l IH]; intros x.
  - by exists [], [].
  - rewrite groupby_cons. destruct (IH y) as (g & groups & ->).
    case_decide as Hk.
    + rewrite <- Hk. by eexists _, _.
    + by eexists _, _.
Qed.

(** Where the key changes, grouping what comes before does not depend on
    what comes after. *)
Lemma groupby_app l1 l2 a b :
  last l1 = Some a → head l2 = Some b → key a ≠ key b →
  groupby key (l1 ++ l2) = groupby key l1 ++ groupby key l2.
Proof.
  intros Hlast Hhead Hk.
  destruct l2 as [|b' l2]; [done|]. injection Hhead as ->.
  induction l1 as [|x l1 IH]; [done|].
  destruct l1 as [|y l1].
  - injection Hlast as ->.
    change (([a] ++ b :: l2)) with (a :: b :: l2).
    rewrite (groupby_cons key a (b :: l2)).
    destruct (groupby_head b l2) as (g & groups & ->).
    by rewrite decide_False.
  - change (last (x :: y :: l1)) with (last (y :: l1)) in Hlast.
    specialize (IH Hlast).
    change ((x :: y :: l1) ++ b :: l2) with (x :: ((y :: l1) ++ b :: l2)).
    rewrite (groupby_cons key x ((y :: l1) ++ b :: l2)), IH.
    rewrite (groupby_cons key x (y :: l1)).
    destruct (groupby_head y l1) as (g & groups & ->).
    simpl. by case_decide.
Qed.

End GroupbyApp.

(** X3.  Where the (publisher, batch identifier) key changes, the batches of
    a stream do not depend on what follows: the batches of [trace1 ++
    trace2] are those of [trace1] followed by those of [trace2]. *)
Theorem batched_app (trace1 trace2 : list (State * Message)) a b :
  last trace1 = Some a → head trace2 = Some b → key a ≠ key b →
  batched (trace1 ++ trace2) = batched trace1 ++ batched trace2.
Proof.
  intros Hlast Hhead Hk. unfold batched.
  by rewrite (groupby_app key _ _ a b), map_app.
Qed.

Lemma batched_app_witness :
  batched (committed_trace ++ second_trace)
  = batched committed_trace ++ batched second_trace.
Proof.
  apply (batched_app committed_trace second_trace
           (Committed "A" batch_1, message_of "A" batch_1 CommitOperation)
           (InTransaction "A" batch_2, message_of "A" batch_2 BeginOperation)).
  - reflexivity.
  - reflexivity.
  - vm_compute. discriminate.
Defined.

End BatchesTheory.

(** ** Utilities *)

Module UtilitiesTheory.

Import Utilities.

Section Unique.

Context {A : Type} `{EqDecision A}.

Implicit Types result sequence l : list A.

Lemma unique_from_app result l1 l2 :
  unique_from result (l1 ++ l2) = unique_from (unique_from result l1) l2.
Proof.
  revert result. induction l1 as [|x l1 IH]; intros result; simpl; [done|].
  case_decide; apply IH.
Qed.

(** The result so far stays in front, and what is appended are the items
    not seen before, each at its first occurrence. *)
Lemma unique_from_first_seen result l :
  unique_from result l = result ++ filter (λ y, y ∉ result) (unique l).
Proof.
  unfold unique. revert result.
  induction l as [|x l IH]; intros result.
  - simpl. by rewrite app_nil_r.
  - assert (Hhead : unique_from [] (x :: l)
                    = x :: filter (λ y, y ∉ [x]) (unique_from [] l)).
    { change (unique_from [] (x :: l)) with (unique_from [x] l).
      by rewrite (IH [x]). }
    rewrite Hhead.
    change (unique_from result (x :: l))
      with (if decide (x ∈ result) then unique_from result l
            else unique_from (result ++ [x]) l).
    case_decide as Hx.
    + rewrite IH, filter_cons_False by (by intros ?).
      f_equal. rewrite list_filter_filter. apply list_filter_iff.
      intros y. rewrite list_elem_of_singleton. split; [|tauto].
      intros Hy. split; [done|]. by intros ->.
    + rewrite IH, filter_cons_True by done.
      rewrite <- app_assoc. simpl. do 2 f_equal.
      rewrite list_filter_filter. apply list_filter_iff.
      intros y. rewrite elem_of_app, !list_elem_of_singleton. tauto.
Qed.

(** First-seen order: the head stays first, later copies of it go. *)
Lemma unique_cons x l :
  unique (x :: l) = x :: filter (λ y, y ≠ x) (unique l).
Proof.
  unfold unique at 1.
  change (unique_from [] (x :: l)) with (unique_from [x] l).
  rewrite unique_from_first_seen. simpl. f_equal.
  apply list_filter_iff. intros y. by rewrite list_elem_of_singleton.
Qed.

Lemma elem_of_unique x l : x ∈ unique l ↔ x ∈ l.
Proof.
  induction l as [|y l IH]; [done|].
  rewrite unique_cons, !elem_of_cons, list_elem_of_filter, IH.
  destruct (decide (x = y)); tauto.
Qed.

Lemma NoDup_unique l : NoDup (unique l).
Proof.
  induction l as [|x l IH]; [constructor|].
  rewrite unique_cons. constructor.
  - rewrite list_elem_of_filter. tauto.
  - by apply NoDup_filter.
Qed.

Lemma filter_other x l : x ∉ l → filter (λ y, y ≠ x) l = l.
Proof.
  induction l as [|y l IH]; [done|].
  rewrite not_elem_of_cons. intros [Hxy Hx].
  rewrite filter_cons_True by done. by rewrite IH.
Qed.

Lemma unique_NoDup l : NoDup l → unique l = l.
Proof.
  induction 1 as [|x l Hx _ IH]; [done|].
  by rewrite unique_cons, IH, filter_other.
Qed.

Lemma unique_app l1 l2 : unique (l1 ++ l2) = unique_from (unique l1) l2.
Proof. unfold unique. apply unique_from_app. Qed.

(** Deduplicating the first part beforehand changes nothing. *)
Lemma unique_unique_app l1 l2 : unique (unique l1 ++ l2) = unique (l1 ++ l2).
Proof.
  rewrite !unique_app. f_equal. apply unique_NoDup, NoDup_unique.
Qed.

End Unique.

End UtilitiesTheory.

(** ** Administration *)

Module AdministrationTheory.

Import Administration.
Local Open Scope admin_scope.

(** *** The monad *)

Lemma bind_inr {A B} (m : M A) (k : A → M B) w a w' :
  m w = (inr a, w') → bind m k w = k a w'.
Proof. unfold bind. by intros ->. Qed.

Lemma bind_inl {A B} (m : M A) (k : A → M B) w e w' :
  m w = (inl e, w') → bind m k w = (inl e, w').
Proof. unfold bind. by intros ->. Qed.

Lemma for_each_cons {A S} (x : A) xs (body : A → S → M S) s :
  for_each (x :: xs) body s = (let* s := body x s in for_each xs body s).
Proof. reflexivity. Qed.

(** A sequence that succeeds has succeeded in its first part. *)
Lemma bind_success {A B} (m : M A) (k : A → M B) w b w' :
  bind m k w = (inr b, w') →
  ∃ a w1, m w = (inr a, w1) ∧ k a w1 = (inr b, w').
Proof.
  unfold bind. destruct (m w) as [[e|a] w1]; [done|]. eauto.
Qed.

(** *** Sessions *)

Lemma view_in_session cursor db events w :
  cursor < length (connections w) →
  view (in_session cursor db events w) cursor = Some db.
Proof.
  intros Hc. unfold view, in_session. simpl.
  destruct (lookup_lt_is_Some_2 _ _ Hc) as [conn Hconn].
  rewrite list_lookup_alter_eq, Hconn. done.
Qed.

Lemma view_valid w cursor db :
  view w cursor = Some db → cursor < length (connections w).
Proof.
  unfold view. destruct (connections w !! cursor) eqn:E; [|done].
  intros _. by eapply lookup_lt_Some.
Qed.

Lemma in_session_in_session cursor db1 db2 events1 events2 w :
  in_session cursor db2 events2 (in_session cursor db1 events1 w)
  = in_session cursor db2 (events1 ++ events2) w.
Proof.
  unfold in_session, set_connections, set_trace. simpl.
  rewrite <- app_assoc. f_equal.
  rewrite list_alter_alter_eq. by apply list_alter_ext.
Qed.

(** A statement that applies to what the cursor sees leaves its effect in
    the session. *)
Lemma execute_in_session cursor s w db db' :
  view w cursor = Some db →
  apply_statement s db = inr db' →
  execute cursor s w = (inr tt, in_session cursor db' [executed cursor s] w).
Proof.
  unfold view, execute. intros Hv Hs.
  destruct (connections w !! cursor) as [conn|] eqn:Hconn; [|done].
  simpl in Hv. injection Hv as Hv.
  change (instance (set_trace _ w)) with (instance w).
  rewrite Hv, Hs. unfold in_session. do 2 f_equal.
  apply list_eq. intros i. destruct (decide (i = cursor)) as [->|Hi].
  - rewrite list_lookup_alter_eq, Hconn.
    rewrite list_lookup_insert_eq; [done|]. by eapply lookup_lt_Some.
  - by rewrite list_lookup_alter_ne, list_lookup_insert_ne.
Qed.

Lemma committed_in_session cursor db events w :
  committed (in_session cursor db events w) = committed w.
Proof. reflexivity. Qed.

Lemma entropy_in_session cursor db events w :
  entropy (in_session cursor db events w) = entropy w.
Proof. reflexivity. Qed.

Lemma trace_in_session cursor db events w :
  trace (in_session cursor db events w) = trace w ++ events.
Proof. reflexivity. Qed.

(** The same, keeping only what later steps look at. *)
Lemma execute_ok cursor s w db db' :
  view w cursor = Some db →
  apply_statement s db = inr db' →
  ∃ w', execute cursor s w = (inr tt, w')
        ∧ view w' cursor = Some db'
        ∧ committed w' = committed w
        ∧ entropy w' = entropy w
        ∧ trace w' = trace w ++ [executed cursor s].
Proof.
  intros Hv Hs. eexists. split; [by eapply execute_in_session|].
  split; [|done]. apply view_in_session. by eapply view_valid.
Qed.



(** *** What a computation appends to the trace *)

Section Emits.

Context (P : Event → Prop).

Lemma emits_ret {A} (Q : A → Prop) a : Q a → emits P Q (ret a).
Proof.
  intros HQ w. split.
  - exists []. by rewrite app_nil_r.
  - by intros ? [= <-].
Qed.

Lemma emits_raise {A} (Q : A → Prop) e : emits P Q (raise e).
Proof.
  intros w. split; [|done]. exists []. by rewrite app_nil_r.
Qed.

Lemma emits_bind {A B} (Q1 : A → Prop) (Q : B → Prop) (m : M A) (k : A → M B) :
  emits P Q1 m → (∀ a, Q1 a → emits P Q (k a)) → emits P Q (bind m k).
Proof.
  intros Hm Hk w. unfold bind.
  destruct (Hm w) as [(events & Ht & HP) HQ1].
  destruct (m w) as [[e|a] w1]; simpl in *.
  - split; [by exists events | done].
  - destruct (Hk a (HQ1 a eq_refl) w1) as [(events' & Ht' & HP') HQ].
    split; [|exact HQ].
    exists (events ++ events'). rewrite Ht', Ht, <- app_assoc.
    split; [done | by apply Forall_app].
Qed.

Lemma emits_weaken {A} (Q1 Q : A → Prop) (m : M A) :
  emits P Q1 m → (∀ a, Q1 a → Q a) → emits P Q m.
Proof.
  intros Hm HQ w. destruct (Hm w) as [Ht HQ1]. split; [done|].
  intros a Ha. by apply HQ, HQ1.
Qed.

Lemma emits_try {A} (Q : A → Prop) (m : M A) :
  emits P Q m →
  emits P (λ r, match r with inr a => Q a | inl _ => True end) (try m).
Proof.
  intros Hm w. unfold try. destruct (Hm w) as [Ht HQ].
  destruct (m w) as [r w1]; simpl in *. split; [done|].
  intros a [= <-]. destruct r; [done | by apply HQ].
Qed.

Lemma emits_assert b a : emits P (λ _, True) (assert b a).
Proof. destruct b; [by apply emits_ret | apply emits_raise]. Qed.

Lemma emits_get_world : emits P (λ _, True) get_world.
Proof.
  intros w. split; [|done]. exists []. by rewrite app_nil_r.
Qed.

Lemma emits_log e : P e → emits P (λ _, True) (log e).
Proof.
  intros He w. split; [|done]. exists [e]. split; [done | by constructor].
Qed.

Lemma emits_for_each {A S} (I : S → Prop) (xs : list A) (body : A → S → M S) s :
  I s → (∀ x s, I s → emits P I (body x s)) → emits P I (for_each xs body s).
Proof.
  intros Hs Hbody. revert s Hs. induction xs as [|x xs IH]; intros s Hs; simpl.
  - by apply emits_ret.
  - eapply emits_bind; [by apply Hbody | apply IH].
Qed.

Lemma emits_connect dsn :
  (∀ c, P (connected dsn c)) → P (connection_refused dsn) →
  emits P (λ _, True) (connect dsn).
Proof.
  intros Hc Hr w. unfold connect. split; [|done].
  destruct (servers w !! dsn); simpl; eexists; (split; [done|]); by constructor.
Qed.

Lemma emits_execute cursor s :
  P (executed cursor s) → emits P (λ _, True) (execute cursor s).
Proof.
  intros He w. unfold execute. split; [|done].
  destruct (connections w !! cursor).
  - destruct (apply_statement _ _); simpl;
      exists [executed cursor s]; (split; [done|]); by constructor.
  - exists []. by rewrite app_nil_r.
Qed.

Lemma emits_end_transaction keep cursor e :
  P e → emits P (λ _, True) (end_transaction keep cursor e).
Proof.
  intros He w. unfold end_transaction. split; [|done].
  destruct (connections w !! cursor) as [conn|].
  - exists [e]. split; [|by constructor]. by destruct (pending conn), keep.
  - exists []. by rewrite app_nil_r.
Qed.

Lemma emits_take_advisory_lock cursor lock_id :
  emits P (λ _, True) (take_advisory_lock cursor lock_id).
Proof.
  intros w. unfold take_advisory_lock. split; [|done].
  exists []. rewrite app_nil_r.
  destruct (connections w !! cursor); [|done].
  by destruct (advisory_locks w !! _).
Qed.

End Emits.

Lemma emits_mono {A} (P P' : Event → Prop) (Q : A → Prop) (m : M A) :
  (∀ e, P e → P' e) → emits P Q m → emits P' Q m.
Proof.
  intros HP Hm w. destruct (Hm w) as [(events & Ht & Hall) HQ].
  split; [|done]. exists events. split; [done|].
  eapply Forall_impl; [exact Hall | exact HP].
Qed.



Lemma emits_commit (P : Event → Prop) ztransaction :
  P (store_committed ztransaction) → P (store_commit_failed ztransaction) →
  emits P (λ _, True) (commit ztransaction).
Proof.
  intros Hc Hf w. unfold commit. split; [|done].
  destruct (apply_operations _ _); simpl; eexists; (split; [done|]);
    by constructor.
Qed.

Lemma emits_managed {A} (P : Event → Prop) (Q : A → Prop) transactions
  (body : M A) :
  (∀ t, t ∈ transactions → P (transaction_committed t)) →
  (∀ t, t ∈ transactions → P (transaction_rolled_back t)) →
  emits P Q body →
  emits P (λ _, True) (managed transactions body).
Proof.
  intros Hc Hr Hbody. unfold managed.
  eapply (emits_bind _ (λ _, True)).
  { eapply emits_weaken; [by apply emits_try | done]. }
  assert (Hends : ∀ keep (event : Transaction → Event),
            (∀ t, t ∈ transactions → P (event t)) →
            emits P (λ _, True)
              (for_each transactions
                 (λ t (_ : unit),
                    end_transaction keep (transaction_connection t) (event t))
                 tt)).
  { intros keep event Hevent.
    induction transactions as [|t transactions IH]; [by apply emits_ret|].
    rewrite for_each_cons. eapply (emits_bind _ (λ _, True)).
    - apply emits_end_transaction, Hevent. by left.
    - intros [] _. apply IH.
      + intros t' Ht'. apply Hc. by right.
      + intros t' Ht'. apply Hr. by right.
      + intros t' Ht'. apply Hevent. by right. }
  intros [error|result] _.
  - eapply (emits_bind _ (λ _, True)); [by apply Hends|].
    intros _ _. apply emits_raise.
  - eapply (emits_bind _ (λ _, True)); [by apply Hends|].
    intros _ _. by apply emits_ret.
Qed.

Lemma starts_with_log e : starts_with e (log e).
Proof. intros w. by exists []. Qed.

Lemma starts_with_bind {A B} e (m : M A) (k : A → M B) :
  starts_with e m →
  (∀ a, emits (λ _, True) (λ _, True) (k a)) →
  starts_with e (bind m k).
Proof.
  intros Hm Hk w. unfold bind. destruct (Hm w) as [rest Ht].
  destruct (m w) as [[error|a] w1]; simpl in *; [by exists rest|].
  destruct (Hk a w1) as [(events & Ht' & _) _].
  exists (rest ++ events). rewrite Ht', Ht, <- app_assoc. done.
Qed.

(** *** Where DSNs lead is never changed *)

Lemma keeps_ret {A} (a : A) : keeps_servers (ret a).
Proof. by intros w. Qed.

Lemma keeps_raise {A} e : keeps_servers (@raise A e).
Proof. by intros w. Qed.

Lemma keeps_bind {A B} (m : M A) (k : A → M B) :
  keeps_servers m → (∀ a, keeps_servers (k a)) → keeps_servers (bind m k).
Proof.
  intros Hm Hk w. unfold bind. specialize (Hm w).
  destruct (m w) as [[e|a] w1]; [done|].
  simpl in Hm. rewrite <- Hm. apply Hk.
Qed.

Lemma keeps_try {A} (m : M A) : keeps_servers m → keeps_servers (try m).
Proof. intros Hm w. unfold try. specialize (Hm w). by destruct (m w). Qed.




Lemma keeps_for_each {A S} (xs : list A) (body : A → S → M S) s :
  (∀ x s, keeps_servers (body x s)) → keeps_servers (for_each xs body s).
Proof.
  intros Hbody. revert s. induction xs as [|x xs IH]; intros s; simpl.
  - apply keeps_ret.
  - apply keeps_bind; [apply Hbody | apply IH].
Qed.



Lemma keeps_end_transaction keep cursor e :
  keeps_servers (end_transaction keep cursor e).
Proof.
  intros w. unfold end_transaction.
  destruct (connections w !! cursor) as [conn|]; [|done].
  by destruct (pending conn), keep.
Qed.


Lemma keeps_commit ztransaction : keeps_servers (commit ztransaction).
Proof. intros w. unfold commit. by destruct (apply_operations _ _). Qed.

Lemma keeps_managed {A} transactions (body : M A) :
  keeps_servers body → keeps_servers (managed transactions body).
Proof.
  intros Hbody. unfold managed. apply keeps_bind; [by apply keeps_try|].
  intros [e|a]; (apply keeps_bind; [|intros; first [apply keeps_raise | apply keeps_ret]]);
    apply keeps_for_each; intros; apply keeps_end_transaction.
Qed.






Section WithRuntime.

Context `{Runtime}.






Lemma get_configuration_value_ok cluster cursor key w db rows :
  view w cursor = Some db →
  configuration db !! cluster_schema cluster = Some rows →
  ∃ w', get_configuration_value cluster cursor key w = (inr (rows !! key), w')
        ∧ view w' cursor = Some db
        ∧ committed w' = committed w
        ∧ entropy w' = entropy w
        ∧ trace w' = trace w
                     ++ [executed cursor
                           (select_configuration (cluster_schema cluster) key)].
Proof.
  intros Hv Hrows.
  destruct (execute_ok cursor
              (select_configuration (cluster_schema cluster) key) w db db Hv)
    as (w' & Hexec & Hv' & Hrest).
  { simpl. by rewrite Hrows. }
  exists w'. split; [|done].
  unfold get_configuration_value. rewrite (bind_inr _ _ _ _ _ Hexec).
  unfold bind, get_world, ret. rewrite Hv'. simpl. by rewrite Hrows.
Qed.

(** *** C8 *)

(** C8.  [create_set] with the same DSN listed twice is refused by
    [validate_set_configuration] ('duplicate databases not allowed'), the
    duplicate-node rejection of the specification; the world is left as it
    was: nothing is written to ZooKeeper, no connection is opened and no
    statement reaches a database. *)
Theorem create_set_duplicate_dsn cluster name d1 tables w :
  let configuration :=
    {| databases := [ {| dsn := d1 |}; {| dsn := d1 |} ]; tables := tables |} in
  create_set cluster name configuration w
  = (inl (AssertionError (duplicate_databases_not_allowed d1)), w)
  ∧ kind (AssertionError (duplicate_databases_not_allowed d1)) = Some DuplicateNode.
Proof.
  split; [|done].
  unfold create_set, validate_set_configuration. simpl.
  unfold bind at 1. unfold bind at 1. unfold bind at 1. simpl.
  unfold bind at 1. unfold bind at 1. simpl.
  rewrite bool_decide_eq_true_2 by set_solver. simpl.
  unfold bind at 1. unfold bind at 1. simpl.
  rewrite bool_decide_eq_false_2 by set_solver. done.
Qed.

(** *** C4 *)

(** Statements that find their object in place change nothing. *)
Lemma create_extension_present name db :
  name ∈ extensions db →
  apply_statement (create_extension_if_not_exists name) db = inr db.
Proof.
  intros Hin. destruct db. simpl in *. do 2 f_equal.
  by apply subseteq_union_1_L, singleton_subseteq_l.
Qed.

Lemma create_language_present name db :
  name ∈ languages db →
  apply_statement (create_or_replace_language name) db = inr db.
Proof.
  intros Hin. destruct db. simpl in *. do 2 f_equal.
  by apply subseteq_union_1_L, singleton_subseteq_l.
Qed.

Lemma create_schema_present schema db :
  schema ∈ schemas db →
  apply_statement (create_schema_if_not_exists schema) db = inr db.
Proof.
  intros Hin. destruct db. simpl in *. do 2 f_equal.
  by apply subseteq_union_1_L, singleton_subseteq_l.
Qed.

Lemma create_table_present schema db rows :
  configuration db !! schema = Some rows →
  apply_statement (create_table_if_not_exists_configuration schema) db = inr db.
Proof.
  intros Hrows. destruct db. simpl in *. by rewrite Hrows.
Qed.

Lemma create_function_present schema generated_by body db :
  functions db !! schema = Some (generated_by, body) →
  apply_statement (create_or_replace_function_log schema generated_by body) db
  = inr db.
Proof.
  intros Hf. destruct db. simpl in *. do 2 f_equal. by apply insert_id.
Qed.

(** On a node that is set up, [setup_database] returns the stored node
    identifier and leaves what the cursor sees as it is; no UUID is drawn. *)
Lemma setup_database_configured cluster cursor w db node_id :
  view w cursor = Some db →
  configured cluster db node_id →
  ∃ w', setup_database cluster cursor w = (inr node_id, w')
        ∧ view w' cursor = Some db
        ∧ committed w' = committed w
        ∧ entropy w' = entropy w.
Proof.
  intros Hv (Hext & Hlang & Hschema & (rows & Hrows & Hversion & Hnode) & Hf).
  unfold setup_database.
  edestruct (execute_ok cursor (create_extension_if_not_exists "pgq"))
    as (w1 & -> %bind_inr & Hv1 & Hc1 & He1 & _);
    [exact Hv | by apply create_extension_present |].
  edestruct (execute_ok cursor (create_or_replace_language "plpythonu"))
    as (w2 & E2 & Hv2 & Hc2 & He2 & _);
    [exact Hv1 | by apply create_language_present |].
  rewrite (bind_inr _ _ _ _ _ E2).
  edestruct (execute_ok cursor (create_schema_if_not_exists (cluster_schema cluster)))
    as (w3 & E3 & Hv3 & Hc3 & He3 & _);
    [exact Hv2 | by apply create_schema_present |].
  rewrite (bind_inr _ _ _ _ _ E3).
  edestruct (execute_ok cursor
               (create_table_if_not_exists_configuration (cluster_schema cluster)))
    as (w4 & E4 & Hv4 & Hc4 & He4 & _);
    [exact Hv3 | by eapply create_table_present |].
  unfold create_configuration_table. rewrite (bind_inr _ _ _ _ _ E4).
  destruct (get_configuration_value_ok cluster cursor "version" w4 db rows Hv4 Hrows)
    as (w5 & E5 & Hv5 & Hc5 & He5 & _).
  rewrite (bind_inr _ _ _ _ _ E5), Hversion.
  rewrite decide_False by (by intros ?).
  unfold ret at 1. unfold bind at 1.
  destruct (get_configuration_value_ok cluster cursor "node_id" w5 db rows Hv5 Hrows)
    as (w6 & E6 & Hv6 & Hc6 & He6 & _).
  unfold get_or_set_node_identifier, get_node_identifier.
  unfold bind at 1. rewrite (bind_inr _ _ _ _ _ E6), Hnode.
  unfold ret at 1.
  edestruct (execute_ok cursor
               (create_or_replace_function_log (cluster_schema cluster)
                  __version__ log_trigger_body))
    as (w7 & E7 & Hv7 & Hc7 & He7 & _);
    [exact Hv6 | by apply create_function_present |].
  unfold create_log_trigger_function. rewrite (bind_inr _ _ _ _ _ E7).
  exists w7. split; [done|]. split; [done|]. split; congruence.
Qed.

(** The last two steps of [setup_database]: the node identifier is read,
    or drawn and stored, and the trigger function is replaced. *)
Lemma setup_database_tail cluster cursor w db rows :
  view w cursor = Some db →
  "pgq" ∈ extensions db →
  "plpythonu" ∈ languages db →
  cluster_schema cluster ∈ schemas db →
  configuration db !! cluster_schema cluster = Some rows →
  rows !! "version" = Some __version__ →
  ∃ w' db' node_id,
    (let* node_id := get_or_set_node_identifier cluster cursor in
     create_log_trigger_function cluster cursor node_id;;;
     ret node_id) w = (inr node_id, w')
    ∧ view w' cursor = Some db'
    ∧ configured cluster db' node_id.
Proof.
  intros Hv Hext Hlang Hschema Hrows Hversion.
  destruct (get_configuration_value_ok cluster cursor "node_id" w db rows Hv Hrows)
    as (w1 & E1 & Hv1 & _).
  unfold get_or_set_node_identifier, get_node_identifier.
  unfold bind at 1. rewrite (bind_inr _ _ _ _ _ E1).
  destruct (rows !! "node_id") as [node_id|] eqn:Hnode.
  - unfold ret at 1. unfold create_log_trigger_function.
    edestruct (execute_ok cursor
                 (create_or_replace_function_log (cluster_schema cluster)
                    __version__ log_trigger_body))
      as (w2 & E2 & Hv2 & _); [exact Hv1 | reflexivity |].
    rewrite (bind_inr _ _ _ _ _ E2).
    eexists _, _, _. split; [reflexivity|]. split; [exact Hv2|].
    repeat split; simpl; try done.
    + exists rows. done.
    + apply lookup_insert_eq.
  - unfold draw_uuid at 1. unfold bind at 1. unfold set_configuration_value.
    edestruct (execute_ok cursor
                 (insert_configuration (cluster_schema cluster) "node_id"
                    (uuid1 (entropy w1))) (set_entropy (S (entropy w1)) w1))
      as (w2 & E2 & Hv2 & _); [exact Hv1 | |].
    { simpl. rewrite Hrows, Hnode. reflexivity. }
    rewrite (bind_inr _ _ _ _ _ E2). unfold ret at 1.
    unfold create_log_trigger_function.
    edestruct (execute_ok cursor
                 (create_or_replace_function_log (cluster_schema cluster)
                    __version__ log_trigger_body))
      as (w3 & E3 & Hv3 & _); [exact Hv2 | reflexivity |].
    rewrite (bind_inr _ _ _ _ _ E3).
    eexists _, _, _. split; [reflexivity|]. split; [exact Hv3|].
    repeat split; simpl; try done.
    + eexists. split; [apply lookup_insert_eq|].
      split; [by rewrite lookup_insert_ne | apply lookup_insert_eq].
    + apply lookup_insert_eq.
Qed.

(** Whatever the node looked like, a connection that exists is enough for
    [setup_database] to succeed, and the node is set up afterwards. *)
Lemma setup_database_configures cluster cursor w db :
  view w cursor = Some db →
  ∃ w' db' node_id,
    setup_database cluster cursor w = (inr node_id, w')
    ∧ view w' cursor = Some db'
    ∧ configured cluster db' node_id.
Proof.
  intros Hv. unfold setup_database.
  edestruct (execute_ok cursor (create_extension_if_not_exists "pgq"))
    as (w1 & E1 & Hv1 & _); [exact Hv | reflexivity |].
  rewrite (bind_inr _ _ _ _ _ E1).
  edestruct (execute_ok cursor (create_or_replace_language "plpythonu"))
    as (w2 & E2 & Hv2 & _); [exact Hv1 | reflexivity |].
  rewrite (bind_inr _ _ _ _ _ E2).
  edestruct (execute_ok cursor (create_schema_if_not_exists (cluster_schema cluster)))
    as (w3 & E3 & Hv3 & _); [exact Hv2 | reflexivity |].
  rewrite (bind_inr _ _ _ _ _ E3).
  edestruct (execute_ok cursor
               (create_table_if_not_exists_configuration (cluster_schema cluster)))
    as (w4 & E4 & Hv4 & _); [exact Hv3 | reflexivity |].
  unfold create_configuration_table. rewrite (bind_inr _ _ _ _ _ E4).
  clear E1 E2 E3 E4 Hv Hv1 Hv2 Hv3.
  match type of Hv4 with view _ _ = Some ?d => set (db4 := d) in * end.
  assert (Hext : "pgq" ∈ extensions db4)
    by (simpl; apply elem_of_union; left; by apply elem_of_singleton).
  assert (Hlang : "plpythonu" ∈ languages db4)
    by (simpl; apply elem_of_union; left; by apply elem_of_singleton).
  assert (Hschema : cluster_schema cluster ∈ schemas db4)
    by (simpl; apply elem_of_union; left; by apply elem_of_singleton).
  assert (∃ rows, configuration db4 !! cluster_schema cluster = Some rows)
    as [rows Hrows].
  { simpl. destruct (configuration db !! cluster_schema cluster) eqn:E;
      [by eexists | eexists; apply lookup_insert_eq]. }
  clearbody db4.
  destruct (get_configuration_value_ok cluster cursor "version" w4 db4 rows Hv4 Hrows)
    as (w5 & E5 & Hv5 & _).
  rewrite (bind_inr _ _ _ _ _ E5).
  destruct (rows !! "version") as [version|] eqn:Hversion.
  - case_decide as Hne.
    + unfold update_configuration_value.
      edestruct (execute_ok cursor
                   (update_configuration (cluster_schema cluster) "version"
                      __version__))
        as (w6 & E6 & Hv6 & _); [exact Hv5 | |].
      { simpl. rewrite Hrows. reflexivity. }
      rewrite (bind_inr _ _ _ _ _ E6).
      eapply setup_database_tail; [exact Hv6 | done | done | done | |].
      * simpl. apply lookup_insert_eq.
      * rewrite lookup_alter_eq, Hversion. done.
    + subst version.
      unfold ret at 1. unfold bind at 1.
      by eapply setup_database_tail.
  - unfold set_configuration_value.
    edestruct (execute_ok cursor
                 (insert_configuration (cluster_schema cluster) "version"
                    __version__))
      as (w6 & E6 & Hv6 & _); [exact Hv5 | |].
    { simpl. rewrite Hrows, Hversion. reflexivity. }
    rewrite (bind_inr _ _ _ _ _ E6).
    eapply setup_database_tail; [exact Hv6 | done | done | done | |].
    * simpl. apply lookup_insert_eq.
    * apply lookup_insert_eq.
Qed.

(** C4.  Running [setup_database] a second time on a node a first run has
    set up changes nothing that can be observed: the second run returns the
    node identifier of the first, the cursor sees the same database (the
    same rows of [<schema>.configuration], among them that node identifier
    and the running version, and the same trigger function), nothing
    committed changes and no new UUID is drawn. *)
Theorem setup_database_idempotent cluster cursor w :
  is_Some (view w cursor) →
  ∃ node_id w1 w2 db rows,
    setup_database cluster cursor w = (inr node_id, w1)
    ∧ setup_database cluster cursor w1 = (inr node_id, w2)
    ∧ view w1 cursor = Some db
    ∧ view w2 cursor = Some db
    ∧ configuration db !! cluster_schema cluster = Some rows
    ∧ rows !! "node_id" = Some node_id
    ∧ rows !! "version" = Some __version__
    ∧ functions db !! cluster_schema cluster = Some (__version__, log_trigger_body)
    ∧ committed w2 = committed w1
    ∧ entropy w2 = entropy w1.
Proof.
  intros [db0 Hv].
  destruct (setup_database_configures cluster cursor w db0 Hv)
    as (w1 & db & node_id & Hfirst & Hv1 & Hconf).
  destruct (setup_database_configured cluster cursor w1 db node_id Hv1 Hconf)
    as (w2 & Hsecond & Hv2 & Hc & He).
  destruct Hconf as (_ & _ & _ & (rows & Hrows & Hversion & Hnode) & Hf).
  exists node_id, w1, w2, db, rows. done.
Qed.

(** *** One turn of the loop of [get_managed_databases] on a node that is
    already set up *)

Lemma lookup_snoc_length {A} (l : list A) x : (l ++ [x]) !! length l = Some x.
Proof. by apply list_lookup_middle. Qed.

Lemma insert_snoc_length {A} (l : list A) x y :
  <[length l := y]> (l ++ [x]) = l ++ [y].
Proof.
  rewrite insert_app_r_alt by lia. by rewrite Nat.sub_diag.
Qed.

Lemma connect_accessible dsn server w :
  servers w !! dsn = Some server →
  connect dsn w
  = (inr (length (connections w)),
     set_trace (trace w ++ [connected dsn (length (connections w))])
       (set_connections
          (connections w
             ++ [{| connection_dsn := dsn; connection_server := server;
                    pending := None |}]) w)).
Proof. unfold connect. by intros ->. Qed.

Lemma connect_inaccessible dsn w :
  servers w !! dsn = None →
  connect dsn w
  = (inl (OperationalError dsn),
     set_trace (trace w ++ [connection_refused dsn]) w).
Proof. unfold connect. by intros ->. Qed.

(** Reading a configuration value through a connection, the world spelled
    out. *)
Lemma get_configuration_value_exact cluster cursor key w conn rows :
  connections w !! cursor = Some conn →
  configuration (default (instance w (connection_server conn)) (pending conn))
    !! cluster_schema cluster = Some rows →
  get_configuration_value cluster cursor key w
  = (inr (rows !! key),
     set_connections
       (<[cursor := set_pending
            (Some (default (instance w (connection_server conn)) (pending conn)))
            conn]> (connections w))
       (set_trace
          (trace w
             ++ [executed cursor
                   (select_configuration (cluster_schema cluster) key)]) w)).
Proof.
  intros Hconn Hrows.
  unfold get_configuration_value, bind, execute, get_world, ret.
  rewrite Hconn. simpl.
  change (instance (set_trace _ w)) with (instance w).
  rewrite Hrows. unfold view. simpl.
  rewrite list_lookup_insert_eq by (by eapply lookup_lt_Some).
  simpl. by rewrite Hrows.
Qed.

Lemma try_inr {A} (m : M A) w a w' :
  m w = (inr a, w') → try m w = (inr (inr a), w').
Proof. unfold try. by intros ->. Qed.

Lemma try_inl {A} (m : M A) w e w' :
  m w = (inl e, w') → try m w = (inr (inl e), w').
Proof. unfold try. by intros ->. Qed.

Lemma get_managed_databases_body_configured cluster configure skip_inaccessible
  lock_id dsn nodes transactions w server rows node_id :
  servers w !! dsn = Some server →
  configuration (instance w server) !! cluster_schema cluster = Some rows →
  rows !! "node_id" = Some node_id →
  let connection := length (connections w) in
  let opened p :=
    connections w
      ++ [{| connection_dsn := dsn; connection_server := server; pending := p |}] in
  let probes :=
    [ connected dsn connection;
      executed connection
        (select_configuration (cluster_schema cluster) "node_id");
      executed connection
        (select_configuration (cluster_schema cluster) "version") ] in
  get_managed_databases_body cluster configure skip_inaccessible lock_id dsn
    (nodes, transactions) w
  = if decide (str (rows !! "version") = __version__) then
      let w' :=
        set_trace (trace w ++ probes ++ [connection_committed connection])
          (set_connections (opened None) w) in
      match nodes !! node_id with
      | Some other =>
          (inl (AssertionError (found_duplicate_node connection other)), w')
      | None => (inr (<[node_id := connection]> nodes, transactions), w')
      end
    else
      (inl (AssertionError
              (local_and_node_versions_do_not_match __version__
                 (str (rows !! "version")))),
       set_trace (trace w ++ probes)
         (set_connections (opened (Some (instance w server))) w)).
Proof.
  intros Hserver Hrows Hnode connection opened probes.
  assert (Hdb : committed w !! server = Some (instance w server)).
  { unfold instance in *. destruct (committed w !! server); [done|].
    simpl in Hrows. by rewrite lookup_empty in Hrows. }
  unfold get_managed_databases_body.
  rewrite (bind_inr _ _ _ _ _ (try_inr _ _ _ _ (connect_accessible _ _ _ Hserver))).
  fold connection.
  set (W0 := set_trace _ (set_connections _ w)).
  assert (Hc0 : connections W0 !! connection
                = Some {| connection_dsn := dsn; connection_server := server;
                          pending := None |})
    by apply lookup_snoc_length.
  pose proof (get_configuration_value_exact cluster connection "node_id" W0 _ rows
                Hc0 Hrows) as E1.
  set (W1 := set_connections _ (set_trace _ W0)) in E1.
  assert (Hprobe : (let* node_id := get_node_identifier cluster connection in
                    match node_id with
                    | Some node_id => ret node_id
                    | None => raise (AssertionError node_id_is_none)
                    end) W0 = (inr node_id, W1)).
  { unfold get_node_identifier. rewrite (bind_inr _ _ _ _ _ E1). by rewrite Hnode. }
  rewrite (bind_inr _ _ _ _ _ (try_inr _ _ _ _ Hprobe)).
  assert (Hc1 : connections W1 !! connection
                = Some {| connection_dsn := dsn; connection_server := server;
                          pending := Some (instance w server) |}).
  { unfold W1, W0. simpl. fold connection.
    unfold connection. rewrite insert_snoc_length. apply lookup_snoc_length. }
  pose proof (get_configuration_value_exact cluster connection "version" W1 _ rows
                Hc1 Hrows) as E2.
  set (W2 := set_connections _ (set_trace _ W1)) in E2.
  assert (HW2 : W2 = set_trace (trace w ++ probes)
                       (set_connections (opened (Some (instance w server))) w)).
  { unfold W2, W1, W0, set_connections, set_trace. simpl. fold connection.
    f_equal.
    - unfold connection. by rewrite !insert_snoc_length.
    - unfold probes. by rewrite <- !app_assoc. }
  unfold bind at 1. rewrite (bind_inr _ _ _ _ _ E2).
  case_decide as Hversion.
  - rewrite bool_decide_eq_true_2 by done.
    assert (Hcommit : connection_commit connection W2
                      = (inr tt,
                         set_trace (trace w ++ probes ++ [connection_committed connection])
                           (set_connections (opened None) w))).
    { rewrite HW2. unfold connection_commit, end_transaction. simpl.
      unfold opened at 1, connection. rewrite lookup_snoc_length. simpl.
      do 2 f_equal. unfold set_connections, set_committed, set_trace. simpl.
      unfold opened, probes.
      rewrite (insert_id _ _ _ Hdb), insert_snoc_length.
      by rewrite <- !app_assoc. }
    unfold assert. unfold ret at 1. unfold bind at 1.
    rewrite (bind_inr _ _ _ _ _ Hcommit). unfold ret at 1.
    by destruct (nodes !! node_id).
  - rewrite bool_decide_eq_false_2 by done.
    unfold assert, raise, bind. by rewrite HW2.
Qed.

(** *** C2 *)

(** C2 (the code at the failing input).  Also with [same_version=False],
    the call [upgrade_cluster] makes, a node that is set up and whose
    stored version is not the running one makes [get_managed_databases]
    fail on the assertion 'local and node versions do not match': the flag
    only chooses between [check_version] and a plain ZooKeeper
    transaction, the per-node comparison is made whatever its value. *)
Theorem get_managed_databases_checks_node_version_regardless cluster dsn
  configure skip_inaccessible w server rows node_id :
  servers w !! dsn = Some server →
  configuration (instance w server) !! cluster_schema cluster = Some rows →
  rows !! "node_id" = Some node_id →
  str (rows !! "version") ≠ __version__ →
  ∃ w',
    get_managed_databases cluster [dsn] configure skip_inaccessible false w
    = (inl (AssertionError
              (local_and_node_versions_do_not_match __version__
                 (str (rows !! "version")))), w')
    ∧ kind (AssertionError
              (local_and_node_versions_do_not_match __version__
                 (str (rows !! "version")))) = Some VersionMismatch.
Proof.
  intros Hserver Hrows Hnode Hversion.
  eexists. split; [|reflexivity].
  unfold get_managed_databases.
  unfold zookeeper_transaction at 1, log at 1, bind at 1, bind at 1.
  unfold ret at 1, draw_randint at 1, bind at 1.
  unfold for_each.
  erewrite (bind_inl _ _ _ _ _).
  - reflexivity.
  - erewrite (bind_inl _ _ _ _ _); [reflexivity|].
    erewrite get_managed_databases_body_configured; [| exact Hserver | exact Hrows | exact Hnode].
    rewrite decide_False by done. reflexivity.
Qed.

(** *** C3 *)

(** *** C3 *)






(** *** What the parts of the module append to the trace *)

Lemma emits_draw_uuid : emits quiet (λ _, True) draw_uuid.
Proof.
  intros w. split; [|done]. exists []. by rewrite app_nil_r.
Qed.

Lemma emits_draw_randint : emits quiet (λ _, True) draw_randint.
Proof.
  intros w. split; [|done]. exists []. by rewrite app_nil_r.
Qed.

Ltac emits_quiet :=
  repeat first
    [ apply emits_raise
    | apply emits_ret; exact I
    | apply emits_assert
    | apply emits_get_world
    | apply emits_draw_uuid
    | apply emits_draw_randint
    | apply emits_log; exact I
    | apply emits_execute; exact I
    | apply emits_end_transaction; exact I
    | apply emits_take_advisory_lock
    | apply emits_connect; [intros; exact I | exact I]
    | eapply (emits_bind _ (λ _, True)); [|intros ? _]
    | match goal with
      | |- emits _ _ (match ?x with _ => _ end) => destruct x
      end ].



Lemma emits_setup_database cluster cursor :
  emits quiet (λ _, True) (setup_database cluster cursor).
Proof.
  unfold setup_database, create_configuration_table, get_configuration_value,
    set_configuration_value, update_configuration_value,
    get_or_set_node_identifier, get_node_identifier,
    create_log_trigger_function, get_configuration_value,
    set_configuration_value.
  emits_quiet.
Qed.







(** A turn of the loop of [get_managed_databases] commits nothing but the
    probe, and the transactions it opens are setup transactions. *)
Lemma emits_get_managed_databases_body cluster configure skip_inaccessible
  lock_id dsn nodes transactions :
  Forall (λ t, transaction_name t = "setup-database") transactions →
  emits quiet
    (λ state, Forall (λ t, transaction_name t = "setup-database") state.2)
    (get_managed_databases_body cluster configure skip_inaccessible lock_id dsn
       (nodes, transactions)).
Proof.
  intros Hsetup. unfold get_managed_databases_body.
  eapply (emits_bind _ (λ _, True)).
  { eapply emits_weaken; [apply emits_try; emits_quiet | done]. }
  intros [error|connection] _.
  { destruct skip_inaccessible; [by apply emits_ret | apply emits_raise]. }
  eapply (emits_bind _ (λ _, True)).
  { eapply emits_weaken; [apply emits_try|done].
    unfold get_node_identifier, get_configuration_value. emits_quiet. }
  intros probe _.
  eapply (emits_bind _ (λ result,
                          Forall (λ t, transaction_name t = "setup-database")
                                 result.2)).
  - destruct probe as [error|node_id].
    + destruct error; try apply emits_raise.
      destruct (negb configure); [apply emits_raise|].
      eapply (emits_bind _ (λ _, True)); [by apply emits_end_transaction|].
      intros _ _. unfold Transaction_init.
      eapply (emits_bind _ (λ t, transaction_name t = "setup-database")).
      { eapply (emits_bind _ (λ _, True)); [by apply emits_log|].
        intros _ _. by apply emits_ret. }
      intros transaction Hname.
      eapply (emits_bind _ (λ _, True)).
      { unfold pg_try_advisory_lock. emits_quiet. }
      intros acquired _.
      eapply (emits_bind _ (λ _, True)); [apply emits_assert|]. intros _ _.
      eapply (emits_bind _ (λ _, True)); [apply emits_setup_database|].
      intros node_id _. apply emits_ret. simpl.
      apply Forall_app. split; [done | by constructor].
    + unfold get_configuration_value.
      eapply (emits_bind _ (λ _, True)); [emits_quiet|]. intros version _.
      eapply (emits_bind _ (λ _, True)); [apply emits_assert|]. intros _ _.
      eapply (emits_bind _ (λ _, True)); [by apply emits_end_transaction|].
      intros _ _. by apply emits_ret.
  - intros [node_id transactions'] Hsetup'.
    destruct (nodes !! node_id); [apply emits_raise | by apply emits_ret].
Qed.

(** *** C10 *)

(** C10.  With no DSN at all, [get_managed_databases] returns the empty
    mapping at once: the world is left as it was, so no ZooKeeper
    transaction is started, the cluster version is not read and no
    connection is opened, whatever the flags.  With at least one DSN the
    first thing the call does is to read the cluster version, or, when
    [same_version] is false, to start a ZooKeeper transaction. *)
Theorem get_managed_databases_no_dsns cluster configure skip_inaccessible
  same_version :
  (∀ w,
     get_managed_databases cluster [] configure skip_inaccessible same_version w
     = (inr ∅, w))
  ∧ (∀ dsn dsns,
       starts_with
         (if same_version then store_read cluster_path
          else store_transaction_started)
         (get_managed_databases cluster (dsn :: dsns) configure skip_inaccessible
            same_version)).
Proof.
  split; [reflexivity|]. intros dsn dsns.
  unfold get_managed_databases. apply starts_with_bind.
  - destruct same_version.
    + unfold check_version, zookeeper_get_cluster.
      apply starts_with_bind; [apply starts_with_bind; [apply starts_with_log|]|].
      * intros []. emits_quiet.
      * intros [configuration revision]. unfold zookeeper_transaction.
        emits_quiet.
    + unfold zookeeper_transaction.
      apply starts_with_bind; [apply starts_with_log|].
      intros []. by apply emits_ret.
  - intros ztransaction.
    eapply (emits_bind _ (λ _, True)).
    { eapply emits_mono; [|apply emits_draw_randint]. done. }
    intros lock_id _.
    eapply (emits_bind _ (λ _, True)).
    { eapply emits_weaken; [|done].
      eapply emits_mono;
        [|apply (emits_for_each quiet
                   (λ state, Forall (λ t, transaction_name t = "setup-database")
                                    state.2))]; [done|constructor|].
      intros d [nodes transactions] Hsetup.
      by apply emits_get_managed_databases_body. }
    intros [nodes transactions] _.
    eapply (emits_bind _ (λ _, True)); [|intros; by apply emits_ret].
    destruct transactions; [by apply emits_ret|].
    eapply emits_managed; [done | done |]. by apply emits_commit.
Qed.

(** *** C1 *)











Lemma between_refl w : setup_only_between w w.
Proof. exists []. by rewrite app_nil_r. Qed.










(** *** C6 *)

Lemma create_trigger_ok cluster cursor name configuration trigger schema table
  primary_keys columns w db :
  view w cursor = Some db →
  ∃ w' db',
    create_trigger cluster cursor name configuration trigger schema table
      primary_keys columns w = (inr tt, w')
    ∧ view w' cursor = Some db'
    ∧ trace w' = trace w
        ++ [ executed cursor (drop_trigger_if_exists trigger schema table);
             executed cursor
               (create_trigger_statement trigger columns schema table
                  (cluster_schema cluster)
                  (get_queue_name cluster name, pickle_dumps primary_keys,
                   pickle_dumps columns, get_version configuration)) ].
Proof.
  intros Hv. unfold create_trigger.
  edestruct (execute_ok cursor (drop_trigger_if_exists trigger schema table))
    as (w1 & Hdrop & Hv1 & _ & _ & Ht1); [exact Hv | reflexivity |].
  edestruct (execute_ok cursor
               (create_trigger_statement trigger columns schema table
                  (cluster_schema cluster)
                  (get_queue_name cluster name, pickle_dumps primary_keys,
                   pickle_dumps columns, get_version configuration)))
    as (w2 & Hcreate & Hv2 & _ & _ & Ht2); [exact Hv1 | |].
  { simpl. by rewrite lookup_delete_eq. }
  exists w2. eexists. rewrite (bind_inr _ _ _ _ _ Hdrop).
  split; [exact Hcreate|]. split; [exact Hv2|].
  by rewrite Ht2, Ht1, <- app_assoc.
Qed.

(** The two statements [setup_triggers] issues for a table. *)
Lemma setup_triggers_trace cluster cursor name configuration trigger
  (tables : list TableConfiguration) w db :
  view w cursor = Some db →
  ∃ w' db',
    for_each tables
      (λ table _,
         let primary_keys := Utilities.unique (primary_keys table) in
         create_trigger cluster cursor name configuration trigger
           (table_schema table) (table_name table) primary_keys
           (Utilities.unique (primary_keys ++ columns table)))
      tt w = (inr tt, w')
    ∧ view w' cursor = Some db'
    ∧ trace w' = trace w
        ++ flat_map
             (λ table,
                [ executed cursor
                    (drop_trigger_if_exists trigger
                       (table_schema table) (table_name table));
                  executed cursor
                    (create_trigger_statement trigger
                       (Utilities.unique
                          (Utilities.unique (primary_keys table) ++ columns table))
                       (table_schema table) (table_name table)
                       (cluster_schema cluster)
                       (get_queue_name cluster name,
                        pickle_dumps (Utilities.unique (primary_keys table)),
                        pickle_dumps
                          (Utilities.unique
                             (Utilities.unique (primary_keys table)
                                ++ columns table)),
                        get_version configuration)) ])
             tables.
Proof.
  revert w db. induction tables as [|table rest IH]; intros w db Hv.
  - exists w, db. simpl. by rewrite app_nil_r.
  - simpl.
    edestruct create_trigger_ok as (w1 & db1 & Hstep & Hv1 & Ht1); [exact Hv|].
    destruct (IH w1 db1 Hv1) as (w2 & db2 & Hrest & Hv2 & Ht2).
    exists w2, db2. rewrite (bind_inr _ _ _ _ _ Hstep).
    split; [exact Hrest|]. split; [exact Hv2|].
    rewrite Ht2, Ht1, <- app_assoc. done.
Qed.

(** C6.  For every table of the configuration, in order, [setup_triggers]
    drops the previous trigger and creates the trigger whose [UPDATE OF]
    list is [unique (primary_keys ++ columns)], passing the audit function
    the queue name, the encoded (deduplicated) primary keys, the encoded
    column list and [get_version configuration], the MD5 of the serialized
    configuration.  [unique] has no duplicates, keeps exactly the elements
    of its argument and keeps them in first-seen order. *)
Theorem setup_triggers_statements cluster cursor name configuration w :
  is_Some (view w cursor) →
  (∃ w',
     setup_triggers cluster cursor name configuration w = (inr tt, w')
     ∧ trace w' = trace w
         ++ flat_map
              (λ table,
                 let columns :=
                   Utilities.unique (primary_keys table ++ columns table) in
                 [ executed cursor
                     (drop_trigger_if_exists (get_trigger_name cluster name)
                        (table_schema table) (table_name table));
                   executed cursor
                     (create_trigger_statement (get_trigger_name cluster name)
                        columns (table_schema table) (table_name table)
                        (cluster_schema cluster)
                        (get_queue_name cluster name,
                         pickle_dumps (Utilities.unique (primary_keys table)),
                         pickle_dumps columns,
                         md5_hexdigest (SerializeToString configuration))) ])
              (tables configuration))
  ∧ (∀ l : list string,
       NoDup (Utilities.unique l) ∧ (∀ x, x ∈ Utilities.unique l ↔ x ∈ l))
  ∧ (∀ (x : string) l,
       Utilities.unique (x :: l)
       = x :: filter (λ y, y ≠ x) (Utilities.unique l)).
Proof.
  intros [db Hv]. split; [|split].
  - unfold setup_triggers.
    destruct (setup_triggers_trace cluster cursor name configuration
                (get_trigger_name cluster name) (tables configuration) w db Hv)
      as (w' & db' & Hrun & _ & Ht).
    exists w'. split; [exact Hrun|]. rewrite Ht. f_equal.
    apply flat_map_ext. intros table.
    by rewrite UtilitiesTheory.unique_unique_app.
  - intros l. split.
    + apply UtilitiesTheory.NoDup_unique.
    + intros x. apply UtilitiesTheory.elem_of_unique.
  - intros x l. apply UtilitiesTheory.unique_cons.
Qed.

End WithRuntime.

Lemma setup_database_idempotent_witness :
  is_Some (view world_1 0)
  ∧ ∃ node_id w1 w2,
      @setup_database demo c 0 world_1 = (inr node_id, w1)
      ∧ @setup_database demo c 0 w1 = (inr node_id, w2)
      ∧ view w2 0 = view w1 0.
Proof.
  assert (Hview : is_Some (view world_1 0)) by (by eexists).
  split; [exact Hview|].
  destruct (@setup_database_idempotent demo c 0 world_1 Hview)
    as (node_id & w1 & w2 & db & rows & H1 & H2 & Hv1 & Hv2 & _).
  exists node_id, w1, w2.
  split; [exact H1|]. split; [exact H2|]. congruence.
Defined.

Lemma get_managed_databases_checks_node_version_regardless_witness :
  ∃ w',
    @get_managed_databases demo c ["d2"] false false false world_0
    = (inl (AssertionError (local_and_node_versions_do_not_match "0.2" "0.1")), w').
Proof.
  destruct (@get_managed_databases_checks_node_version_regardless demo c "d2"
              false false world_0 "s2"
              {[ "version" := "0.1"; "node_id" := "node-2" ]} "node-2")
    as (w' & Hrun & _).
  - reflexivity.
  - reflexivity.
  - reflexivity.
  - discriminate.
  - exists w'. exact Hrun.
Defined.

(** Two DSNs of one node, and two DSNs of two nodes. *)
Example get_managed_databases_replica :
  (@get_managed_databases demo c ["d3"; "d3-replica"] true false true world_0).1
  = inl (AssertionError (found_duplicate_node 1 0)).
Proof. vm_compute. reflexivity. Qed.

Example get_managed_databases_two_nodes :
  (@get_managed_databases demo c ["d3"; "d4"] true false true world_0).1
  = inr {[ "node-3" := 0; "node-4" := 1 ]}.
Proof. vm_compute. reflexivity. Qed.



Lemma setup_triggers_statements_witness :
  is_Some (view world_1 0)
  ∧ ∃ w', @setup_triggers demo c 0 "orders" orders world_1 = (inr tt, w')
          ∧ trace w'
            = [ executed 0 (drop_trigger_if_exists "c_orders" "public" "orders");
                executed 0
                  (create_trigger_statement "c_orders" ["id"; "total"]
                     "public" "orders" "c"
                     ("c_orders", "id", "id,total", "md5:d1")) ].
Proof.
  split; [by eexists|].
  destruct (@setup_triggers_statements demo c 0 "orders" orders world_1)
    as [(w' & Hrun & Ht) _]; [by eexists|].
  exists w'. split; [exact Hrun|]. exact Ht.
Defined.

(** *** Further properties *)

Section Further.

Context `{Runtime}.

(** **** Names of sets *)

Lemma split_at_sign_plain value :
  has_at_sign value = false → split_at_sign value = (value, None).
Proof.
  induction value as [|a rest IH]; [done|]. simpl.
  destruct (Ascii.eqb a "@"); [done|]. simpl. intros Hrest.
  by rewrite IH.
Qed.

Lemma split_at_sign_app name version :
  has_at_sign name = false →
  split_at_sign (name ++ "@" ++ version)%string = (name, Some version).
Proof.
  induction name as [|a rest IH]; [done|]. simpl.
  destruct (Ascii.eqb a "@"); [done|]. simpl. intros Hrest.
  by rewrite IH.
Qed.

Lemma split_at_sign_name value :
  has_at_sign (split_at_sign value).1 = false.
Proof.
  induction value as [|a rest IH]; [done|]. simpl.
  destruct (Ascii.eqb a "@") eqn:Ha; [done|].
  destruct (split_at_sign rest) as [name version]. simpl in *.
  by rewrite Ha.
Qed.

Lemma split_at_sign_join value :
  value = match (split_at_sign value).2 with
          | Some version => ((split_at_sign value).1 ++ "@" ++ version)%string
          | None => (split_at_sign value).1
          end.
Proof.
  induction value as [|a rest IH]; [done|]. simpl.
  destruct (Ascii.eqb a "@") eqn:Ha.
  - apply Ascii.eqb_eq in Ha as ->. done.
  - destruct (split_at_sign rest) as [name [version|]]; simpl in *;
      by rewrite IH at 1.
Qed.

(** X12.  [VersionedSet.expand] splits at the first [@]: [name@version]
    expands to the name and the version when the name holds no [@]; a value
    without [@] expands to itself, with no version; and for every value the
    name has no [@], and name and version joined by [@] give the value back. *)
Theorem expand_round_trip :
  (∀ name version, has_at_sign name = false →
     expand (name ++ "@" ++ version)%string
     = {| set_name := name; set_version := Some version |})
  ∧ (∀ name, has_at_sign name = false →
       expand name = {| set_name := name; set_version := None |})
  ∧ (∀ value, qualified (expand value) = value
              ∧ has_at_sign (set_name (expand value)) = false).
Proof.
  unfold expand, qualified. split; [|split].
  - intros name version Hname. by rewrite split_at_sign_app.
  - intros name Hname. by rewrite split_at_sign_plain.
  - intros value.
    pose proof (split_at_sign_join value) as Hjoin.
    pose proof (split_at_sign_name value) as Hname.
    destruct (split_at_sign value) as [name version]. simpl in *.
    by split.
Qed.

(** **** Validation *)

Lemma seen_loop_cons database rest dsns w :
  seen_loop (database :: rest) dsns w
  = if decide (dsn database ∈ dsns)
    then (inl (AssertionError (duplicate_databases_not_allowed (dsn database))), w)
    else seen_loop rest ({[dsn database]} ∪ dsns) w.
Proof.
  unfold seen_loop. rewrite for_each_cons. unfold bind at 1 2.
  case_decide as Hin.
  - by rewrite bool_decide_false by (by intros ?).
  - by rewrite bool_decide_true by done.
Qed.

Lemma seen_loop_world databases dsns w : (seen_loop databases dsns w).2 = w.
Proof.
  revert dsns. induction databases as [|database rest IH]; intros dsns; [done|].
  rewrite seen_loop_cons. case_decide; [done | apply IH].
Qed.

Lemma seen_loop_inr databases dsns w :
  (∃ seen, (seen_loop databases dsns w).1 = inr seen)
  ↔ NoDup (map dsn databases) ∧ ∀ d, d ∈ map dsn databases → d ∉ dsns.
Proof.
  revert dsns. induction databases as [|database rest IH]; intros dsns.
  - split; [|by eexists]. intros _. split; [constructor|].
    intros d Hd. by apply elem_of_nil in Hd.
  - rewrite seen_loop_cons. case_decide as Hin.
    + split; [by intros [? ?]|]. intros [_ Hout]. exfalso.
      apply (Hout (dsn database)); [by left | done].
    + rewrite IH. simpl. rewrite NoDup_cons. split.
      * intros [Hnodup Hout]. split.
        -- split; [|done]. intros Hd. apply (Hout _ Hd). set_solver.
        -- intros d [->|Hd]%elem_of_cons; [done|].
           specialize (Hout _ Hd). set_solver.
      * intros [[Hhead Hnodup] Hout]. split; [done|].
        intros d Hd. apply not_elem_of_union. split.
        -- apply not_elem_of_singleton. by intros ->.
        -- apply Hout. by right.
Qed.

Lemma seen_loop_inl databases dsns w e :
  (seen_loop databases dsns w).1 = inl e →
  ∃ j database,
    databases !! j = Some database
    ∧ e = AssertionError (duplicate_databases_not_allowed (dsn database))
    ∧ (dsn database ∈ dsns
       ∨ ∃ i earlier, i < j ∧ databases !! i = Some earlier
                      ∧ dsn earlier = dsn database).
Proof.
  revert dsns. induction databases as [|database rest IH]; intros dsns; [done|].
  rewrite seen_loop_cons. case_decide as Hin.
  - intros [= <-]. exists 0, database. repeat split; by left.
  - intros He. destruct (IH _ He) as (j & database' & Hj & -> & Hwhy).
    exists (S j), database'. split; [done|]. split; [done|].
    destruct Hwhy as [[Hd|Hd]%elem_of_union | (i & earlier & Hi & Hearlier & Hd)].
    + apply elem_of_singleton in Hd. right. exists 0, database.
      repeat split; [lia | done].
    + by left.
    + right. exists (S i), earlier. repeat split; [lia | done | done].
Qed.

Lemma keys_loop_cons table rest w :
  keys_loop (table :: rest) w
  = match primary_keys table with
    | [] => (inl (AssertionError
                    (table_must_have_primary_keys (table_schema table)
                       (table_name table))), w)
    | _ => keys_loop rest w
    end.
Proof.
  unfold keys_loop. rewrite for_each_cons. unfold bind at 1.
  by destruct (primary_keys table).
Qed.

Lemma keys_loop_world tables w : (keys_loop tables w).2 = w.
Proof.
  induction tables as [|table rest IH]; [done|].
  rewrite keys_loop_cons. by destruct (primary_keys table).
Qed.

Lemma keys_loop_inr tables w :
  (keys_loop tables w).1 = inr tt
  ↔ Forall (λ table, primary_keys table ≠ []) tables.
Proof.
  induction tables as [|table rest IH]; [done|].
  rewrite keys_loop_cons, Forall_cons.
  destruct (primary_keys table).
  - split; [done | by intros [? _]].
  - rewrite IH. split; [by intros ? | by intros [_ ?]].
Qed.

Lemma keys_loop_inl tables w e :
  (keys_loop tables w).1 = inl e →
  ∃ table, table ∈ tables ∧ primary_keys table = []
           ∧ e = AssertionError
                   (table_must_have_primary_keys (table_schema table)
                      (table_name table)).
Proof.
  induction tables as [|table rest IH]; [done|].
  rewrite keys_loop_cons. destruct (primary_keys table) eqn:Hkeys.
  - intros [= <-]. exists table. by repeat split; [left|].
  - intros He. destruct (IH He) as (table' & Hin & Hk & ->).
    exists table'. by repeat split; [right|].
Qed.

Lemma validate_set_configuration_unfold configuration w :
  validate_set_configuration configuration w
  = match databases configuration with
    | [] => (inl (AssertionError set_must_have_associated_databases), w)
    | _ =>
        match seen_loop (databases configuration) ∅ w with
        | (inl e, w') => (inl e, w')
        | (inr _, w') => keys_loop (tables configuration) w'
        end
    end.
Proof.
  unfold validate_set_configuration, bind at 1.
  destruct (databases configuration) as [|database rest]; [done|].
  change (assert _ _ w) with (@inr Exception unit tt, w). cbv beta iota.
  unfold bind at 1. fold (seen_loop (database :: rest) ∅).
  by destruct (seen_loop (database :: rest) ∅ w) as [[e|seen] w'].
Qed.

Lemma validate_set_configuration_outcome configuration w :
  (validate_set_configuration configuration w).2 = w
  ∧ ((validate_set_configuration configuration w).1 = inr tt
     ↔ valid configuration).
Proof.
  rewrite validate_set_configuration_unfold. unfold valid.
  destruct (databases configuration) as [|database rest] eqn:Hdbs.
  { split; [done|]. split; [done | by intros [? _]]. }
  rewrite <- Hdbs.
  pose proof (seen_loop_world (databases configuration) ∅ w) as Hworld.
  pose proof (seen_loop_inr (databases configuration) ∅ w) as Hseen.
  destruct (seen_loop (databases configuration) ∅ w) as [[e|seen] w'];
    simpl in *; subst w'.
  - split; [done|]. split; [done|]. intros (_ & Hnodup & _).
    destruct Hseen as [_ Hseen]. destruct Hseen as [? ?]; [|done].
    split; [done|]. intros d _. set_solver.
  - split; [apply keys_loop_world|]. rewrite keys_loop_inr.
    split.
    + intros Hkeys. split; [by rewrite Hdbs|]. split; [|done].
      apply Hseen. by eexists.
    + by intros (_ & _ & Hkeys).
Qed.

Lemma validate_set_configuration_inl configuration w e :
  (validate_set_configuration configuration w).1 = inl e →
  (e = AssertionError set_must_have_associated_databases
   ∧ databases configuration = [])
  ∨ (∃ i j first second,
       i < j
       ∧ databases configuration !! i = Some first
       ∧ databases configuration !! j = Some second
       ∧ dsn first = dsn second
       ∧ e = AssertionError (duplicate_databases_not_allowed (dsn second)))
  ∨ (∃ table,
       table ∈ tables configuration
       ∧ primary_keys table = []
       ∧ e = AssertionError
               (table_must_have_primary_keys (table_schema table)
                  (table_name table))).
Proof.
  rewrite validate_set_configuration_unfold.
  destruct (databases configuration) as [|database rest] eqn:Hdbs.
  { intros [= <-]. by left. }
  pose proof (seen_loop_inl (database :: rest) ∅ w) as Hseen.
  destruct (seen_loop (database :: rest) ∅ w) as [[e'|seen] w']; simpl in *.
  - intros [= <-]. right. left.
    destruct (Hseen _ eq_refl) as (j & second & Hj & -> & Hwhy).
    destruct Hwhy as [Hin|(i & first & Hi & Hfirst & Hd)]; [set_solver|].
    by exists i, j, first, second.
  - intros He. right. right. by apply keys_loop_inl in He.
Qed.

(** X13.  [validate_set_configuration] touches nothing; it succeeds exactly
    when the configuration has at least one database, no DSN twice and at
    least one primary key for every table; and every error it raises is an
    [AssertionError] that tells the truth: 'set must have associated
    databases' only when there is none, 'duplicate databases not allowed'
    only for a DSN that two databases of the list share, 'table ... must
    have primary keys' only for a table of the list that has none.
    [create_set] and [update_set] validate first: for a configuration that
    is refused they fail with that same error before ZooKeeper is read or a
    database is connected to, and the world is exactly as it was. *)
Theorem validate_set_configuration_checks configuration w :
  (validate_set_configuration configuration w).2 = w
  ∧ ((validate_set_configuration configuration w).1 = inr tt
     ↔ valid configuration)
  ∧ (∀ e,
       (validate_set_configuration configuration w).1 = inl e →
       (e = AssertionError set_must_have_associated_databases
        ∧ databases configuration = [])
       ∨ (∃ i j first second,
            i < j
            ∧ databases configuration !! i = Some first
            ∧ databases configuration !! j = Some second
            ∧ dsn first = dsn second
            ∧ e = AssertionError (duplicate_databases_not_allowed (dsn second)))
       ∨ (∃ table,
            table ∈ tables configuration
            ∧ primary_keys table = []
            ∧ e = AssertionError
                    (table_must_have_primary_keys (table_schema table)
                       (table_name table))))
  ∧ (∀ e,
       (validate_set_configuration configuration w).1 = inl e →
       ∀ cluster name force,
         create_set cluster name configuration w = (inl e, w)
         ∧ update_set cluster name configuration force w = (inl e, w)).
Proof.
  destruct (validate_set_configuration_outcome configuration w) as [Hw Hr].
  split; [exact Hw|]. split; [exact Hr|].
  split; [apply validate_set_configuration_inl|].
  intros e He cluster name force.
  assert (Hrun : validate_set_configuration configuration w = (inl e, w)).
  { destruct (validate_set_configuration configuration w) as [r w0].
    simpl in *. by subst. }
  unfold create_set, update_set.
  by rewrite !(bind_inl _ _ _ _ _ Hrun).
Qed.

(** **** Reading sets *)

Lemma set_trace_app w events1 events2 :
  set_trace (trace (set_trace (trace w ++ events1) w) ++ events2)
    (set_trace (trace w ++ events1) w)
  = set_trace (trace w ++ events1 ++ events2) w.
Proof. unfold set_trace. simpl. by rewrite app_assoc. Qed.

Lemma set_trace_nil w : set_trace (trace w ++ []) w = w.
Proof. destruct w. unfold set_trace. simpl. by rewrite app_nil_r. Qed.

Lemma log_set_trace e w : log e w = (inr tt, set_trace (trace w ++ [e]) w).
Proof. done. Qed.

Lemma requests_loop (sets : list VersionedSet) futures w :
  for_each sets
    (λ s futures,
       let* future := zookeeper_get_async (set_name s) in
       ret (futures ++ [future]))
    futures w
  = (inr (futures ++ map set_name sets),
     set_trace
       (trace w ++ map (λ s, store_read (set_path (set_name s))) sets) w).
Proof.
  revert futures w. induction sets as [|s rest IH]; intros futures w.
  - simpl. unfold ret. by rewrite app_nil_r, set_trace_nil.
  - rewrite for_each_cons.
    rewrite (bind_inr _ _ w (futures ++ [set_name s])
               (set_trace (trace w ++ [store_read (set_path (set_name s))]) w))
      by reflexivity.
    by rewrite IH, set_trace_app, <- app_assoc.
Qed.

Lemma answers_loop_cons value rest results w :
  answers_loop
    ((expand value, set_name (expand value)) :: rest) results w
  = match set_nodes (zookeeper w) !! set_name (expand value) with
    | None => (inl NoNodeError, w)
    | Some (configuration, stat) =>
        match set_version (expand value) with
        | Some version =>
            if decide (version = get_version configuration)
            then answers_loop rest
                   (results ++ [(set_name (expand value), (configuration, stat))]) w
            else (inl (AssertionError
                         (set_versions_do_not_match version
                            (get_version configuration))), w)
        | None =>
            answers_loop rest
              (results ++ [(set_name (expand value), (configuration, stat))]) w
        end
    end.
Proof.
  unfold answers_loop. rewrite for_each_cons.
  unfold bind at 1 2, future_get, bind at 1, get_world.
  destruct (set_nodes (zookeeper w) !! set_name (expand value))
    as [[configuration stat]|]; [|done].
  unfold ret at 1. cbv beta iota.
  destruct (set_version (expand value)) as [version|]; [|done].
  unfold bind at 1. case_decide.
  - by rewrite bool_decide_true by done.
  - by rewrite bool_decide_false by done.
Qed.

Lemma answers_loop_outcome names results w :
  let requests := zip (map expand names) (map set_name (map expand names)) in
  (answers_loop requests results w).2 = w
  ∧ (∀ out, (answers_loop requests results w).1 = inr out
            ↔ ∃ tail, out = results ++ tail
                      ∧ Forall2 (fetched (zookeeper w)) names tail)
  ∧ (∀ e, (answers_loop requests results w).1 = inl e →
          ∃ value, value ∈ names ∧ refused (zookeeper w) value e).
Proof.
  revert results. induction names as [|value rest IH]; intros results; simpl.
  { split; [done|]. split; [|done]. intros out. split.
    - intros [= <-]. exists []. by rewrite app_nil_r.
    - intros (tail & -> & ->%Forall2_nil_inv_l). by rewrite app_nil_r. }
  rewrite answers_loop_cons.
  assert (Hnext : ∀ configuration stat,
    set_nodes (zookeeper w) !! set_name (expand value) = Some (configuration, stat) →
    (∀ version, set_version (expand value) = Some version →
                version = get_version configuration) →
    let r := answers_loop
               (zip (map expand rest) (map set_name (map expand rest)))
               (results ++ [(set_name (expand value), (configuration, stat))]) w in
    r.2 = w
    ∧ (∀ out, r.1 = inr out
              ↔ ∃ tail, out = results ++ tail
                        ∧ Forall2 (fetched (zookeeper w)) (value :: rest) tail)
    ∧ (∀ e, r.1 = inl e →
            ∃ value', value' ∈ value :: rest ∧ refused (zookeeper w) value' e)).
  { intros configuration stat Hnode Hversion.
    destruct (IH (results ++ [(set_name (expand value), (configuration, stat))]))
      as (Hw & Hr & He).
    split; [done|]. split.
    - intros out. rewrite Hr. split.
      + intros (tail & -> & Htail).
        exists ((set_name (expand value), (configuration, stat)) :: tail).
        split; [by rewrite <- app_assoc|]. by constructor.
      + intros (tail & -> & Htail).
        apply Forall2_cons_inv_l in Htail
          as ([n node] & tail' & (Hn & Hnode' & _) & Htail & ->).
        simpl in *. subst n. rewrite Hnode in Hnode'. injection Hnode' as <-.
        exists tail'. split; [by rewrite <- app_assoc | done].
    - intros e Hfail. destruct (He e Hfail) as (value' & Hin & Hwhy).
      exists value'. split; [by right | done]. }
  destruct (set_nodes (zookeeper w) !! set_name (expand value))
    as [[configuration stat]|] eqn:Hnode.
  - destruct (set_version (expand value)) as [version|] eqn:Hversion.
    + case_decide as Hv.
      * apply Hnext; [done|]. by intros ? [= <-].
      * split; [done|]. split.
        -- intros out. split; [done|]. intros (tail & -> & Htail).
           apply Forall2_cons_inv_l in Htail
             as ([n node] & tail' & (_ & Hnode' & Hv') & _ & _).
           simpl in *. rewrite Hnode in Hnode'. injection Hnode' as <-.
           exfalso. by apply Hv, Hv'.
        -- intros e [= <-]. exists value. split; [by left|]. right.
           by exists version, configuration, stat.
    + apply Hnext; [done | done].
  - split; [done|]. split.
    + intros out. split; [done|]. intros (tail & -> & Htail).
      apply Forall2_cons_inv_l in Htail
        as ([n node] & tail' & (_ & Hnode' & _) & _ & _).
      simpl in *. by rewrite Hnode in Hnode'.
    + intros e [= <-]. exists value. split; [by left|]. by left.
Qed.

Lemma fetch_sets_unfold cluster names w :
  fetch_sets cluster (Some names) w
  = answers_loop (zip (map expand names) (map set_name (map expand names))) []
      (set_trace (trace w ++ reads names) w).
Proof.
  unfold fetch_sets. unfold bind at 1, ret at 1.
  unfold bind at 1. rewrite requests_loop.
  unfold reads, answers_loop. by rewrite !map_map.
Qed.

Lemma fetch_sets_outcome cluster names w :
  (fetch_sets cluster (Some names) w).2 = set_trace (trace w ++ reads names) w
  ∧ (∀ results, (fetch_sets cluster (Some names) w).1 = inr results
                ↔ Forall2 (fetched (zookeeper w)) names results)
  ∧ (∀ e, (fetch_sets cluster (Some names) w).1 = inl e →
          ∃ value, value ∈ names ∧ refused (zookeeper w) value e).
Proof.
  rewrite fetch_sets_unfold.
  destruct (answers_loop_outcome names [] (set_trace (trace w ++ reads names) w))
    as (Hw & Hr & He).
  split; [done|]. split.
  - intros results. rewrite Hr. simpl. split.
    + by intros (tail & -> & Htail).
    + intros Hall. by exists results.
  - exact He.
Qed.

(** X14.  [fetch_sets] with names only reads: it sends one read per name,
    all of them before it waits for an answer, and changes nothing else.  It
    succeeds exactly with one result per name, in order, each the node that
    ZooKeeper holds under the expanded name, with a configuration of the
    version asked for when the name carries one.  When it fails, one of the
    names is refused: its node does not exist ([NoNodeError]), or the
    version asked for is not that of the stored configuration
    ([AssertionError]). *)
Theorem fetch_sets_named cluster names w :
  (fetch_sets cluster (Some names) w).2 = set_trace (trace w ++ reads names) w
  ∧ (∀ results, (fetch_sets cluster (Some names) w).1 = inr results
                ↔ Forall2 (fetched (zookeeper w)) names results)
  ∧ (∀ e, (fetch_sets cluster (Some names) w).1 = inl e →
          ∃ value, value ∈ names ∧ refused (zookeeper w) value e).
Proof. apply fetch_sets_outcome. Qed.

Lemma fetch_sets_all_unfold cluster w revision :
  sets_node (zookeeper w) = Some revision →
  fetch_sets cluster None w
  = fetch_sets cluster (Some (elements (dom (set_nodes (zookeeper w)))))
      (set_trace (trace w ++ [store_read sets_path]) w).
Proof.
  intros Hsets. unfold fetch_sets.
  rewrite (bind_inr _ _ w (elements (dom (set_nodes (zookeeper w))))
             (set_trace (trace w ++ [store_read sets_path]) w)).
  - done.
  - unfold zookeeper_get_children, bind, log, get_world. simpl. by rewrite Hsets.
Qed.

Lemma lookup_all {A} (m : gmap string A) (names : list string) :
  Forall (λ name, is_Some (m !! name)) names →
  ∃ results : list (string * A),
    Forall2 (λ name result, result.1 = name ∧ m !! name = Some result.2)
      names results.
Proof.
  induction 1 as [|name rest [node Hnode] _ (results & IH)].
  - by exists [].
  - exists ((name, node) :: results). by constructor.
Qed.

(** X15.  [fetch_sets] without names lists the children of the sets node:
    without that node it fails with [NoNodeError] after the one read; with
    it, and when no set name holds an [@], it returns every set of the
    cluster with its stored configuration, after one more read per set. *)
Theorem fetch_sets_all cluster w :
  (sets_node (zookeeper w) = None →
   fetch_sets cluster None w
   = (inl NoNodeError, set_trace (trace w ++ [store_read sets_path]) w))
  ∧ (∀ revision,
       sets_node (zookeeper w) = Some revision →
       (∀ name, name ∈ dom (set_nodes (zookeeper w)) → has_at_sign name = false) →
       let names := elements (dom (set_nodes (zookeeper w))) in
       ∃ results,
         fetch_sets cluster None w
         = (inr results,
            set_trace (trace w ++ store_read sets_path :: reads names) w)
         ∧ Forall2 (λ name result,
                      result.1 = name
                      ∧ set_nodes (zookeeper w) !! name = Some result.2)
             names results).
Proof.
  split.
  - intros Hsets. unfold fetch_sets, bind at 1.
    unfold zookeeper_get_children, bind, log, get_world. simpl. by rewrite Hsets.
  - intros revision Hsets Hplain names.
    destruct (lookup_all (set_nodes (zookeeper w)) names) as (results & Hresults).
    { apply Forall_forall. intros name Hname. apply elem_of_dom.
      by apply elem_of_elements in Hname. }
    exists results. split; [|done].
    rewrite (fetch_sets_all_unfold _ _ _ Hsets). fold names.
    destruct (fetch_sets_outcome cluster names
                (set_trace (trace w ++ [store_read sets_path]) w))
      as (Hw & Hr & _).
    rewrite set_trace_app in Hw.
    rewrite (surjective_pairing
               (fetch_sets cluster (Some names)
                  (set_trace (trace w ++ [store_read sets_path]) w))).
    rewrite Hw. f_equal. apply Hr. clear Hw Hr.
    assert (Hnames : Forall (λ name, has_at_sign name = false) names).
    { apply Forall_forall. intros name Hname. apply Hplain.
      by apply elem_of_elements in Hname. }
    clear Hplain. revert Hnames.
    induction Hresults as [|name result rest results' [Hname Hnode] _ IH];
      intros Hnames; [constructor|].
    apply Forall_cons in Hnames as [Hplain Hnames].
    constructor; [|by apply IH].
    unfold fetched, expand. rewrite split_at_sign_plain by done. simpl.
    by repeat split.
Qed.

Lemma fetch_sets_missing cluster name w :
  set_nodes (zookeeper w) !! set_name (expand name) = None →
  fetch_sets cluster (Some [name]) w
  = (inl NoNodeError,
     set_trace (trace w ++ [store_read (set_path (set_name (expand name)))]) w).
Proof.
  intros Hnode. rewrite fetch_sets_unfold.
  change (zip (map expand [name]) (map set_name (map expand [name])))
    with [(expand name, set_name (expand name))].
  rewrite answers_loop_cons. simpl. by rewrite Hnode.
Qed.

(** X16.  [drop_set], and [update_set] with a valid configuration, of a set
    that ZooKeeper does not hold fail with [NoNodeError] after the one read
    of the set's node: no database is connected to and nothing is written. *)
Theorem missing_set_not_found cluster name configuration force w :
  set_nodes (zookeeper w) !! set_name (expand name) = None →
  let w' :=
    set_trace (trace w ++ [store_read (set_path (set_name (expand name)))]) w in
  drop_set cluster name force w = (inl NoNodeError, w')
  ∧ (valid configuration →
     update_set cluster name configuration force w = (inl NoNodeError, w')).
Proof.
  intros Hnode w'. pose proof (fetch_sets_missing cluster name w Hnode) as Hfetch.
  split.
  - unfold drop_set. by rewrite (bind_inl _ _ _ _ _ Hfetch).
  - intros Hvalid. unfold update_set.
    destruct (validate_set_configuration_outcome configuration w) as [Hw Hr].
    apply Hr in Hvalid.
    rewrite (bind_inr _ _ w tt w).
    + by rewrite (bind_inl _ _ _ _ _ Hfetch).
    + destruct (validate_set_configuration configuration w) as [r w0].
      simpl in *. by subst.
Qed.

(** **** The cluster node *)

(** X17.  [upgrade_cluster] fails with [NoNodeError] when the cluster node
    does not exist, and without [force] it refuses ('cannot downgrade ...')
    unless the running version is newer than the stored one; in both cases
    all it has done is read the cluster node. *)
Theorem upgrade_cluster_refused cluster w :
  (cluster_node (zookeeper w) = None →
   ∀ force,
     upgrade_cluster cluster force w
     = (inl NoNodeError, set_trace (trace w ++ [store_read cluster_path]) w))
  ∧ (∀ configuration revision,
       cluster_node (zookeeper w) = Some (configuration, revision) →
       parse_version_gt __version__ (version configuration) = false →
       upgrade_cluster cluster false w
       = (inl (AssertionError
                 (cannot_downgrade (version configuration) __version__)),
          set_trace (trace w ++ [store_read cluster_path]) w)).
Proof.
  split.
  - intros Hnode force. unfold upgrade_cluster, bind at 1.
    unfold zookeeper_get_cluster, bind, log, get_world. simpl. by rewrite Hnode.
  - intros configuration revision Hnode Hgt.
    unfold upgrade_cluster.
    rewrite (bind_inr _ _ w (configuration, revision)
               (set_trace (trace w ++ [store_read cluster_path]) w)).
    + unfold bind at 1. by rewrite Hgt.
    + unfold zookeeper_get_cluster, bind, log, get_world. simpl. by rewrite Hnode.
Qed.

(** X18.  On a tree with neither node [initialize_cluster] creates the
    cluster node, holding the running version, and the sets node; the
    cluster then passes [check_version], and initializing it again is
    refused.  Wherever the cluster node exists, [initialize_cluster] fails
    with the transaction refused and ZooKeeper is left as it was. *)
Theorem initialize_cluster_once cluster w :
  (cluster_node (zookeeper w) = None →
   sets_node (zookeeper w) = None →
   ∃ w',
     initialize_cluster cluster w = (inr tt, w')
     ∧ cluster_node (zookeeper w') = Some ({| version := __version__ |}, 0%Z)
     ∧ sets_node (zookeeper w') = Some 0%Z
     ∧ set_nodes (zookeeper w') = set_nodes (zookeeper w)
     ∧ (check_version cluster w').1 = inr [check cluster_path 0%Z]
     ∧ (initialize_cluster cluster w').1 = inl TransactionFailed
     ∧ zookeeper (initialize_cluster cluster w').2 = zookeeper w')
  ∧ (is_Some (cluster_node (zookeeper w)) →
     (initialize_cluster cluster w).1 = inl TransactionFailed
     ∧ zookeeper (initialize_cluster cluster w).2 = zookeeper w).
Proof.
  assert (Hagain : ∀ w, is_Some (cluster_node (zookeeper w)) →
            (initialize_cluster cluster w).1 = inl TransactionFailed
            ∧ zookeeper (initialize_cluster cluster w).2 = zookeeper w).
  { intros w0 [node Hnode].
    unfold initialize_cluster, bind, zookeeper_transaction, bind, log, ret, commit.
    simpl. by rewrite Hnode. }
  split; [|apply Hagain].
  intros Hcluster Hsets.
  eexists. split.
  { unfold initialize_cluster, bind, zookeeper_transaction, bind, log, ret, commit.
    simpl. rewrite Hcluster. simpl. rewrite Hsets. reflexivity. }
  simpl. repeat split.
  unfold check_version, bind, zookeeper_get_cluster, bind, log, get_world,
    zookeeper_transaction, bind, log, ret. simpl.
  by rewrite decide_True.
Qed.

(** **** Databases that cannot be used *)

Lemma get_managed_databases_started cluster dsn dsns configure skip_inaccessible
  same_version w :
  (same_version = true → cluster_at_running_version w) →
  ∃ ztransaction,
    get_managed_databases cluster (dsn :: dsns) configure skip_inaccessible
      same_version w
    = (let* (nodes, transactions) :=
         for_each (dsn :: dsns)
           (get_managed_databases_body cluster configure skip_inaccessible
              (randint (entropy w)))
           (∅, []) in
       match transactions with
       | [] => ret tt
       | _ => managed transactions (commit ztransaction)
       end;;;
       ret nodes) (started same_version w).
Proof.
  intros Hversion. unfold get_managed_databases, started, prologue.
  destruct same_version.
  - destruct (Hversion eq_refl) as [revision Hnode].
    exists [check cluster_path revision].
    rewrite (bind_inr _ _ w [check cluster_path revision]
               (set_trace (trace w ++ [store_read cluster_path;
                                       store_transaction_started]) w)).
    + by unfold bind at 1, draw_randint.
    + unfold check_version, bind, zookeeper_get_cluster, bind, log, get_world,
        zookeeper_transaction, bind, log, ret. simpl. rewrite Hnode. simpl.
      rewrite decide_True by done. unfold set_trace. simpl.
      by rewrite <- app_assoc.
  - exists []. by unfold bind at 1, draw_randint.
Qed.

Lemma get_managed_databases_body_inaccessible cluster configure skip_inaccessible
  lock_id dsn state w :
  servers w !! dsn = None →
  get_managed_databases_body cluster configure skip_inaccessible lock_id dsn
    state w
  = (if skip_inaccessible then inr state else inl (OperationalError dsn),
     set_trace (trace w ++ [connection_refused dsn]) w).
Proof.
  intros Hdsn. destruct state as [nodes transactions].
  unfold get_managed_databases_body.
  rewrite (bind_inr _ _ _ _ _ (try_inl _ _ _ _ (connect_inaccessible _ _ Hdsn))).
  by destruct skip_inaccessible.
Qed.

Lemma get_managed_databases_loop_inaccessible cluster configure lock_id dsns
  state w :
  Forall (λ dsn, servers w !! dsn = None) dsns →
  for_each dsns (get_managed_databases_body cluster configure true lock_id)
    state w
  = (inr state, set_trace (trace w ++ map connection_refused dsns) w).
Proof.
  intros Hall. revert w Hall. induction dsns as [|dsn rest IH]; intros w Hall.
  - simpl. unfold ret. by rewrite set_trace_nil.
  - apply Forall_cons in Hall as [Hdsn Hrest].
    rewrite for_each_cons.
    rewrite (bind_inr _ _ _ _ _
               (get_managed_databases_body_inaccessible _ _ true _ _ _ _ Hdsn)).
    rewrite IH by done. by rewrite set_trace_app.
Qed.

(** X19.  A DSN that cannot be connected to: without [skip_inaccessible],
    [get_managed_databases] fails with the [OperationalError] of the first
    DSN, having only started and tried to connect; with [skip_inaccessible],
    when no DSN can be reached, it returns the empty dictionary after one
    refused connection per DSN, in order. *)
Theorem get_managed_databases_inaccessible cluster dsn dsns configure
  same_version w :
  (same_version = true → cluster_at_running_version w) →
  servers w !! dsn = None →
  (get_managed_databases cluster (dsn :: dsns) configure false same_version w
   = (inl (OperationalError dsn),
      set_trace (trace (started same_version w) ++ [connection_refused dsn])
        (started same_version w))
   ∧ kind (OperationalError dsn) = Some ConnectionFailed)
  ∧ (Forall (λ dsn, servers w !! dsn = None) dsns →
     get_managed_databases cluster (dsn :: dsns) configure true same_version w
     = (inr ∅,
        set_trace (trace (started same_version w)
                     ++ map connection_refused (dsn :: dsns))
          (started same_version w))).
Proof.
  intros Hversion Hdsn. split; [split; [|done]|].
  - destruct (get_managed_databases_started cluster dsn dsns configure false
                same_version w Hversion) as (ztransaction & ->).
    rewrite for_each_cons.
    assert (Hbody := get_managed_databases_body_inaccessible cluster configure
                       false (randint (entropy w)) dsn (∅, [])
                       (started same_version w) Hdsn).
    by rewrite (bind_inl _ _ _ _ _ (bind_inl _ _ _ _ _ Hbody)).
  - intros Hdsns.
    destruct (get_managed_databases_started cluster dsn dsns configure true
                same_version w Hversion) as (ztransaction & ->).
    assert (Hloop := get_managed_databases_loop_inaccessible cluster configure
                       (randint (entropy w)) (dsn :: dsns) (∅, [])
                       (started same_version w)).
    rewrite (bind_inr _ _ _ _ _ (Hloop ltac:(by constructor))).
    done.
Qed.

Lemma execute_refused cursor s w conn e :
  connections w !! cursor = Some conn →
  apply_statement s (default (instance w (connection_server conn)) (pending conn))
  = inl e →
  execute cursor s w = (inl e, set_trace (trace w ++ [executed cursor s]) w).
Proof.
  intros Hc Hs. unfold execute. rewrite Hc.
  change (instance (set_trace (trace w ++ [executed cursor s]) w))
    with (instance w).
  by rewrite Hs.
Qed.

(** X20.  With [configure=False], as [drop_set] calls it, a first DSN that
    leads to a database without the configuration table makes
    [get_managed_databases] fail with the [ProgrammingError] of the probe:
    the connection was opened and the node identifier asked for, nothing was
    set up and nothing committed. *)
Theorem get_managed_databases_not_configured cluster dsn dsns skip_inaccessible
  same_version w server :
  (same_version = true → cluster_at_running_version w) →
  servers w !! dsn = Some server →
  configuration (instance w server) !! cluster_schema cluster = None →
  let connection := length (connections w) in
  get_managed_databases cluster (dsn :: dsns) false skip_inaccessible
    same_version w
  = (inl ProgrammingError,
     set_trace
       (trace (started same_version w)
          ++ [connected dsn connection;
              executed connection
                (select_configuration (cluster_schema cluster) "node_id")])
       (set_connections
          (connections w
             ++ [{| connection_dsn := dsn; connection_server := server;
                    pending := None |}])
          (started same_version w)))
  ∧ kind ProgrammingError = Some NotConfigured.
Proof.
  intros Hversion Hserver Hrows connection. split; [|done].
  destruct (get_managed_databases_started cluster dsn dsns false
              skip_inaccessible same_version w Hversion) as (ztransaction & ->).
  rewrite for_each_cons.
  erewrite (bind_inl _ _ _ _ _); [reflexivity|].
  erewrite (bind_inl _ _ _ _ _); [reflexivity|].
  unfold get_managed_databases_body.
  assert (Hs : servers (started same_version w) !! dsn = Some server) by done.
  rewrite (bind_inr _ _ _ _ _ (try_inr _ _ _ _ (connect_accessible _ _ _ Hs))).
  change (length (connections (started same_version w))) with connection.
  set (W0 := set_trace _ (set_connections _ (started same_version w))).
  assert (Hc0 : connections W0 !! connection
                = Some {| connection_dsn := dsn; connection_server := server;
                          pending := None |})
    by apply lookup_snoc_length.
  assert (Hprobe :
    (let* node_id := get_node_identifier cluster connection in
     match node_id with
     | Some node_id => ret node_id
     | None => raise (AssertionError node_id_is_none)
     end) W0
    = (inl ProgrammingError,
       set_trace
         (trace W0
            ++ [executed connection
                  (select_configuration (cluster_schema cluster) "node_id")])
         W0)).
  { unfold get_node_identifier, get_configuration_value.
    erewrite (bind_inl _ _ _ _ _); [reflexivity|].
    erewrite (bind_inl _ _ _ _ _); [reflexivity|].
    apply (execute_refused _ _ _ _ _ Hc0). simpl.
    change (instance W0 server) with (instance w server). by rewrite Hrows. }
  rewrite (bind_inr _ _ _ _ _ (try_inl _ _ _ _ Hprobe)).
  unfold bind at 1. simpl. unfold raise. f_equal.
  unfold W0, set_trace, set_connections. simpl. by rewrite <- app_assoc.
Qed.

(** **** Setting a database up *)

(** The node identifier is read, or drawn and stored; the trigger function
    is replaced. *)
Lemma setup_database_identifier cluster cursor w db rows :
  view w cursor = Some db →
  configuration db !! cluster_schema cluster = Some rows →
  ∃ w' db' node_id,
    (let* node_id := get_or_set_node_identifier cluster cursor in
     create_log_trigger_function cluster cursor node_id;;;
     ret node_id) w = (inr node_id, w')
    ∧ view w' cursor = Some db'
    ∧ committed w' = committed w
    ∧ queues db' = queues db
    ∧ triggers db' = triggers db
    ∧ (∀ schema, schema ≠ cluster_schema cluster →
                 configuration db' !! schema = configuration db !! schema)
    ∧ functions db' !! cluster_schema cluster
      = Some (__version__, log_trigger_body)
    ∧ rows_of cluster db' !! "node_id" = Some node_id
    ∧ (∀ key, key ≠ "node_id" → rows_of cluster db' !! key = rows !! key)
    ∧ match rows !! "node_id" with
      | Some stored => node_id = stored ∧ entropy w' = entropy w
      | None => node_id = uuid1 (entropy w) ∧ entropy w' = S (entropy w)
      end.
Proof.
  intros Hv Hrows.
  destruct (get_configuration_value_ok cluster cursor "node_id" w db rows Hv Hrows)
    as (w1 & E1 & Hv1 & Hc1 & He1 & _).
  unfold get_or_set_node_identifier, get_node_identifier.
  unfold bind at 1. rewrite (bind_inr _ _ _ _ _ E1).
  destruct (rows !! "node_id") as [node_id|] eqn:Hnode.
  - unfold ret at 1. unfold create_log_trigger_function.
    edestruct (execute_ok cursor
                 (create_or_replace_function_log (cluster_schema cluster)
                    __version__ log_trigger_body))
      as (w2 & E2 & Hv2 & Hc2 & He2 & _); [exact Hv1 | reflexivity |].
    rewrite (bind_inr _ _ _ _ _ E2).
    eexists _, _, _. split; [reflexivity|]. split; [exact Hv2|].
    unfold rows_of. simpl. rewrite Hrows. simpl.
    repeat split; try done; try congruence.
    apply lookup_insert_eq.
  - unfold draw_uuid at 1. unfold bind at 1. unfold set_configuration_value.
    edestruct (execute_ok cursor
                 (insert_configuration (cluster_schema cluster) "node_id"
                    (uuid1 (entropy w1))) (set_entropy (S (entropy w1)) w1))
      as (w2 & E2 & Hv2 & Hc2 & He2 & _); [exact Hv1 | |].
    { simpl. rewrite Hrows, Hnode. reflexivity. }
    rewrite (bind_inr _ _ _ _ _ E2). unfold ret at 1.
    unfold create_log_trigger_function.
    edestruct (execute_ok cursor
                 (create_or_replace_function_log (cluster_schema cluster)
                    __version__ log_trigger_body))
      as (w3 & E3 & Hv3 & Hc3 & He3 & _); [exact Hv2 | reflexivity |].
    rewrite (bind_inr _ _ _ _ _ E3).
    eexists _, _, _. split; [reflexivity|]. split; [exact Hv3|].
    unfold rows_of. simpl. rewrite lookup_insert_eq. simpl.
    rewrite He1.
    repeat split; try done; try congruence.
    + simpl in Hc2. congruence.
    + intros schema Hschema. by rewrite lookup_insert_ne.
    + rewrite lookup_insert_eq. simpl. apply lookup_insert_eq.
    + intros key Hkey. rewrite lookup_insert_eq. simpl.
      by rewrite lookup_insert_ne.
    + simpl in He2. congruence.
Qed.

Lemma setup_database_outcome cluster cursor w db :
  view w cursor = Some db →
  ∃ w' db' node_id,
    setup_database cluster cursor w = (inr node_id, w')
    ∧ view w' cursor = Some db'
    ∧ committed w' = committed w
    ∧ queues db' = queues db
    ∧ triggers db' = triggers db
    ∧ (∀ schema, schema ≠ cluster_schema cluster →
                 configuration db' !! schema = configuration db !! schema)
    ∧ rows_of cluster db' !! "version" = Some __version__
    ∧ rows_of cluster db' !! "node_id" = Some node_id
    ∧ (∀ key, key ≠ "version" → key ≠ "node_id" →
              rows_of cluster db' !! key = rows_of cluster db !! key)
    ∧ match rows_of cluster db !! "node_id" with
      | Some stored => node_id = stored ∧ entropy w' = entropy w
      | None => node_id = uuid1 (entropy w) ∧ entropy w' = S (entropy w)
      end.
Proof.
  intros Hv. unfold setup_database.
  edestruct (execute_ok cursor (create_extension_if_not_exists "pgq"))
    as (w1 & E1 & Hv1 & Hc1 & He1 & _); [exact Hv | reflexivity |].
  rewrite (bind_inr _ _ _ _ _ E1).
  edestruct (execute_ok cursor (create_or_replace_language "plpythonu"))
    as (w2 & E2 & Hv2 & Hc2 & He2 & _); [exact Hv1 | reflexivity |].
  rewrite (bind_inr _ _ _ _ _ E2).
  edestruct (execute_ok cursor (create_schema_if_not_exists (cluster_schema cluster)))
    as (w3 & E3 & Hv3 & Hc3 & He3 & _); [exact Hv2 | reflexivity |].
  rewrite (bind_inr _ _ _ _ _ E3).
  edestruct (execute_ok cursor
               (create_table_if_not_exists_configuration (cluster_schema cluster)))
    as (w4 & E4 & Hv4 & Hc4 & He4 & _); [exact Hv3 | reflexivity |].
  unfold create_configuration_table. rewrite (bind_inr _ _ _ _ _ E4).
  assert (Hc : committed w4 = committed w) by congruence.
  assert (He : entropy w4 = entropy w) by congruence.
  clear E1 E2 E3 E4 Hv Hv1 Hv2 Hv3 Hc1 Hc2 Hc3 Hc4 He1 He2 He3 He4.
  match type of Hv4 with view _ _ = Some ?d => set (db4 := d) in * end.
  assert (Hqueues : queues db4 = queues db) by done.
  assert (Htriggers : triggers db4 = triggers db) by done.
  assert (Hothers : ∀ schema, schema ≠ cluster_schema cluster →
            configuration db4 !! schema = configuration db !! schema).
  { intros schema Hschema. simpl.
    destruct (configuration db !! cluster_schema cluster); [done|].
    by rewrite lookup_insert_ne. }
  assert (Hrows : configuration db4 !! cluster_schema cluster
                  = Some (rows_of cluster db)).
  { unfold rows_of. simpl.
    destruct (configuration db !! cluster_schema cluster) eqn:E;
      [done | apply lookup_insert_eq]. }
  clearbody db4. set (rows := rows_of cluster db) in *.
  destruct (get_configuration_value_ok cluster cursor "version" w4 db4 rows Hv4 Hrows)
    as (w5 & E5 & Hv5 & Hc5 & He5 & _).
  rewrite (bind_inr _ _ _ _ _ E5).
  assert (Hfinish : ∀ w6 db6 rows6,
    view w6 cursor = Some db6 →
    committed w6 = committed w →
    entropy w6 = entropy w →
    queues db6 = queues db →
    triggers db6 = triggers db →
    (∀ schema, schema ≠ cluster_schema cluster →
               configuration db6 !! schema = configuration db !! schema) →
    configuration db6 !! cluster_schema cluster = Some rows6 →
    rows6 !! "version" = Some __version__ →
    (∀ key, key ≠ "version" → rows6 !! key = rows !! key) →
    ∃ w' db' node_id,
      (let* node_id := get_or_set_node_identifier cluster cursor in
       create_log_trigger_function cluster cursor node_id;;;
       ret node_id) w6 = (inr node_id, w')
      ∧ view w' cursor = Some db'
      ∧ committed w' = committed w
      ∧ queues db' = queues db
      ∧ triggers db' = triggers db
      ∧ (∀ schema, schema ≠ cluster_schema cluster →
                   configuration db' !! schema = configuration db !! schema)
      ∧ rows_of cluster db' !! "version" = Some __version__
      ∧ rows_of cluster db' !! "node_id" = Some node_id
      ∧ (∀ key, key ≠ "version" → key ≠ "node_id" →
                rows_of cluster db' !! key = rows !! key)
      ∧ match rows !! "node_id" with
        | Some stored => node_id = stored ∧ entropy w' = entropy w
        | None => node_id = uuid1 (entropy w) ∧ entropy w' = S (entropy w)
        end).
  { intros w6 db6 rows6 Hv6 Hc6 He6 Hq6 Ht6 Ho6 Hrows6 Hversion6 Hkeys6.
    destruct (setup_database_identifier cluster cursor w6 db6 rows6 Hv6 Hrows6)
      as (w' & db' & node_id & E & Hv' & Hc' & Hq' & Ht' & Ho' & _ & Hn' & Hk' & Hd').
    exists w', db', node_id. split; [exact E|]. split; [exact Hv'|].
    split; [congruence|]. split; [congruence|]. split; [congruence|].
    split. { intros schema Hschema. rewrite Ho' by done. by apply Ho6. }
    split. { by rewrite Hk'. }
    split; [exact Hn'|].
    split. { intros key H1 H2. rewrite Hk' by done. by apply Hkeys6. }
    rewrite (Hkeys6 "node_id") in Hd' by done. by rewrite He6 in Hd'. }
  destruct (rows !! "version") as [version|] eqn:Hversion.
  - case_decide as Hne.
    + unfold update_configuration_value.
      edestruct (execute_ok cursor
                   (update_configuration (cluster_schema cluster) "version"
                      __version__))
        as (w6 & E6 & Hv6 & Hc6 & He6 & _); [exact Hv5 | |].
      { simpl. rewrite Hrows. reflexivity. }
      rewrite (bind_inr _ _ _ _ _ E6).
      eapply Hfinish; [exact Hv6 | congruence | congruence | done | done | | | |].
      * intros schema Hschema. simpl. rewrite lookup_insert_ne by done.
        by apply Hothers.
      * simpl. apply lookup_insert_eq.
      * rewrite lookup_alter_eq, Hversion. done.
      * intros key Hkey. by rewrite lookup_alter_ne.
    + subst version.
      unfold ret at 1. unfold bind at 1.
      eapply Hfinish; [exact Hv5 | congruence | congruence | done | done | done
                       | exact Hrows | exact Hversion | done].
  - unfold set_configuration_value.
    edestruct (execute_ok cursor
                 (insert_configuration (cluster_schema cluster) "version"
                    __version__))
      as (w6 & E6 & Hv6 & Hc6 & He6 & _); [exact Hv5 | |].
    { simpl. rewrite Hrows, Hversion. reflexivity. }
    rewrite (bind_inr _ _ _ _ _ E6).
    eapply Hfinish; [exact Hv6 | congruence | congruence | done | done | | | |].
    * intros schema Hschema. simpl. rewrite lookup_insert_ne by done.
      by apply Hothers.
    * simpl. apply lookup_insert_eq.
    * apply lookup_insert_eq.
    * intros key Hkey. by rewrite lookup_insert_ne.
Qed.

(** X21.  [setup_database] succeeds on any open connection, commits nothing
    and leaves queues, triggers and the configuration tables of other
    schemas alone.  Afterwards the row [version] holds the running version
    and the row [node_id] the identifier returned; the other rows are as
    before.  A node that had an identifier keeps it and no UUID is drawn;
    otherwise the identifier is the one UUID drawn. *)
Theorem setup_database_node_identifier cluster cursor w db :
  view w cursor = Some db →
  ∃ w' db' node_id,
    setup_database cluster cursor w = (inr node_id, w')
    ∧ view w' cursor = Some db'
    ∧ committed w' = committed w
    ∧ queues db' = queues db
    ∧ triggers db' = triggers db
    ∧ (∀ schema, schema ≠ cluster_schema cluster →
                 configuration db' !! schema = configuration db !! schema)
    ∧ rows_of cluster db' !! "version" = Some __version__
    ∧ rows_of cluster db' !! "node_id" = Some node_id
    ∧ (∀ key, key ≠ "version" → key ≠ "node_id" →
              rows_of cluster db' !! key = rows_of cluster db !! key)
    ∧ match rows_of cluster db !! "node_id" with
      | Some stored => node_id = stored ∧ entropy w' = entropy w
      | None => node_id = uuid1 (entropy w) ∧ entropy w' = S (entropy w)
      end.
Proof. apply setup_database_outcome. Qed.

(** **** Triggers and queues *)

Lemma set_triggers_triggers db : set_triggers (triggers db) db = db.
Proof. by destruct db. Qed.

Lemma set_triggers_set_triggers t1 t2 db :
  set_triggers t2 (set_triggers t1 db) = set_triggers t2 db.
Proof. done. Qed.




Lemma installed_snoc cluster name configuration tables table triggers :
  installed cluster name configuration (tables ++ [table]) triggers
  = <[trigger_on cluster name (table_key table)
        := log_trigger cluster name configuration table]>
      (installed cluster name configuration tables triggers).
Proof. unfold installed. by rewrite foldl_app. Qed.

Lemma installed_other cluster name configuration tables triggers key :
  (∀ table, table ∈ tables → trigger_on cluster name (table_key table) ≠ key) →
  installed cluster name configuration tables triggers !! key = triggers !! key.
Proof.
  induction tables as [|table tables IH] using rev_ind; intros Hkey; [done|].
  rewrite installed_snoc, lookup_insert_ne.
  - apply IH. intros t Ht. apply Hkey. apply elem_of_app. by left.
  - apply Hkey. apply elem_of_app. right. by apply list_elem_of_singleton.
Qed.

Lemma installed_last cluster name configuration tables triggers i table :
  tables !! i = Some table →
  (∀ j later, i < j → tables !! j = Some later →
              table_key later ≠ table_key table) →
  installed cluster name configuration tables triggers
    !! trigger_on cluster name (table_key table)
  = Some (log_trigger cluster name configuration table).
Proof.
  induction tables as [|last tables IH] using rev_ind; intros Hi Hlater; [done|].
  rewrite installed_snoc.
  destruct (decide (i = length tables)) as [->|Hne].
  - rewrite list_lookup_middle in Hi by done. injection Hi as ->.
    apply lookup_insert_eq.
  - assert (Hlt : i < length tables).
    { apply lookup_lt_Some in Hi. rewrite length_app in Hi. simpl in Hi. lia. }
    rewrite lookup_app_l in Hi by done.
    rewrite lookup_insert_ne.
    + apply IH; [done|]. intros j later Hj Hl. apply (Hlater j); [done|].
      rewrite lookup_app_l; [done|]. by apply lookup_lt_Some in Hl.
    + intros [= Hs Ht]. apply (Hlater (length tables) last); [done| |].
      * by apply list_lookup_middle.
      * unfold table_key. by f_equal.
Qed.







Lemma for_each_map {A B S} (f : A → B) (xs : list A) (body : B → S → M S) s w :
  for_each (map f xs) body s w = for_each xs (λ x, body (f x)) s w.
Proof.
  revert s w. induction xs as [|x xs IH]; intros s w; [done|].
  simpl. unfold bind. destruct (body (f x) s w) as [[e|s'] w']; [done|].
  apply IH.
Qed.

Lemma trigger_on_inj cluster name k1 k2 :
  trigger_on cluster name k1 = trigger_on cluster name k2 → k1 = k2.
Proof. destruct k1, k2. unfold trigger_on. simpl. by intros [= -> ->]. Qed.

Lemma dropped_cons cluster name key keys triggers :
  dropped cluster name (key :: keys) triggers
  = dropped cluster name keys (delete (trigger_on cluster name key) triggers).
Proof. done. Qed.

Lemma dropped_lookup cluster name keys triggers key :
  dropped cluster name keys triggers !! trigger_on cluster name key
  = if decide (key ∈ keys) then None else triggers !! trigger_on cluster name key.
Proof.
  revert triggers. induction keys as [|first rest IH]; intros triggers.
  - rewrite decide_False; [done|]. by intros ?%elem_of_nil.
  - rewrite dropped_cons, IH.
    destruct (decide (key ∈ rest)) as [Hin|Hout].
    + by rewrite decide_True by by right.
    + destruct (decide (key = first)) as [->|Hne].
      * rewrite decide_True by by left. apply lookup_delete_eq.
      * rewrite decide_False by by intros [?|?]%elem_of_cons.
        apply lookup_delete_ne. by intros ?%trigger_on_inj.
Qed.

Lemma dropped_other cluster name keys triggers key :
  (∀ k, k ∈ keys → trigger_on cluster name k ≠ key) →
  dropped cluster name keys triggers !! key = triggers !! key.
Proof.
  revert triggers. induction keys as [|first rest IH]; intros triggers Hkey;
    [done|].
  rewrite dropped_cons, IH.
  - apply lookup_delete_ne. apply Hkey. by left.
  - intros k Hk. apply Hkey. by right.
Qed.



Lemma unconfigure_set_unfold cluster cursor name configuration w :
  unconfigure_set cluster cursor name configuration w
  = (execute cursor (pgq_drop_queue (get_queue_name cluster name));;;
     drop_loop cluster cursor name (map table_key (tables configuration))) w.
Proof.
  unfold unconfigure_set, bind.
  destruct (execute cursor (pgq_drop_queue (get_queue_name cluster name)) w)
    as [[e|[]] w1]; [done|].
  unfold drop_loop. by rewrite for_each_map.
Qed.







(** **** Creating and dropping a set on one database *)

Lemma check_version_ok cluster w revision :
  cluster_node (zookeeper w) = Some ({| version := __version__ |}, revision) →
  check_version cluster w
  = (inr [check cluster_path revision],
     set_trace (trace w ++ [store_read cluster_path; store_transaction_started]) w).
Proof.
  intros Hnode.
  unfold check_version, bind, zookeeper_get_cluster, bind, log, get_world,
    zookeeper_transaction, bind, log, ret. simpl. rewrite Hnode. simpl.
  rewrite decide_True by done. unfold set_trace. simpl.
  by rewrite <- app_assoc.
Qed.

Lemma execute_session cursor s w db db' events :
  cursor < length (connections w) →
  apply_statement s db = inr db' →
  execute cursor s (in_session cursor db events w)
  = (inr tt, in_session cursor db' (events ++ [executed cursor s]) w).
Proof.
  intros Hc Hs.
  rewrite (execute_in_session cursor s _ db db'
             (view_in_session cursor db events w Hc) Hs).
  by rewrite in_session_in_session.
Qed.

Lemma create_trigger_session cluster cursor name configuration trigger schema
  table primary_keys columns w db events :
  cursor < length (connections w) →
  ∃ events',
    create_trigger cluster cursor name configuration trigger schema table
      primary_keys columns (in_session cursor db events w)
    = (inr tt,
       in_session cursor
         (set_triggers
            (<[(trigger, schema, table)
                 := {| trigger_columns := columns;
                       trigger_arguments :=
                         (get_queue_name cluster name,
                          pickle_dumps primary_keys, pickle_dumps columns,
                          get_version configuration) |}]> (triggers db)) db)
         (events ++ events') w).
Proof.
  intros Hc. unfold create_trigger.
  rewrite (bind_inr _ _ _ _ _
             (execute_session cursor
                (drop_trigger_if_exists trigger schema table) w db _ events
                Hc eq_refl)).
  eexists [_; _].
  erewrite execute_session;
    [| exact Hc | simpl; rewrite lookup_delete_eq; reflexivity].
  rewrite <- app_assoc. simpl. do 3 f_equal.
  unfold set_triggers. simpl. by rewrite insert_delete_eq.
Qed.

Lemma setup_triggers_session cluster cursor name configuration
  (tables : list TableConfiguration) w db events :
  cursor < length (connections w) →
  ∃ events',
    for_each tables
      (λ table _,
         let primary_keys := Utilities.unique (primary_keys table) in
         create_trigger cluster cursor name configuration
           (get_trigger_name cluster name)
           (table_schema table) (table_name table) primary_keys
           (Utilities.unique (primary_keys ++ columns table)))
      tt (in_session cursor db events w)
    = (inr tt,
       in_session cursor
         (set_triggers
            (installed cluster name configuration tables (triggers db)) db)
         (events ++ events') w).
Proof.
  intros Hc. revert db events.
  induction tables as [|table rest IH]; intros db events.
  - exists []. simpl. unfold ret. by rewrite app_nil_r, set_triggers_triggers.
  - rewrite for_each_cons.
    edestruct create_trigger_session as (events1 & Hstep); [exact Hc|].
    rewrite (bind_inr _ _ _ _ _ Hstep).
    edestruct IH as (events2 & Hrest). rewrite Hrest.
    exists (events1 ++ events2). by rewrite <- app_assoc.
Qed.

Lemma configure_set_session cluster cursor name configuration w db :
  view w cursor = Some db →
  ∃ events,
    configure_set cluster cursor name configuration None w
    = (inr tt, in_session cursor (with_set cluster name configuration db) events w).
Proof.
  intros Hv. pose proof (view_valid _ _ _ Hv) as Hc. unfold configure_set.
  rewrite (bind_inr _ _ _ _ _
             (execute_in_session cursor
                (pgq_create_queue (get_queue_name cluster name)) w db _ Hv
                eq_refl)).
  edestruct (setup_triggers_session cluster cursor name configuration
               (tables configuration) w) as (events & Hsetup); [exact Hc|].
  unfold setup_triggers. rewrite (bind_inr _ _ _ _ _ Hsetup).
  by eexists.
Qed.

Lemma drop_loop_session cluster cursor name keys w db events :
  cursor < length (connections w) →
  NoDup keys →
  (∀ key, key ∈ keys → is_Some (triggers db !! trigger_on cluster name key)) →
  ∃ events',
    drop_loop cluster cursor name keys (in_session cursor db events w)
    = (inr tt,
       in_session cursor
         (set_triggers (dropped cluster name keys (triggers db)) db)
         (events ++ events') w).
Proof.
  intros Hc. revert db events.
  induction keys as [|[schema table] rest IH]; intros db events Hnodup Hall.
  - exists []. unfold drop_loop. simpl. unfold ret.
    by rewrite app_nil_r, set_triggers_triggers.
  - apply NoDup_cons in Hnodup as [Hhead Hnodup].
    destruct (Hall (schema, table)) as [trigger Htrigger]; [by left|].
    unfold drop_loop. rewrite for_each_cons. unfold drop_trigger.
    erewrite (bind_inr _ _ _ _ _); cycle 1.
    { apply execute_session; [exact Hc|]. simpl.
      unfold trigger_on in Htrigger. simpl in Htrigger.
      rewrite Htrigger. reflexivity. }
    edestruct (IH (set_triggers
                     (delete (trigger_on cluster name (schema, table))
                        (triggers db)) db))
      as (events' & Hrest); [exact Hnodup| |].
    { intros key Hkey. destruct (Hall key) as [t Ht]; [by right|].
      exists t. simpl. apply lookup_delete_Some. split; [|done].
      intros ?%trigger_on_inj. by subst. }
    unfold drop_loop in Hrest. rewrite Hrest.
    eexists (_ :: events'). by rewrite <- app_assoc.
Qed.

Lemma unconfigure_set_session cluster cursor name configuration w db :
  view w cursor = Some db →
  get_queue_name cluster name ∈ queues db →
  NoDup (map table_key (tables configuration)) →
  (∀ key, key ∈ map table_key (tables configuration) →
          is_Some (triggers db !! trigger_on cluster name key)) →
  ∃ events,
    unconfigure_set cluster cursor name configuration w
    = (inr tt,
       in_session cursor (without_set cluster name configuration db) events w).
Proof.
  intros Hv Hqueue Hnodup Hall. pose proof (view_valid _ _ _ Hv) as Hc.
  rewrite unconfigure_set_unfold.
  assert (E1 : execute cursor (pgq_drop_queue (get_queue_name cluster name)) w
               = (inr tt,
                  in_session cursor
                    (set_queues (queues db ∖ {[get_queue_name cluster name]}) db)
                    [executed cursor
                       (pgq_drop_queue (get_queue_name cluster name))] w)).
  { apply (execute_in_session _ _ _ db); [exact Hv|].
    unfold apply_statement. rewrite decide_True by done. reflexivity. }
  rewrite (bind_inr _ _ _ _ _ E1).
  destruct (drop_loop_session cluster cursor name
              (map table_key (tables configuration)) w
              (set_queues (queues db ∖ {[get_queue_name cluster name]}) db)
              [executed cursor (pgq_drop_queue (get_queue_name cluster name))]
              Hc Hnodup Hall) as (events & Hdrop).
  rewrite Hdrop. by eexists.
Qed.

(** The commit phase over one open transaction. *)
Lemma managed_commit_session connection name db events w conn ztransaction :
  connections w !! connection = Some conn →
  let t := {| transaction_connection := connection; transaction_name := name |} in
  let outcome :=
    managed [t] (commit ztransaction) (in_session connection db events w) in
  servers outcome.2 = servers w
  ∧ match apply_operations ztransaction (zookeeper w) with
    | Some z =>
        outcome.1 = inr tt
        ∧ zookeeper outcome.2 = z
        ∧ committed outcome.2 = <[connection_server conn := db]> (committed w)
    | None =>
        outcome.1 = inl TransactionFailed
        ∧ zookeeper outcome.2 = zookeeper w
        ∧ committed outcome.2 = committed w
    end.
Proof.
  intros Hconn t outcome. subst outcome.
  assert (Hc : connections (in_session connection db events w) !! connection
               = Some (set_pending (Some db) conn)).
  { unfold in_session. simpl. by rewrite list_lookup_alter_eq, Hconn. }
  unfold managed, bind, try, commit.
  change (zookeeper (in_session connection db events w)) with (zookeeper w).
  destruct (apply_operations ztransaction (zookeeper w)) as [z|]; simpl.
  - unfold bind, Transaction_commit, end_transaction. simpl.
    rewrite list_lookup_alter_eq, Hconn. simpl. done.
  - unfold bind, Transaction_rollback, end_transaction. simpl.
    rewrite list_lookup_alter_eq, Hconn. simpl. done.
Qed.

Lemma get_managed_databases_single cluster dsn server configure skip_inaccessible
  same_version w rows node_id :
  (same_version = true → cluster_at_running_version w) →
  servers w !! dsn = Some server →
  configuration (instance w server) !! cluster_schema cluster = Some rows →
  rows !! "node_id" = Some node_id →
  rows !! "version" = Some __version__ →
  get_managed_databases cluster [dsn] configure skip_inaccessible same_version w
  = (inr {[ node_id := length (connections w) ]},
     probed cluster same_version dsn server w).
Proof.
  intros Hcluster Hserver Hrows Hnode Hversion.
  destruct (get_managed_databases_started cluster dsn [] configure
              skip_inaccessible same_version w Hcluster) as (ztransaction & ->).
  rewrite for_each_cons.
  pose proof (get_managed_databases_body_configured cluster configure
                skip_inaccessible (randint (entropy w)) dsn ∅ []
                (started same_version w) server rows node_id
                Hserver Hrows Hnode) as Hbody.
  cbv zeta in Hbody. rewrite Hversion in Hbody. simpl str in Hbody.
  rewrite decide_True in Hbody by done. rewrite lookup_empty in Hbody.
  rewrite (bind_inr _ _ _ _ _ (bind_inr _ _ _ _ _ Hbody)).
  unfold for_each, ret, bind. by rewrite insert_empty.
Qed.

Lemma values_singleton (node_id : string) (connection : nat) :
  values ({[ node_id := connection ]} : gmap string nat) = [connection].
Proof. unfold values. by rewrite map_to_list_singleton. Qed.

Lemma create_set_single_outcome cluster name configuration dsn server w :
  valid configuration →
  databases configuration = [ {| dsn := dsn |} ] →
  set_up cluster w dsn server →
  cluster_at_running_version w →
  is_Some (sets_node (zookeeper w)) →
  let db := instance w server in
  let outcome := create_set cluster name configuration w in
  servers outcome.2 = servers w
  ∧ cluster_node (zookeeper outcome.2) = cluster_node (zookeeper w)
  ∧ sets_node (zookeeper outcome.2) = sets_node (zookeeper w)
  ∧ match set_nodes (zookeeper w) !! name with
    | None =>
        outcome.1 = inr tt
        ∧ set_nodes (zookeeper outcome.2)
          = <[name := (configuration, 0%Z)]> (set_nodes (zookeeper w))
        ∧ committed outcome.2
          = <[server := with_set cluster name configuration db]> (committed w)
    | Some _ =>
        outcome.1 = inl TransactionFailed
        ∧ set_nodes (zookeeper outcome.2) = set_nodes (zookeeper w)
        ∧ committed outcome.2 = committed w
    end.
Proof.
  intros Hvalid Hdatabases (Hserver & rows & Hrows & [node_id Hnode] & Hversion)
    [revision Hcluster] [sets_revision Hsets] db outcome.
  subst outcome. unfold create_set.
  destruct (validate_set_configuration_outcome configuration w) as [Hw Hr].
  apply Hr in Hvalid.
  rewrite (bind_inr _ _ w tt w); cycle 1.
  { destruct (validate_set_configuration configuration w) as [r w0].
    simpl in *. by subst. }
  rewrite Hdatabases. simpl map.
  rewrite (bind_inr _ _ _ _ _
             (get_managed_databases_single cluster dsn server true false true w
                rows node_id ltac:(by eexists) Hserver Hrows Hnode Hversion)).
  set (W1 := probed cluster true dsn server w).
  rewrite (bind_inr _ _ _ _ _ (check_version_ok cluster W1 revision Hcluster)).
  set (W2 := set_trace _ W1).
  rewrite values_singleton.
  set (connection := length (connections w)).
  set (t := {| transaction_connection := connection;
               transaction_name := "create-set:" ++ name |}).
  set (W3 := set_trace (trace W2 ++ [transaction_began t]) W2).
  assert (Hconn : connections W3 !! connection
                  = Some {| connection_dsn := dsn; connection_server := server;
                            pending := None |})
    by apply lookup_snoc_length.
  assert (Hview : view W3 connection = Some db).
  { unfold view. rewrite Hconn. done. }
  destruct (configure_set_session cluster connection name configuration W3 db Hview)
    as (events & Hconfigure).
  assert (Htransactions :
    in_transactions [connection] ("create-set:" ++ name)
      (λ connection, configure_set cluster connection name configuration None)
      [] W2
    = (inr [t],
       in_session connection (with_set cluster name configuration db) events W3)).
  { unfold in_transactions. rewrite for_each_cons.
    unfold bind at 1. unfold bind at 1.
    change (Transaction_init connection ("create-set:" ++ name) W2)
      with (@inr Exception Transaction t, W3).
    cbv beta iota. unfold bind at 1. rewrite Hconfigure. done. }
  rewrite (bind_inr _ _ _ _ _ Htransactions).
  destruct (managed_commit_session connection ("create-set:" ++ name)
              (with_set cluster name configuration db) events W3 _
              ([check cluster_path revision]
                 ++ [create (set_path name) (set_data_of configuration)])
              Hconn) as (Hservers & Houtcome).
  fold t in Hservers, Houtcome.
  change (zookeeper W3) with (zookeeper w) in Houtcome.
  simpl apply_operations in Houtcome. rewrite Hcluster in Houtcome.
  rewrite decide_True in Houtcome by done. simpl in Houtcome.
  rewrite Hsets in Houtcome.
  split; [exact Hservers|].
  destruct (set_nodes (zookeeper w) !! name) as [node|] eqn:Hname;
    simpl in Houtcome.
  - destruct Houtcome as (H1 & H2 & H3).
    split; [exact (f_equal cluster_node H2)|].
    split; [exact (f_equal sets_node H2)|].
    split; [exact H1|]. split; [exact (f_equal set_nodes H2) | exact H3].
  - destruct Houtcome as (H1 & H2 & H3).
    split; [exact (f_equal cluster_node H2)|].
    split; [etrans; [exact (f_equal sets_node H2) | by symmetry]|].
    split; [exact H1|]. split; [exact (f_equal set_nodes H2) | exact H3].
Qed.

Lemma fetch_sets_found cluster name node w :
  has_at_sign name = false →
  set_nodes (zookeeper w) !! name = Some node →
  fetch_sets cluster (Some [name]) w
  = (inr [(name, node)],
     set_trace (trace w ++ [store_read (set_path name)]) w).
Proof.
  intros Hplain Hnode. rewrite fetch_sets_unfold.
  change (zip (map expand [name]) (map set_name (map expand [name])))
    with [(expand name, set_name (expand name))].
  rewrite answers_loop_cons. unfold reads, expand. simpl.
  rewrite (split_at_sign_plain _ Hplain). simpl. rewrite Hnode.
  by destruct node.
Qed.

Lemma drop_set_single_outcome cluster name configuration revision dsn server
  allow_forced_removal w :
  has_at_sign name = false →
  set_nodes (zookeeper w) !! name = Some (configuration, revision) →
  databases configuration = [ {| dsn := dsn |} ] →
  set_up cluster w dsn server →
  cluster_at_running_version w →
  let db := instance w server in
  get_queue_name cluster name ∈ queues db →
  NoDup (map table_key (tables configuration)) →
  (∀ key, key ∈ map table_key (tables configuration) →
          is_Some (triggers db !! trigger_on cluster name key)) →
  let outcome := drop_set cluster name allow_forced_removal w in
  outcome.1 = inr tt
  ∧ servers outcome.2 = servers w
  ∧ cluster_node (zookeeper outcome.2) = cluster_node (zookeeper w)
  ∧ sets_node (zookeeper outcome.2) = sets_node (zookeeper w)
  ∧ set_nodes (zookeeper outcome.2) = delete name (set_nodes (zookeeper w))
  ∧ committed outcome.2
    = <[server := without_set cluster name configuration db]> (committed w).
Proof.
  intros Hplain Hset Hdatabases
    (Hserver & rows & Hrows & [node_id Hnode] & Hversion)
    [cluster_revision Hcluster] db Hqueue Hnodup Htriggers outcome.
  subst outcome. unfold drop_set.
  rewrite (bind_inr _ _ _ _ _ (fetch_sets_found cluster name _ w Hplain Hset)).
  set (W0 := set_trace _ w).
  rewrite Hdatabases. simpl map.
  rewrite (bind_inr _ _ _ _ _
             (get_managed_databases_single cluster dsn server false
                allow_forced_removal true W0 rows node_id
                ltac:(by eexists) Hserver Hrows Hnode Hversion)).
  set (W1 := probed cluster true dsn server W0).
  rewrite (bind_inr _ _ _ _ _
             (check_version_ok cluster W1 cluster_revision Hcluster)).
  set (W2 := set_trace _ W1).
  rewrite values_singleton.
  set (connection := length (connections W0)).
  set (t := {| transaction_connection := connection;
               transaction_name := "drop-set:" ++ name |}).
  set (W3 := set_trace (trace W2 ++ [transaction_began t]) W2).
  assert (Hconn : connections W3 !! connection
                  = Some {| connection_dsn := dsn; connection_server := server;
                            pending := None |})
    by apply lookup_snoc_length.
  assert (Hview : view W3 connection = Some db).
  { unfold view. rewrite Hconn. done. }
  destruct (unconfigure_set_session cluster connection name configuration W3 db
              Hview Hqueue Hnodup Htriggers) as (events & Hunconfigure).
  assert (Htransactions :
    in_transactions [connection] ("drop-set:" ++ name)
      (λ connection, unconfigure_set cluster connection name configuration)
      [] W2
    = (inr [t],
       in_session connection (without_set cluster name configuration db)
         events W3)).
  { unfold in_transactions. rewrite for_each_cons.
    unfold bind at 1. unfold bind at 1.
    change (Transaction_init connection ("drop-set:" ++ name) W2)
      with (@inr Exception Transaction t, W3).
    cbv beta iota. unfold bind at 1. rewrite Hunconfigure. done. }
  rewrite (bind_inr _ _ _ _ _ Htransactions).
  destruct (managed_commit_session connection ("drop-set:" ++ name)
              (without_set cluster name configuration db) events W3 _
              ([check cluster_path cluster_revision]
                 ++ [delete_node (set_path name) revision])
              Hconn) as (Hservers & Houtcome).
  fold t in Hservers, Houtcome.
  change (zookeeper W3) with (zookeeper w) in Houtcome.
  simpl apply_operations in Houtcome. rewrite Hcluster in Houtcome.
  rewrite decide_True in Houtcome by done. simpl in Houtcome.
  rewrite Hset in Houtcome. rewrite decide_True in Houtcome by done.
  simpl in Houtcome. destruct Houtcome as (H1 & H2 & H3).
  split; [exact H1|]. split; [exact Hservers|].
  split; [exact (f_equal cluster_node H2)|].
  split; [exact (f_equal sets_node H2)|].
  split; [exact (f_equal set_nodes H2) | exact H3].
Qed.

(** X27.  [create_set] of a valid configuration with one database, reachable
    and set up by the running version, on a cluster at the running version.
    When no set of that name exists it succeeds: ZooKeeper gains the node of
    the set, at revision 0, and what is committed on the database gains the
    queue and the log triggers of the set; nothing else changes.  When the
    name is taken, the ZooKeeper transaction is refused, the Postgres
    transaction is rolled back, and the nodes of ZooKeeper and everything
    committed are as before. *)
Theorem create_set_single cluster name configuration dsn server w :
  valid configuration →
  databases configuration = [ {| dsn := dsn |} ] →
  set_up cluster w dsn server →
  cluster_at_running_version w →
  is_Some (sets_node (zookeeper w)) →
  let db := instance w server in
  let outcome := create_set cluster name configuration w in
  servers outcome.2 = servers w
  ∧ cluster_node (zookeeper outcome.2) = cluster_node (zookeeper w)
  ∧ sets_node (zookeeper outcome.2) = sets_node (zookeeper w)
  ∧ match set_nodes (zookeeper w) !! name with
    | None =>
        outcome.1 = inr tt
        ∧ set_nodes (zookeeper outcome.2)
          = <[name := (configuration, 0%Z)]> (set_nodes (zookeeper w))
        ∧ committed outcome.2
          = <[server := with_set cluster name configuration db]> (committed w)
    | Some _ =>
        outcome.1 = inl TransactionFailed
        ∧ set_nodes (zookeeper outcome.2) = set_nodes (zookeeper w)
        ∧ committed outcome.2 = committed w
    end.
Proof. apply create_set_single_outcome. Qed.

(** X28.  [drop_set] of a set with one database, reachable and set up by the
    running version, whose queue and triggers are in place and whose tables
    are listed once each, succeeds: the node of the set is deleted from
    ZooKeeper and what is committed on the database loses the queue and the
    triggers of the set; nothing else changes. *)
Theorem drop_set_single cluster name configuration revision dsn server
  allow_forced_removal w :
  has_at_sign name = false →
  set_nodes (zookeeper w) !! name = Some (configuration, revision) →
  databases configuration = [ {| dsn := dsn |} ] →
  set_up cluster w dsn server →
  cluster_at_running_version w →
  let db := instance w server in
  get_queue_name cluster name ∈ queues db →
  NoDup (map table_key (tables configuration)) →
  (∀ key, key ∈ map table_key (tables configuration) →
          is_Some (triggers db !! trigger_on cluster name key)) →
  let outcome := drop_set cluster name allow_forced_removal w in
  outcome.1 = inr tt
  ∧ servers outcome.2 = servers w
  ∧ cluster_node (zookeeper outcome.2) = cluster_node (zookeeper w)
  ∧ sets_node (zookeeper outcome.2) = sets_node (zookeeper w)
  ∧ set_nodes (zookeeper outcome.2) = delete name (set_nodes (zookeeper w))
  ∧ committed outcome.2
    = <[server := without_set cluster name configuration db]> (committed w).
Proof. apply drop_set_single_outcome. Qed.

Lemma installed_present cluster name configuration tables triggers key :
  NoDup (map table_key tables) →
  key ∈ map table_key tables →
  is_Some (installed cluster name configuration tables triggers
             !! trigger_on cluster name key).
Proof.
  intros Hnodup (table & -> & Htable)%list_elem_of_fmap.
  destruct (list_elem_of_lookup_1 _ _ Htable) as [i Hi].
  eexists. eapply installed_last; [exact Hi|].
  intros j later Hlt Hj Heq.
  assert (Hi' : map table_key tables !! i = Some (table_key table))
    by (by rewrite list_lookup_fmap, Hi).
  assert (Hj' : map table_key tables !! j = Some (table_key table))
    by (rewrite list_lookup_fmap, Hj; simpl; by rewrite Heq).
  pose proof (NoDup_lookup _ _ _ _ Hnodup Hi' Hj'). lia.
Qed.

(** X29.  [create_set] followed by [drop_set] of the same name, for one
    database set up by the running version, tables listed once each and a
    name not taken before: both succeed, ZooKeeper is exactly as it was
    before, and what is committed on the database differs from before only
    in that the queue of the set and the triggers of the set on its tables
    are absent. *)
Theorem create_set_then_drop_set cluster name configuration dsn server
  allow_forced_removal w :
  has_at_sign name = false →
  valid configuration →
  databases configuration = [ {| dsn := dsn |} ] →
  NoDup (map table_key (tables configuration)) →
  set_up cluster w dsn server →
  cluster_at_running_version w →
  is_Some (sets_node (zookeeper w)) →
  set_nodes (zookeeper w) !! name = None →
  let db := instance w server in
  ∃ w1 w2 db',
    create_set cluster name configuration w = (inr tt, w1)
    ∧ drop_set cluster name allow_forced_removal w1 = (inr tt, w2)
    ∧ zookeeper w2 = zookeeper w
    ∧ servers w2 = servers w
    ∧ committed w2 = <[server := db']> (committed w)
    ∧ Administration.configuration db' = Administration.configuration db
    ∧ functions db' = functions db
    ∧ queues db' = queues db ∖ {[get_queue_name cluster name]}
    ∧ (∀ key, key ∈ map table_key (tables configuration) →
              triggers db' !! trigger_on cluster name key = None)
    ∧ (∀ key, (∀ k, k ∈ map table_key (tables configuration) →
                    trigger_on cluster name k ≠ key) →
              triggers db' !! key = triggers db !! key).
Proof.
  intros Hplain Hvalid Hdatabases Hnodup Hsetup Hcluster Hsets Hname db.
  pose proof (create_set_single_outcome cluster name configuration dsn server w
                Hvalid Hdatabases Hsetup Hcluster Hsets) as Hcreate.
  cbv zeta in Hcreate. rewrite Hname in Hcreate.
  destruct Hcreate as (Hs1 & Hc1 & Hn1 & Hr1 & Hz1 & Hd1).
  set (w1 := (create_set cluster name configuration w).2) in *.
  assert (Hinstance : instance w1 server = with_set cluster name configuration db).
  { unfold instance. by rewrite Hd1, lookup_insert_eq. }
  assert (Hsetup1 : set_up cluster w1 dsn server).
  { destruct Hsetup as (Hserver & rows & Hrows & Hnode & Hversion).
    split; [by rewrite Hs1|]. exists rows. by rewrite Hinstance. }
  assert (Hcluster1 : cluster_at_running_version w1).
  { destruct Hcluster as [revision Hcluster]. exists revision. by rewrite Hc1. }
  pose proof (drop_set_single_outcome cluster name configuration 0%Z dsn server
                allow_forced_removal w1 Hplain
                ltac:(by rewrite Hz1, lookup_insert_eq) Hdatabases Hsetup1
                Hcluster1) as Hdrop.
  cbv zeta in Hdrop. rewrite Hinstance in Hdrop.
  destruct Hdrop as (Hr2 & Hs2 & Hc2 & Hn2 & Hz2 & Hd2).
  { simpl. set_solver. }
  { exact Hnodup. }
  { intros key Hkey. simpl. by apply installed_present. }
  set (w2 := (drop_set cluster name allow_forced_removal w1).2) in *.
  exists w1, w2,
    (without_set cluster name configuration
       (with_set cluster name configuration db)).
  split. { rewrite <- Hr1. apply surjective_pairing. }
  split. { rewrite <- Hr2. apply surjective_pairing. }
  split.
  { destruct (zookeeper w2) as [c2 s2 n2], (zookeeper w) as [c0 s0 n0] eqn:Hz0.
    simpl in *. rewrite Hc2, Hn2, Hz2, Hc1, Hn1, Hz1. f_equal.
    by apply delete_insert_id. }
  split; [congruence|].
  split. { by rewrite Hd2, Hd1, insert_insert_eq. }
  split; [done|]. split; [done|]. split.
  { simpl. set_solver. }
  split.
  - intros key Hkey. simpl. rewrite dropped_lookup. by rewrite decide_True.
  - intros key Hkey. simpl. rewrite dropped_other by done.
    apply installed_other. intros table Htable. apply Hkey.
    apply list_elem_of_fmap. by exists table.
Qed.

(** **** Setting up a node that has not been configured *)

Lemma in_place_refl w : in_place w w.
Proof. by repeat split. Qed.

Lemma in_place_trans w1 w2 w3 :
  in_place w1 w2 → in_place w2 w3 → in_place w1 w3.
Proof.
  intros (A1 & A2 & A3 & A4 & A5) (B1 & B2 & B3 & B4 & B5).
  repeat split; congruence.
Qed.

Lemma statements_only_ret {A} (a : A) : statements_only (ret a).
Proof. intros w. apply in_place_refl. Qed.

Lemma statements_only_raise {A} e : statements_only (@raise A e).
Proof. intros w. apply in_place_refl. Qed.

Lemma statements_only_bind {A B} (m : M A) (k : A → M B) :
  statements_only m → (∀ a, statements_only (k a)) → statements_only (bind m k).
Proof.
  intros Hm Hk w. unfold bind. specialize (Hm w).
  destruct (m w) as [[e|a] w']; [done|].
  eapply in_place_trans; [exact Hm | apply Hk].
Qed.

Lemma statements_only_get_world : statements_only get_world.
Proof. intros w. apply in_place_refl. Qed.

Lemma statements_only_assert b a : statements_only (assert b a).
Proof. destruct b; [apply statements_only_ret | apply statements_only_raise]. Qed.

Lemma statements_only_draw_uuid : statements_only draw_uuid.
Proof. by intros w. Qed.

Lemma statements_only_execute cursor s : statements_only (execute cursor s).
Proof.
  intros w. unfold execute.
  destruct (connections w !! cursor) as [conn|] eqn:Hconn;
    [|apply in_place_refl].
  destruct (apply_statement _ _); [by repeat split|].
  repeat split. simpl.
  change (map connection_server) with (fmap (M := list) connection_server).
  rewrite list_fmap_insert. apply list_insert_id.
  by rewrite list_lookup_fmap, Hconn.
Qed.

Lemma statements_only_get_configuration_value cluster cursor key :
  statements_only (get_configuration_value cluster cursor key).
Proof.
  apply statements_only_bind; [apply statements_only_execute|]. intros _.
  apply statements_only_bind;
    [apply statements_only_get_world | intros; apply statements_only_ret].
Qed.

Lemma statements_only_get_or_set_node_identifier cluster cursor :
  statements_only (get_or_set_node_identifier cluster cursor).
Proof.
  apply statements_only_bind; [apply statements_only_get_configuration_value|].
  intros [node_id|]; [apply statements_only_ret|].
  apply statements_only_bind; [apply statements_only_draw_uuid|]. intros node_id.
  apply statements_only_bind;
    [apply statements_only_execute | intros; apply statements_only_ret].
Qed.

Lemma statements_only_setup_database cluster cursor :
  statements_only (setup_database cluster cursor).
Proof.
  unfold setup_database.
  repeat (apply statements_only_bind; [apply statements_only_execute | intros _]).
  apply statements_only_bind; [apply statements_only_get_configuration_value|].
  intros version. apply statements_only_bind.
  { destruct version; [case_decide|];
      first [apply statements_only_execute | apply statements_only_ret]. }
  intros _.
  apply statements_only_bind; [apply statements_only_get_or_set_node_identifier|].
  intros node_id.
  apply statements_only_bind;
    [apply statements_only_execute | intros; apply statements_only_ret].
Qed.

(** A statement that succeeded has left a transaction open. *)
Lemma execute_pending cursor s w w' :
  execute cursor s w = (inr tt, w') →
  ∃ conn db, connections w' !! cursor = Some conn ∧ pending conn = Some db.
Proof.
  unfold execute. destruct (connections w !! cursor) as [conn|] eqn:Hconn; [|done].
  destruct (apply_statement _ _) as [e|db]; [done|]. intros [= <-]. simpl.
  exists (set_pending (Some db) conn), db. split; [|done].
  apply list_lookup_insert_eq. by eapply lookup_lt_Some.
Qed.

Lemma setup_database_pending cluster cursor w node_id w' :
  setup_database cluster cursor w = (inr node_id, w') →
  ∃ conn db, connections w' !! cursor = Some conn ∧ pending conn = Some db.
Proof.
  unfold setup_database. intros Hrun.
  do 7 (apply bind_success in Hrun as (? & ? & _ & Hrun)).
  unfold create_log_trigger_function in Hrun.
  apply bind_success in Hrun as ([] & w6 & Hexecute & [= _ <-]).
  by eapply execute_pending.
Qed.

(** The turn of the loop of [get_managed_databases] for a DSN that leads to
    a node without the configuration table, up to the advisory lock: the
    probe fails, the connection is rolled back, the setup transaction is
    opened and the lock is asked for. *)
Lemma get_managed_databases_body_unconfigured cluster skip_inaccessible lock_id
  dsn server nodes transactions w :
  servers w !! dsn = Some server →
  configuration (instance w server) !! cluster_schema cluster = None →
  let connection := length (connections w) in
  let t := {| transaction_connection := connection;
              transaction_name := "setup-database" |} in
  get_managed_databases_body cluster true skip_inaccessible lock_id dsn
    (nodes, transactions) w
  = (let* (node_id, transactions) :=
       (let* acquired := take_advisory_lock connection lock_id in
        assert acquired (could_not_take_out_advisory_lock connection);;;
        let* node_id := setup_database cluster connection in
        ret (node_id, transactions ++ [t])) in
     match nodes !! node_id with
     | Some other =>
         raise (AssertionError (found_duplicate_node connection other))
     | None => ret (<[node_id := connection]> nodes, transactions)
     end) (asked cluster lock_id dsn server w).
Proof.
  intros Hserver Hrows connection t.
  unfold get_managed_databases_body.
  rewrite (bind_inr _ _ _ _ _ (try_inr _ _ _ _ (connect_accessible _ _ _ Hserver))).
  fold connection.
  set (W0 := set_trace _ (set_connections _ w)).
  assert (Hc0 : connections W0 !! connection
                = Some {| connection_dsn := dsn; connection_server := server;
                          pending := None |})
    by apply lookup_snoc_length.
  assert (Hprobe :
    (let* node_id := get_node_identifier cluster connection in
     match node_id with
     | Some node_id => ret node_id
     | None => raise (AssertionError node_id_is_none)
     end) W0
    = (inl ProgrammingError,
       set_trace
         (trace W0
            ++ [executed connection
                  (select_configuration (cluster_schema cluster) "node_id")])
         W0)).
  { unfold get_node_identifier, get_configuration_value.
    erewrite (bind_inl _ _ _ _ _); [reflexivity|].
    erewrite (bind_inl _ _ _ _ _); [reflexivity|].
    apply (execute_refused _ _ _ _ _ Hc0). simpl.
    change (instance W0 server) with (instance w server). by rewrite Hrows. }
  rewrite (bind_inr _ _ _ _ _ (try_inl _ _ _ _ Hprobe)).
  set (W1 := set_trace _ W0).
  cbv beta iota. change (negb true) with false. cbv iota.
  unfold bind at 1.
  assert (Hrollback :
    connection_rollback connection W1
    = (inr tt, set_trace (trace W1 ++ [connection_rolled_back connection]) W1)).
  { unfold connection_rollback, end_transaction.
    change (connections W1) with (connections W0). rewrite Hc0. simpl.
    do 2 f_equal. unfold set_connections. simpl. f_equal.
    unfold connection. by rewrite insert_snoc_length. }
  rewrite (bind_inr _ _ _ _ _ Hrollback).
  set (W2 := set_trace _ W1).
  unfold bind at 1.
  change (Transaction_init connection "setup-database" W2)
    with (@inr Exception Transaction t,
          set_trace (trace W2 ++ [transaction_began t]) W2).
  cbv beta iota.
  set (W3 := set_trace _ W2).
  unfold bind at 1. unfold pg_try_advisory_lock.
  assert (Hlock :
    execute connection (select_pg_try_advisory_lock lock_id) W3
    = (inr tt, asked cluster lock_id dsn server w)).
  { unfold execute. change (connections W3) with (connections W0).
    rewrite Hc0. simpl. do 2 f_equal.
    unfold asked, set_connections, set_trace. simpl. f_equal.
    - unfold connection. by rewrite insert_snoc_length.
    - by rewrite <- !app_assoc. }
  rewrite (bind_inr _ _ _ _ _ Hlock).
  reflexivity.
Qed.

(** The same turn when no session holds the advisory lock and the node is
    the first of the call: the lock is taken and the database is set up in
    the transaction left open on the new connection. *)
Lemma get_managed_databases_body_sets_up cluster skip_inaccessible lock_id dsn
  server transactions w :
  servers w !! dsn = Some server →
  configuration (instance w server) !! cluster_schema cluster = None →
  advisory_locks w !! (server, lock_id) = None →
  let connection := length (connections w) in
  let t := {| transaction_connection := connection;
              transaction_name := "setup-database" |} in
  ∃ w' conn db,
    get_managed_databases_body cluster true skip_inaccessible lock_id dsn
      (∅, transactions) w
    = (inr ({[ uuid1 (entropy w) := connection ]}, transactions ++ [t]), w')
    ∧ connections w' !! connection = Some conn
    ∧ connection_server conn = server
    ∧ pending conn = Some db
    ∧ length (connections w') = S (length (connections w))
    ∧ servers w' = servers w
    ∧ committed w' = committed w
    ∧ zookeeper w' = zookeeper w
    ∧ advisory_locks w'
      = <[(server, lock_id) := connection]> (advisory_locks w)
    ∧ rows_of cluster db !! "version" = Some __version__
    ∧ rows_of cluster db !! "node_id" = Some (uuid1 (entropy w))
    ∧ queues db = queues (instance w server)
    ∧ triggers db = triggers (instance w server).
Proof.
  intros Hserver Hrows Hfree connection t.
  rewrite (get_managed_databases_body_unconfigured _ _ _ _ _ _ _ _ Hserver Hrows).
  fold connection. fold t.
  set (W := asked cluster lock_id dsn server w).
  assert (Hc : connections W !! connection
               = Some {| connection_dsn := dsn; connection_server := server;
                         pending := Some (instance w server) |})
    by apply lookup_snoc_length.
  set (L := set_advisory_locks
              (<[(server, lock_id) := connection]> (advisory_locks w)) W).
  assert (Htake : take_advisory_lock connection lock_id W = (inr true, L)).
  { unfold take_advisory_lock. rewrite Hc. simpl.
    change (advisory_locks W) with (advisory_locks w). by rewrite Hfree. }
  assert (Hview : view L connection = Some (instance w server)).
  { unfold view. change (connections L) with (connections W). by rewrite Hc. }
  destruct (setup_database_outcome cluster connection L _ Hview)
    as (w' & db & node_id & Hrun & Hview' & Hcommitted & Hqueues & Htriggers
        & _ & Hversion & Hnode & _ & Hdrawn).
  assert (Hnone : rows_of cluster (instance w server) !! "node_id" = None).
  { unfold rows_of. by rewrite Hrows. }
  rewrite Hnone in Hdrawn. destruct Hdrawn as [-> _].
  change (entropy L) with (entropy w) in *.
  destruct (setup_database_pending _ _ _ _ _ Hrun)
    as (conn & db0 & Hconn & Hpending).
  pose proof (statements_only_setup_database cluster connection L) as Hframe.
  rewrite Hrun in Hframe. unfold in_place in Hframe. cbn [snd] in Hframe.
  destruct Hframe as (F1 & _ & F3 & F4 & F5).
  assert (Hsame : db0 = db).
  { unfold view in Hview'. rewrite Hconn in Hview'. simpl in Hview'.
    rewrite Hpending in Hview'. simpl in Hview'. congruence. }
  subst db0.
  assert (Hsrv : connection_server conn = server).
  { assert (E : map connection_server (connections w') !! connection
                = Some (connection_server conn)).
    { change (map connection_server) with (fmap (M := list) connection_server).
      by rewrite list_lookup_fmap, Hconn. }
    assert (E' : map connection_server (connections L) !! connection
                 = Some server).
    { change (map connection_server) with (fmap (M := list) connection_server).
      rewrite list_lookup_fmap.
      change (connections L) with (connections W). by rewrite Hc. }
    rewrite F5, E' in E. by injection E. }
  exists w', conn, db. split.
  { unfold bind at 1. unfold bind at 1. rewrite Htake.
    unfold assert, bind at 1, ret at 1. unfold bind at 1. rewrite Hrun.
    unfold ret at 1. cbv beta iota. rewrite lookup_empty.
    by rewrite insert_empty. }
  split; [done|]. split; [done|]. split; [done|].
  split.
  { rewrite <- (length_map connection_server), F5, length_map.
    change (connections L) with (connections w ++ [{| connection_dsn := dsn; connection_server := server; pending := Some (instance w server) |}]).
    rewrite length_app. simpl. lia. }
  repeat split; done.
Qed.

(** The same turn when another session holds the advisory lock: the
    assertion fails and nothing is set up. *)
Lemma get_managed_databases_body_locked cluster skip_inaccessible lock_id dsn
  server nodes transactions w holder :
  servers w !! dsn = Some server →
  configuration (instance w server) !! cluster_schema cluster = None →
  advisory_locks w !! (server, lock_id) = Some holder →
  holder ≠ length (connections w) →
  get_managed_databases_body cluster true skip_inaccessible lock_id dsn
    (nodes, transactions) w
  = (inl (AssertionError
            (could_not_take_out_advisory_lock (length (connections w)))),
     asked cluster lock_id dsn server w).
Proof.
  intros Hserver Hrows Hheld Hother.
  rewrite (get_managed_databases_body_unconfigured _ _ _ _ _ _ _ _ Hserver Hrows).
  set (connection := length (connections w)).
  set (W := asked cluster lock_id dsn server w).
  assert (Hc : connections W !! connection
               = Some {| connection_dsn := dsn; connection_server := server;
                         pending := Some (instance w server) |})
    by apply lookup_snoc_length.
  assert (Htake : take_advisory_lock connection lock_id W = (inr false, W)).
  { unfold take_advisory_lock. rewrite Hc. simpl.
    change (advisory_locks W) with (advisory_locks w). rewrite Hheld.
    by rewrite bool_decide_eq_false_2. }
  unfold bind at 1. unfold bind at 1. by rewrite Htake.
Qed.

(** The start of [get_managed_databases], with what the ZooKeeper
    transaction it opens checks. *)
Lemma get_managed_databases_checked cluster dsn dsns configure skip_inaccessible
  same_version w :
  (same_version = true → cluster_at_running_version w) →
  ∃ ztransaction,
    apply_operations ztransaction (zookeeper w) = Some (zookeeper w)
    ∧ get_managed_databases cluster (dsn :: dsns) configure skip_inaccessible
        same_version w
      = (let* (nodes, transactions) :=
           for_each (dsn :: dsns)
             (get_managed_databases_body cluster configure skip_inaccessible
                (randint (entropy w)))
             (∅, []) in
         match transactions with
         | [] => ret tt
         | _ => managed transactions (commit ztransaction)
         end;;;
         ret nodes) (started same_version w).
Proof.
  intros Hversion. unfold get_managed_databases, started, prologue.
  destruct same_version.
  - destruct (Hversion eq_refl) as [revision Hnode].
    exists [check cluster_path revision]. split.
    { simpl. rewrite Hnode. by rewrite decide_True. }
    rewrite (bind_inr _ _ _ _ _ (check_version_ok cluster w revision Hnode)).
    by unfold bind at 1, draw_randint.
  - exists []. split; [done|]. by unfold bind at 1, draw_randint.
Qed.

(** The commit phase over one transaction left open by statements. *)
Lemma managed_commit_pending connection name w conn db ztransaction z :
  connections w !! connection = Some conn →
  pending conn = Some db →
  apply_operations ztransaction (zookeeper w) = Some z →
  let t := {| transaction_connection := connection; transaction_name := name |} in
  let outcome := managed [t] (commit ztransaction) w in
  outcome.1 = inr tt
  ∧ servers outcome.2 = servers w
  ∧ zookeeper outcome.2 = z
  ∧ committed outcome.2 = <[connection_server conn := db]> (committed w).
Proof.
  intros Hconn Hpending Hz t outcome. subst outcome.
  unfold managed, bind, try, commit. rewrite Hz. simpl.
  unfold bind, Transaction_commit, end_transaction. simpl.
  rewrite Hconn, Hpending. simpl. done.
Qed.

Lemma rows_of_table cluster db key value :
  rows_of cluster db !! key = Some value →
  configuration db !! cluster_schema cluster = Some (rows_of cluster db).
Proof.
  unfold rows_of. by destruct (configuration db !! cluster_schema cluster).
Qed.

Lemma get_managed_databases_sets_up_outcome cluster dsn server skip_inaccessible
  same_version w :
  (same_version = true → cluster_at_running_version w) →
  servers w !! dsn = Some server →
  configuration (instance w server) !! cluster_schema cluster = None →
  advisory_locks w !! (server, randint (entropy w)) = None →
  let node_id := uuid1 (S (entropy w)) in
  let outcome :=
    get_managed_databases cluster [dsn] true skip_inaccessible same_version w in
  outcome.1 = inr {[ node_id := length (connections w) ]}
  ∧ servers outcome.2 = servers w
  ∧ zookeeper outcome.2 = zookeeper w
  ∧ ∃ db,
      committed outcome.2 = <[server := db]> (committed w)
      ∧ rows_of cluster db !! "node_id" = Some node_id
      ∧ rows_of cluster db !! "version" = Some __version__
      ∧ queues db = queues (instance w server)
      ∧ triggers db = triggers (instance w server).
Proof.
  intros Hcluster Hserver Hrows Hfree node_id outcome. subst outcome.
  destruct (get_managed_databases_checked cluster dsn [] true skip_inaccessible
              same_version w Hcluster) as (ztransaction & Hz & ->).
  rewrite for_each_cons.
  destruct (get_managed_databases_body_sets_up cluster skip_inaccessible
              (randint (entropy w)) dsn server [] (started same_version w)
              Hserver Hrows Hfree)
    as (w' & conn & db & Hbody & Hconn & Hsrv & Hpending & _ & S1 & S2 & S3 & _
        & Hversion & Hnode & Hqueues & Htriggers).
  rewrite (bind_inr _ _ _ _ _ (bind_inr _ _ _ _ _ Hbody)).
  cbn [app].
  change (servers (started same_version w)) with (servers w) in S1.
  change (committed (started same_version w)) with (committed w) in S2.
  change (zookeeper (started same_version w)) with (zookeeper w) in S3.
  rewrite <- S3 in Hz at 1.
  pose proof (managed_commit_pending _ "setup-database" _ _ _ _ _
                Hconn Hpending Hz) as Hcommit.
  cbv zeta in Hcommit. unfold bind.
  destruct (managed _ _ w') as [r w''].
  destruct Hcommit as (C1 & C2 & C3 & C4). simpl in C1, C2, C3, C4. subst r.
  cbn [fst snd ret].
  split; [done|]. split; [by rewrite C2, S1|]. split; [by rewrite C3|].
  exists db. rewrite C4, Hsrv, S2. done.
Qed.

(** Two DSNs of one call that lead to the same node without the
    configuration table: the second connection is refused the advisory
    lock. *)
Lemma get_managed_databases_lock_conflict cluster dsn1 dsn2 dsns server
  skip_inaccessible same_version w :
  (same_version = true → cluster_at_running_version w) →
  servers w !! dsn1 = Some server →
  servers w !! dsn2 = Some server →
  configuration (instance w server) !! cluster_schema cluster = None →
  advisory_locks w !! (server, randint (entropy w)) = None →
  let outcome :=
    get_managed_databases cluster (dsn1 :: dsn2 :: dsns) true skip_inaccessible
      same_version w in
  outcome.1
  = inl (AssertionError
           (could_not_take_out_advisory_lock (S (length (connections w)))))
  ∧ committed outcome.2 = committed w
  ∧ zookeeper outcome.2 = zookeeper w.
Proof.
  intros Hcluster Hserver1 Hserver2 Hrows Hfree outcome. subst outcome.
  destruct (get_managed_databases_checked cluster dsn1 (dsn2 :: dsns) true
              skip_inaccessible same_version w Hcluster)
    as (ztransaction & _ & ->).
  rewrite for_each_cons.
  destruct (get_managed_databases_body_sets_up cluster skip_inaccessible
              (randint (entropy w)) dsn1 server [] (started same_version w)
              Hserver1 Hrows Hfree)
    as (w' & conn & db & Hbody & _ & _ & _ & Hlength & S1 & S2 & S3 & S4 & _).
  change (servers (started same_version w)) with (servers w) in S1.
  change (committed (started same_version w)) with (committed w) in S2.
  change (zookeeper (started same_version w)) with (zookeeper w) in S3.
  change (connections (started same_version w)) with (connections w) in *.
  change (advisory_locks (started same_version w)) with (advisory_locks w) in S4.
  assert (Hsecond :
    get_managed_databases_body cluster true skip_inaccessible
      (randint (entropy w)) dsn2
      ({[ uuid1 (entropy (started same_version w)) := length (connections w) ]},
       [] ++ [{| transaction_connection := length (connections w);
                 transaction_name := "setup-database" |}]) w'
    = (inl (AssertionError
              (could_not_take_out_advisory_lock (length (connections w')))),
       asked cluster (randint (entropy w)) dsn2 server w')).
  { apply (get_managed_databases_body_locked _ _ _ _ _ _ _ _
             (length (connections w))).
    - by rewrite S1.
    - unfold instance. by rewrite S2.
    - by rewrite S4, lookup_insert_eq.
    - lia. }
  assert (Hloop :
    for_each (dsn2 :: dsns)
      (get_managed_databases_body cluster true skip_inaccessible
         (randint (entropy w)))
      ({[ uuid1 (entropy (started same_version w)) := length (connections w) ]},
       [] ++ [{| transaction_connection := length (connections w);
                 transaction_name := "setup-database" |}]) w'
    = (inl (AssertionError
              (could_not_take_out_advisory_lock (length (connections w')))),
       asked cluster (randint (entropy w)) dsn2 server w')).
  { rewrite for_each_cons. by apply bind_inl. }
  rewrite (bind_inl _ _ _ _ _ (eq_trans (bind_inr _ _ _ _ _ Hbody) Hloop)).
  cbn [fst snd]. rewrite Hlength. split; [done|].
  by rewrite <- S2, <- S3.
Qed.

(** X30.  With [configure=True], a single DSN that leads to a database
    without the configuration table, while no session holds the advisory
    lock of the identifier drawn: [get_managed_databases] sets the node up
    and commits.  It returns the new connection under the UUID drawn,
    ZooKeeper is as before, and what is committed on the instance now holds
    the running version and that UUID in the rows [version] and [node_id],
    with queues and triggers as before.  A later call for the same DSN, with
    or without [configure], finds the node configured under the same
    identifier.  When the DSN is followed in one call by a DSN that leads to
    the same instance (the same DSN again, or another one), the second
    connection is refused the advisory lock: the call fails with 'could not
    take out advisory lock' for that connection, and nothing is committed. *)
Theorem get_managed_databases_sets_up cluster dsn server configure
  skip_inaccessible same_version w :
  (same_version = true → cluster_at_running_version w) →
  servers w !! dsn = Some server →
  configuration (instance w server) !! cluster_schema cluster = None →
  advisory_locks w !! (server, randint (entropy w)) = None →
  let node_id := uuid1 (S (entropy w)) in
  let outcome :=
    get_managed_databases cluster [dsn] true skip_inaccessible same_version w in
  outcome.1 = inr {[ node_id := length (connections w) ]}
  ∧ zookeeper outcome.2 = zookeeper w
  ∧ (∃ db,
       committed outcome.2 = <[server := db]> (committed w)
       ∧ rows_of cluster db !! "node_id" = Some node_id
       ∧ rows_of cluster db !! "version" = Some __version__
       ∧ queues db = queues (instance w server)
       ∧ triggers db = triggers (instance w server))
  ∧ (get_managed_databases cluster [dsn] configure skip_inaccessible same_version
       outcome.2).1
    = inr {[ node_id := length (connections outcome.2) ]}
  ∧ (∀ dsn' dsns,
       servers w !! dsn' = Some server →
       let twice :=
         get_managed_databases cluster (dsn :: dsn' :: dsns) true
           skip_inaccessible same_version w in
       twice.1
       = inl (AssertionError
                (could_not_take_out_advisory_lock (S (length (connections w)))))
       ∧ committed twice.2 = committed w
       ∧ zookeeper twice.2 = zookeeper w).
Proof.
  intros Hcluster Hserver Hrows Hfree node_id outcome.
  destruct (get_managed_databases_sets_up_outcome cluster dsn server
              skip_inaccessible same_version w Hcluster Hserver Hrows Hfree)
    as (H1 & H2 & H3 & db & H4 & H5 & H6 & H7 & H8).
  fold outcome in H1, H2, H3, H4. fold node_id in H5.
  split; [done|]. split; [done|]. split; [by exists db|]. split.
  - rewrite (get_managed_databases_single cluster dsn server configure
               skip_inaccessible same_version outcome.2 (rows_of cluster db)
               node_id); [done|..].
    + intros Hsame. destruct (Hcluster Hsame) as [revision Hnode].
      exists revision. by rewrite H3.
    + by rewrite H2.
    + unfold instance. rewrite H4, lookup_insert_eq. simpl.
      by eapply rows_of_table.
    + done.
    + done.
  - intros dsn' dsns Hserver'.
    by apply (get_managed_databases_lock_conflict _ _ _ _ server).
Qed.

(** **** Duplicate nodes *)


End Further.

Lemma expand_round_trip_witness :
  expand "orders@1f3870be274f6c49b3e31a0c6728957f"
  = {| set_name := "orders";
       set_version := Some "1f3870be274f6c49b3e31a0c6728957f" |}.
Proof.
  apply (proj1 expand_round_trip "orders" "1f3870be274f6c49b3e31a0c6728957f").
  reflexivity.
Defined.

Lemma validate_set_configuration_checks_witness :
  (validate_set_configuration no_keys world_0).1
  = inl (AssertionError (table_must_have_primary_keys "public" "orders"))
  ∧ (∃ table, table ∈ tables no_keys ∧ primary_keys table = [])
  ∧ @create_set demo c "orders" no_keys world_0
    = (inl (AssertionError (table_must_have_primary_keys "public" "orders")),
       world_0).
Proof.
  split; [reflexivity|].
  destruct (@validate_set_configuration_checks demo no_keys world_0)
    as (_ & _ & Herrors & Hfirst).
  split.
  - destruct (Herrors
                (AssertionError (table_must_have_primary_keys "public" "orders")))
      as [[Habsurd _]|[(i & j & d1 & d2 & _ & _ & _ & _ & Habsurd)
                      |(table & Hin & Hkeys & _)]].
    + reflexivity.
    + discriminate Habsurd.
    + discriminate Habsurd.
    + exists table. split; assumption.
  - apply (Hfirst _ eq_refl c "orders" false).
Defined.

Lemma fetch_sets_all_witness :
  ∃ results,
    (@fetch_sets demo c None world_2).1 = inr results
    ∧ Forall2 (λ name result,
                 result.1 = name
                 ∧ set_nodes (zookeeper world_2) !! name = Some result.2)
        (elements (dom (set_nodes (zookeeper world_2)))) results.
Proof.
  destruct (proj2 (@fetch_sets_all demo c world_2) 0%Z) as (results & H1 & H2).
  - reflexivity.
  - intros name Hname.
    assert (E : dom (set_nodes (zookeeper world_2)) = ({[ "orders" ]} : gset string))
      by (vm_compute; reflexivity).
    rewrite E in Hname. apply elem_of_singleton in Hname. subst name. reflexivity.
  - exists results. split; [|exact H2]. rewrite H1. reflexivity.
Defined.

Lemma missing_set_not_found_witness :
  (@drop_set demo c "orders" false world_0).1 = inl NoNodeError
  ∧ (@update_set demo c "orders" orders false world_0).1 = inl NoNodeError.
Proof.
  destruct (@missing_set_not_found demo c "orders" orders false world_0)
    as [H1 H2].
  - reflexivity.
  - split.
    + rewrite H1. reflexivity.
    + rewrite H2; [reflexivity|].
      split; [discriminate|]. split; repeat constructor.
      * intros Hin. apply elem_of_nil in Hin. exact Hin.
      * discriminate.
Defined.

Lemma upgrade_cluster_refused_witness :
  @upgrade_cluster demo c false world_0
  = (inl (AssertionError (cannot_downgrade "0.2" "0.2")),
     set_trace [store_read cluster_path] world_0).
Proof.
  apply (proj2 (@upgrade_cluster_refused demo c world_0) {| version := "0.2" |} 0%Z).
  - reflexivity.
  - reflexivity.
Defined.

Lemma initialize_cluster_once_witness :
  ∃ w',
    @initialize_cluster demo c world_blank = (inr tt, w')
    ∧ cluster_node (zookeeper w') = Some ({| version := "0.2" |}, 0%Z)
    ∧ (@initialize_cluster demo c w').1 = inl TransactionFailed.
Proof.
  destruct (proj1 (@initialize_cluster_once demo c world_blank))
    as (w' & H1 & H2 & _ & _ & _ & H3 & _).
  - reflexivity.
  - reflexivity.
  - exists w'. repeat split; assumption.
Defined.

Lemma get_managed_databases_inaccessible_witness :
  (@get_managed_databases demo c ["nowhere"; "d3"] true false true world_0).1
  = inl (OperationalError "nowhere")
  ∧ (@get_managed_databases demo c ["nowhere"; "elsewhere"] true true true
       world_0).1 = inr ∅.
Proof.
  split.
  - destruct (@get_managed_databases_inaccessible demo c "nowhere" ["d3"] true
                true world_0) as [[H1 _] _].
    + intros _. exists 0%Z. reflexivity.
    + reflexivity.
    + rewrite H1. reflexivity.
  - destruct (@get_managed_databases_inaccessible demo c "nowhere" ["elsewhere"]
                true true world_0) as [_ H2].
    + intros _. exists 0%Z. reflexivity.
    + reflexivity.
    + rewrite H2; [reflexivity|]. repeat constructor.
Defined.

Lemma get_managed_databases_not_configured_witness :
  (@get_managed_databases demo c ["d1"] false false true world_0).1
  = inl ProgrammingError.
Proof.
  destruct (@get_managed_databases_not_configured demo c "d1" [] false true
              world_0 "s1") as [H1 _].
  - intros _. exists 0%Z. reflexivity.
  - reflexivity.
  - reflexivity.
  - rewrite H1. reflexivity.
Defined.

Lemma setup_database_node_identifier_witness :
  ∃ w' db' node_id,
    @setup_database demo c 0 world_1 = (inr node_id, w')
    ∧ view w' 0 = Some db'
    ∧ rows_of c db' !! "node_id" = Some node_id.
Proof.
  destruct (@setup_database_node_identifier demo c 0 world_1 empty_postgres)
    as (w' & db' & node_id & H1 & H2 & _ & _ & _ & _ & _ & H3 & _).
  - reflexivity.
  - exists w', db', node_id. repeat split; assumption.
Defined.






Lemma orders_3_valid : valid orders_3.
Proof.
  split; [discriminate|]. split.
  - repeat constructor. intros Hin. apply elem_of_nil in Hin. exact Hin.
  - repeat constructor. discriminate.
Qed.

Lemma create_set_single_witness :
  (@create_set demo c "orders" orders_3 world_0).1 = inr tt
  ∧ set_nodes (zookeeper (@create_set demo c "orders" orders_3 world_0).2)
    = <["orders" := (orders_3, 0%Z)]> (set_nodes (zookeeper world_0))
  ∧ committed (@create_set demo c "orders" orders_3 world_0).2
    = <["s3" := @with_set demo c "orders" orders_3 (instance world_0 "s3")]>
        (committed world_0).
Proof.
  pose proof (@create_set_single demo c "orders" orders_3 "d3" "s3" world_0)
    as Hcreate.
  cbv zeta in Hcreate.
  assert (E : set_nodes (zookeeper world_0) !! "orders" = None) by reflexivity.
  rewrite E in Hcreate. apply Hcreate.
  - exact orders_3_valid.
  - reflexivity.
  - split; [reflexivity|]. eexists. split; [vm_compute; reflexivity|].
    split; [eexists; vm_compute; reflexivity | vm_compute; reflexivity].
  - exists 0%Z. reflexivity.
  - eexists. reflexivity.
Defined.

Lemma drop_set_single_witness :
  (@drop_set demo c "orders" false world_4).1 = inr tt
  ∧ set_nodes (zookeeper (@drop_set demo c "orders" false world_4).2)
    = delete "orders" (set_nodes (zookeeper world_4)).
Proof.
  pose proof (@drop_set_single demo c "orders" orders_3 0%Z "d3" "s3" false
                world_4) as Hdrop.
  cbv zeta in Hdrop.
  destruct Hdrop as (H1 & _ & _ & _ & H2 & _).
  - reflexivity.
  - vm_compute. reflexivity.
  - reflexivity.
  - split; [vm_compute; reflexivity|]. eexists. split; [vm_compute; reflexivity|].
    split; [eexists; vm_compute; reflexivity | vm_compute; reflexivity].
  - exists 0%Z. vm_compute. reflexivity.
  - vm_compute. reflexivity.
  - repeat constructor. intros Hin. apply elem_of_nil in Hin. exact Hin.
  - intros key Hkey. apply list_elem_of_singleton in Hkey. subst key.
    vm_compute. eexists. reflexivity.
  - split; [exact H1 | exact H2].
Defined.

Lemma create_set_then_drop_set_witness :
  ∃ w1 w2,
    @create_set demo c "orders" orders_3 world_0 = (inr tt, w1)
    ∧ @drop_set demo c "orders" false w1 = (inr tt, w2)
    ∧ zookeeper w2 = zookeeper world_0.
Proof.
  destruct (@create_set_then_drop_set demo c "orders" orders_3 "d3" "s3" false
              world_0) as (w1 & w2 & db' & H1 & H2 & H3 & _).
  - reflexivity.
  - exact orders_3_valid.
  - reflexivity.
  - repeat constructor. intros Hin. apply elem_of_nil in Hin. exact Hin.
  - split; [reflexivity|]. eexists. split; [vm_compute; reflexivity|].
    split; [eexists; vm_compute; reflexivity | vm_compute; reflexivity].
  - exists 0%Z. reflexivity.
  - eexists. reflexivity.
  - reflexivity.
  - exists w1, w2. repeat split; assumption.
Defined.


(** C3, as stated, fails: the DSN [d1] leads to one node, not yet set up,
    and alone it gives a mapping with one entry; listed twice, the call
    returns no mapping and does not raise 'found duplicate node' either: it
    fails with 'could not take out advisory lock' for the second
    connection. *)
Lemma get_managed_databases_fresh_node_twice :
  (∃ node_id,
     (@get_managed_databases demo c ["d1"] true false true world_0).1
     = inr {[ node_id := 0 ]})
  ∧ (@get_managed_databases demo c ["d1"; "d1"] true false true world_0).1
    = inl (AssertionError (could_not_take_out_advisory_lock 1))
  ∧ kind (AssertionError (could_not_take_out_advisory_lock 1))
    = Some PossibleDeadlock
  ∧ ¬ (∃ nodes,
         (@get_managed_databases demo c ["d1"; "d1"] true false true world_0).1
         = inr nodes)
  ∧ ¬ (∃ e,
         (@get_managed_databases demo c ["d1"; "d1"] true false true world_0).1
         = inl e
         ∧ kind e = Some DuplicateNode).
Proof.
  assert (Hrun :
    (@get_managed_databases demo c ["d1"; "d1"] true false true world_0).1
    = inl (AssertionError (could_not_take_out_advisory_lock 1)))
    by (vm_compute; reflexivity).
  split; [exists (@uuid1 demo 1); vm_compute; reflexivity|].
  split; [exact Hrun|]. split; [reflexivity|]. split.
  - intros [nodes Hnodes]. rewrite Hrun in Hnodes. discriminate Hnodes.
  - intros (e & He & Hkind). rewrite Hrun in He. injection He as <-.
    discriminate Hkind.
Qed.

Lemma get_managed_databases_sets_up_witness :
  (@get_managed_databases demo c ["d1"] true false true world_0).1
  = inr {[ @uuid1 demo 1 := 0 ]}
  ∧ (@get_managed_databases demo c ["d1"] false false true
       (@get_managed_databases demo c ["d1"] true false true world_0).2).1
    = inr {[ @uuid1 demo 1 := 1 ]}
  ∧ (@get_managed_databases demo c ["d1"; "d1"] true false true world_0).1
    = inl (AssertionError (could_not_take_out_advisory_lock 1)).
Proof.
  destruct (@get_managed_databases_sets_up demo c "d1" "s1" false false true
              world_0) as (H1 & _ & _ & H4 & H5).
  - intros _. exists 0%Z. reflexivity.
  - reflexivity.
  - reflexivity.
  - reflexivity.
  - destruct (H5 "d1" [] eq_refl) as (H6 & _).
    split; [exact H1|]. split; [exact H4 | exact H6].
Defined.

End AdministrationTheory.

(** ** Worker *)

Module WorkerTheory.

Import Worker.

(** *** C7 *)

Lemma run_snoc envs env c : run (envs ++ [env]) c = run_tick env (run envs c).
Proof. unfold run. by rewrite foldl_app. Qed.

(** While the lease is not granted the consumer thread stays inside
    [acquire()], whatever the stop event says. *)
Lemma run_tick_acquiring env c :
  phase c = Acquiring →
  lease_available env (group c) = false →
  run_tick env c = c.
Proof. unfold run_tick. by intros -> ->. Qed.

Lemma run_acquiring envs c :
  phase c = Acquiring →
  Forall (λ env, lease_available env (group c) = false) envs →
  run envs c = c.
Proof.
  intros Hphase Hall. induction Hall as [|env envs Henv _ IH]; [done|].
  unfold run in *. simpl. by rewrite run_tick_acquiring.
Qed.

(** C7 (the code at the failing input).  A consumer waiting for its
    ownership lease does not notice [stop()]: as long as the lease is not
    granted it stays in [acquire()], running and with the stop event set,
    for any number of ticks.  Once in the main loop, the tick after a stop
    request ends the thread and releases the lease. *)
Theorem consumer_stop_blocked_while_acquiring c envs :
  phase c = Acquiring →
  Forall (λ env, lease_available env (group c) = false) envs →
  let c' := run envs (stop_async c) in
  phase c' = Acquiring
  ∧ running c' = true
  ∧ stop_requested c' = true
  ∧ (∀ env c, phase c = Running →
              phase (run_tick env (stop_async c)) = Stopped
              ∧ lease_held (run_tick env (stop_async c)) = false).
Proof.
  intros Hphase Hall c'. subst c'.
  rewrite run_acquiring by done.
  unfold running. simpl. rewrite Hphase.
  repeat split; try done.
  - unfold run_tick. simpl. by rewrite H.
  - unfold run_tick. simpl. by rewrite H.
Qed.

Lemma consumer_stop_blocked_while_acquiring_witness :
  let c' := run (replicate 1000 leases_taken)
                (stop_async (new_consumer "orders" "configuration")) in
  phase c' = Acquiring ∧ running c' = true ∧ stop_requested c' = true.
Proof.
  destruct (consumer_stop_blocked_while_acquiring
              (new_consumer "orders" "configuration")
              (replicate 1000 leases_taken))
    as (H1 & H2 & H3 & _).
  - reflexivity.
  - apply Forall_replicate. reflexivity.
  - repeat split; assumption.
Defined.

(** *** C9 *)

(** Supervision and shutdown leave queue and futures alone. *)
Lemma shutdown_futures env p c :
  futures (shutdown env p c) = futures c ∧ queue (shutdown env p c) = queue c.
Proof. done. Qed.




(** [invoke] only ever stores outcomes. *)
Lemma complete_lookup response outcome c i f :
  futures (complete response outcome c) !! i = Some f →
  (i = response ∧ f = outcome) ∨ futures c !! i = Some f.
Proof.
  unfold complete. simpl. destruct (decide (response = i)) as [->|Hne].
  - intros Hf. destruct (decide (i < length (futures c))).
    + rewrite list_lookup_insert_eq in Hf by done. injection Hf as <-. by left.
    + rewrite list_insert_ge in Hf by lia. by right.
  - rewrite list_lookup_insert_ne by done. by right.
Qed.








(** *** Further properties of the consumer *)

(** A thread that has ended stays as it is. *)
Lemma run_not_running envs c : running c = false → run envs c = c.
Proof.
  intros Hc. induction envs as [|env envs IH]; [done|].
  unfold run in *. simpl.
  replace (run_tick env c) with c; [done|].
  unfold run_tick. unfold running in Hc. by destruct (phase c).
Qed.

Lemma consistent_new group configuration :
  consistent (new_consumer group configuration).
Proof. unfold consistent. simpl. repeat split; try done. by left. Qed.


Lemma consistent_run_tick env c : consistent c → consistent (run_tick env c).
Proof.
  intros Hc. pose proof Hc as (Hlease & Hready & Hslot). unfold run_tick.
  destruct (phase c) eqn:Hphase; [| |exact Hc|exact Hc].
  - destruct (lease_available env (group c)); [|exact Hc].
    destruct (register_consumer env (group c)).
    + unfold consistent. simpl. repeat split; done.
    + unfold consistent, leave. simpl. repeat split; try done.
      * by right.
      * by apply Hslot, Hready.
  - assert (Hset : ready c = true).
    { destruct (ready c) eqn:Hr; [done|].
      by destruct (Hslot eq_refl) as [[?|?] _]. }
    assert (Hleave : ∀ p, p ≠ Running → p ≠ Acquiring → consistent (leave p c)).
    { intros p Hp1 Hp2. unfold consistent, leave. simpl. rewrite Hset.
      repeat split; done. }
    destruct (stop_requested c); [by apply Hleave|].
    destruct (negb (lease_retained env (group c))); [by apply Hleave|].
    destruct (batches c); [exact Hc|].
    destruct (next_batch_info env (group c)) as [[batch_id events]|]; [|exact Hc].
    unfold consistent. simpl. rewrite Hset. repeat split; try done.
    intros _. by apply Hlease.
Qed.



Lemma run_tick_batches env c b :
  batches c = Some b → batches (run_tick env c) = Some b.
Proof.
  intros Hb. unfold run_tick.
  destruct (phase c).
  - by destruct (lease_available env (group c)),
         (register_consumer env (group c)).
  - destruct (stop_requested c); [done|].
    destruct (negb (lease_retained env (group c))); [done|].
    by rewrite Hb.
  - done.
  - done.
Qed.

(** X5.  The consumer thread never replaces or drops a batch it has handed
    off: a full slot [batches] stays as it is through any number of ticks, a
    stop request, the loss of the lease and the end of the thread. *)
Theorem consumer_keeps_batch c b envs1 envs2 :
  batches c = Some b →
  batches (run envs1 c) = Some b
  ∧ batches (run envs2 (stop_async (run envs1 c))) = Some b.
Proof.
  assert (Hrun : ∀ envs c, batches c = Some b → batches (run envs c) = Some b).
  { induction envs as [|env envs IH]; intros c' Hc'; [done|].
    apply IH. by apply run_tick_batches. }
  intros Hb. split.
  - by apply Hrun.
  - apply Hrun. simpl. by apply Hrun.
Qed.

Lemma consumer_keeps_batch_witness :
  let c := run [batch_waiting; batch_waiting] (new_consumer "orders" "configuration") in
  batches c = Some ([1%N; 2%N], 7%N)
  ∧ batches (run (replicate 5 batch_waiting) c) = Some ([1%N; 2%N], 7%N).
Proof.
  split; [reflexivity|].
  apply (consumer_keeps_batch
           (run [batch_waiting; batch_waiting]
                (new_consumer "orders" "configuration"))
           ([1%N; 2%N], 7%N) (replicate 5 batch_waiting) []).
  reflexivity.
Defined.

(** X6.  A consumer in its main loop that finds its lease lost, with no stop
    requested, ends with 'Lost ownership of consumer lock!': from then on it
    is not running, holds no lease, and its slot is as it was, whatever
    happens later. *)
Theorem consumer_lost_ownership c env envs :
  phase c = Running →
  stop_requested c = false →
  lease_retained env (group c) = false →
  let c' := run (env :: envs) c in
  phase c' = Failed LostOwnership
  ∧ running c' = false
  ∧ lease_held c' = false
  ∧ batches c' = batches c.
Proof.
  intros Hphase Hstop Hlease. simpl.
  change (run (env :: envs) c) with (run envs (run_tick env c)).
  assert (Htick : run_tick env c = leave (Failed LostOwnership) c).
  { unfold run_tick. by rewrite Hphase, Hstop, Hlease. }
  rewrite Htick, run_not_running by done. done.
Qed.

Lemma consumer_lost_ownership_witness :
  let c := run [leases_free] (new_consumer "orders" "configuration") in
  let c' := run (lease_lost :: replicate 3 leases_free) c in
  phase c' = Failed LostOwnership ∧ running c' = false ∧ lease_held c' = false.
Proof.
  destruct (consumer_lost_ownership
              (run [leases_free] (new_consumer "orders" "configuration"))
              lease_lost (replicate 3 leases_free))
    as (H1 & H2 & H3 & _); try reflexivity.
  repeat split; assumption.
Defined.

(** *** Further properties of the coordinator *)

Lemma run_tick_left env c : phase c ≠ Acquiring → phase (run_tick env c) ≠ Acquiring.
Proof.
  unfold run_tick. destruct (phase c) eqn:Hphase; try done; intros _.
  - destruct (stop_requested c); [done|].
    destruct (negb (lease_retained env (group c))); [done|].
    destruct (batches c); [by rewrite Hphase|].
    destruct (next_batch_info env (group c)) as [[batch_id events]|];
      [done | by rewrite Hphase].
  - by rewrite Hphase.
  - by rewrite Hphase.
Qed.

(** X7.  A coordinator asked to stop whose consumers are all in their main
    loop leaves its loop at the next iteration and stops each of its
    consumers, which release their leases; it keeps the same consumers and
    leaves the command queue and the futures untouched. *)
Theorem coordinator_stop_releases env c :
  coordinator_phase c = Looping →
  coordinator_stop_requested c = true →
  map_Forall (λ _ consumer, phase consumer = Running) (consumers c) →
  let c' := run_iteration env c in
  coordinator_phase c' = Finished
  ∧ dom (consumers c') = dom (consumers c)
  ∧ map_Forall (λ _ consumer, phase consumer = Stopped
                              ∧ lease_held consumer = false) (consumers c')
  ∧ queue c' = queue c
  ∧ futures c' = futures c.
Proof.
  intros Hphase Hstop Hall. unfold run_iteration. rewrite Hphase, Hstop.
  unfold shutdown. simpl. repeat split.
  - apply dom_fmap_L.
  - apply lookup_fmap_Some in H as (consumer & <- & Hconsumer).
    apply Hall in Hconsumer. unfold stop, run_tick. simpl. by rewrite Hconsumer.
  - apply lookup_fmap_Some in H as (consumer & <- & Hconsumer).
    apply Hall in Hconsumer. unfold stop, run_tick. simpl. by rewrite Hconsumer.
Qed.

Lemma coordinator_stop_releases_witness :
  let c := coordinator_stop_async
             (history [call_subscribe "orders" "configuration"; tick leases_free]) in
  coordinator_phase (run_iteration leases_free c) = Finished
  ∧ map_Forall (λ _ consumer, phase consumer = Stopped
                              ∧ lease_held consumer = false)
      (consumers (run_iteration leases_free c)).
Proof.
  destruct (coordinator_stop_releases leases_free
              (coordinator_stop_async
                 (history [call_subscribe "orders" "configuration";
                           tick leases_free])))
    as (H1 & _ & H3 & _).
  - reflexivity.
  - reflexivity.
  - assert (E : consumers
                 (coordinator_stop_async
                    (history [call_subscribe "orders" "configuration";
                              tick leases_free]))
               = {[ "orders" := run_tick leases_free
                                  (new_consumer "orders" "configuration") ]})
      by (vm_compute; reflexivity).
    rewrite E. apply map_Forall_singleton. reflexivity.
  - split; assumption.
Defined.

Lemma consistent_reconfigured consumer configuration' :
  consistent consumer →
  consistent {| group := group consumer; configuration := configuration';
                phase := phase consumer; ready := ready consumer;
                batches := batches consumer;
                stop_requested := stop_requested consumer;
                lease_held := lease_held consumer |}.
Proof. done. Qed.

Lemma consistent_emptied consumer : consistent consumer → consistent (emptied consumer).
Proof.
  intros (H1 & H2 & H3). split; [done|]. split; [done|].
  intros Hr. split; [by apply H3 | done].
Qed.

(** Once set, [ready] stays set. *)
Lemma run_tick_ready env c : ready c = true → ready (run_tick env c) = true.
Proof.
  intros Hr. unfold run_tick. destruct (phase c); [| |done|done].
  - by destruct (lease_available env (group c)),
         (register_consumer env (group c)).
  - destruct (stop_requested c); [done|].
    destruct (negb (lease_retained env (group c))); [done|].
    destruct (batches c); [done|].
    by destruct (next_batch_info env (group c)) as [[batch_id events]|].
Qed.

Lemma settled_perform env command c :
  coordinator_phase c = Looping → settled c → settled (perform env command c).
Proof.
  unfold settled. intros Hphase. rewrite Hphase. intros Hall.
  destruct command as [name configuration response | name response]; simpl.
  - destruct (consumers c !! name) as [consumer|] eqn:Hname; simpl.
    + rewrite Hphase. apply map_Forall_insert_2; [|done].
      destruct (Hall _ _ Hname) as [Hc Hp]. split; [|done].
      by apply consistent_reconfigured.
    + pose proof (consistent_run_tick env _
                    (consistent_new name configuration)) as Hnew.
      destruct (ready (run_tick env (new_consumer name configuration))) eqn:Hr;
        simpl.
      * rewrite Hphase. by apply map_Forall_insert_2.
      * apply map_Forall_insert_2; [done|].
        intros other consumer Ho. destruct (Hall _ _ Ho). by split.
  - destruct (consumers c !! name) as [consumer|] eqn:Hname; simpl;
      rewrite Hphase; [|done].
    by apply map_Forall_delete.
Qed.

Lemma settled_drain env commands c :
  coordinator_phase c = Looping → settled c → settled (drain env commands c).
Proof.
  revert c. induction commands as [|command rest IH]; intros c Hphase Hc; [done|].
  simpl.
  pose proof (settled_perform env command (with_queue rest c) Hphase Hc) as Hp.
  destruct (coordinator_phase (perform env command (with_queue rest c))) eqn:E;
    try done.
  by apply IH.
Qed.

Lemma supervise_settled env members c :
  coordinator_phase c = Looping →
  all_ready (consumers c) →
  Forall (λ member, consistent member.2 ∧ ready member.2 = true) members →
  settled (supervise env members c).
Proof.
  intros Hphase Hall Hmembers. revert c Hphase Hall.
  induction Hmembers as [|[name consumer] rest [Hc Hp] _ IH]; intros c Hphase Hall.
  - unfold settled. simpl. by rewrite Hphase.
  - simpl. destruct (negb (running consumer)); [done|].
    destruct (batches consumer) as [[events batch_id]|]; [|by apply IH].
    destruct (finish_batch env batch_id); [|done].
    apply IH; [done|]. simpl. apply map_Forall_insert_2; [|done].
    split; [|done]. by apply (consistent_emptied consumer).
Qed.

Lemma settled_proceed env c :
  coordinator_phase c = Looping → settled c → settled (proceed env c).
Proof.
  intros Hphase Hc. unfold proceed.
  pose proof (settled_drain env (queue c) c Hphase Hc) as Hd.
  destruct (coordinator_phase (drain env (queue c) c)) eqn:E; try done.
  unfold settled in Hd. rewrite E in Hd.
  apply supervise_settled; [done | done |].
  apply Forall_forall. intros [name consumer] Hin.
  apply elem_of_map_to_list in Hin. exact (Hd _ _ Hin).
Qed.

Lemma settled_tick_consumers env c : settled c → settled (tick_consumers env c).
Proof.
  unfold settled, tick_consumers. simpl.
  destruct (coordinator_phase c); try done.
  - intros Hall name consumer Hc.
    apply lookup_fmap_Some in Hc as (consumer' & <- & Hc).
    destruct (Hall _ _ Hc). split.
    + by apply consistent_run_tick.
    + by apply run_tick_ready.
  - intros Hall other consumer Hc.
    apply lookup_fmap_Some in Hc as (consumer' & <- & Hc).
    destruct (Hall _ _ Hc) as [H1 H2]. split.
    + by apply consistent_run_tick.
    + intros Ho. by apply run_tick_ready, H2.
Qed.

Lemma settled_run_iteration env c : settled c → settled (run_iteration env c).
Proof.
  intros Hc. unfold run_iteration.
  destruct (coordinator_phase c) eqn:Hphase; try done.
  - destruct (coordinator_stop_requested c); [done|].
    by apply settled_proceed.
  - destruct (consumers c !! name) as [consumer|] eqn:Hname; [|done].
    destruct (ready consumer) eqn:Hr; [|done].
    apply settled_proceed; [done|].
    unfold settled in *. simpl. rewrite Hphase in Hc.
    intros other consumer' Ho. destruct (Hc _ _ Ho) as [H1 H2].
    split; [done|].
    destruct (decide (other = name)) as [->|Hne]; [|by apply H2].
    rewrite Hname in Ho. by injection Ho as <-.
Qed.

Lemma settled_history actions : settled (history actions).
Proof.
  induction actions as [|a actions IH] using rev_ind.
  - unfold settled, all_ready. simpl. apply map_Forall_empty.
  - unfold history in *. rewrite foldl_app. simpl.
    destruct a as [env | name configuration | name |]; simpl.
    + by apply settled_run_iteration, settled_tick_consumers.
    + exact IH.
    + exact IH.
    + exact IH.
Qed.

(** X8.  Whatever calls of [subscribe_async], [unsubscribe_async] and
    [stop_async] arrive and whatever the environment answers, a coordinator
    that is in its loop only holds consumers that have left [acquire()] and
    set [ready]: [subscribe] waits for [consumer.ready]. *)
Theorem coordinator_supervises_ready_consumers actions name consumer :
  coordinator_phase (history actions) = Looping →
  consumers (history actions) !! name = Some consumer →
  ready consumer = true
  ∧ phase consumer ≠ Acquiring
  ∧ consistent consumer.
Proof.
  intros Hphase Hc. pose proof (settled_history actions) as Hs.
  unfold settled in Hs. rewrite Hphase in Hs.
  destruct (Hs _ _ Hc) as [H1 H2]. split; [done|]. split; [|done].
  intros Hp. destruct H1 as (_ & Hready & _). apply Hready in Hp. congruence.
Qed.

Lemma coordinator_supervises_ready_consumers_witness :
  ∃ consumer,
    consumers (history [call_subscribe "orders" "configuration";
                        tick leases_taken; tick leases_free; tick batch_waiting])
      !! "orders" = Some consumer
    ∧ ready consumer = true.
Proof.
  eexists. split; [vm_compute; reflexivity|].
  eapply (coordinator_supervises_ready_consumers
            [call_subscribe "orders" "configuration";
             tick leases_taken; tick leases_free; tick batch_waiting] "orders").
  - vm_compute. reflexivity.
  - vm_compute. reflexivity.
Defined.




(** A coordinator that waits in [consumer.ready.wait()] for a consumer whose
    thread has ended without setting [ready] waits for ever. *)
Lemma step_waiting env c name response consumer :
  coordinator_phase c = WaitingReady name response →
  consumers c !! name = Some consumer →
  ready consumer = false →
  running consumer = false →
  let c' := step env c in
  coordinator_phase c' = WaitingReady name response
  ∧ consumers c' !! name = Some consumer
  ∧ futures c' = futures c
  ∧ queue c' = queue c.
Proof.
  intros Hphase Hname Hready Hended.
  assert (Hsame : run_tick env consumer = consumer)
    by exact (run_not_running [env] consumer Hended).
  assert (Hlookup : consumers (tick_consumers env c) !! name = Some consumer).
  { unfold tick_consumers. simpl. rewrite lookup_fmap, Hname. simpl.
    by rewrite Hsame. }
  assert (Hstep : step env c = tick_consumers env c).
  { unfold step, run_iteration.
    change (coordinator_phase (tick_consumers env c)) with (coordinator_phase c).
    by rewrite Hphase, Hlookup, Hready. }
  simpl. rewrite Hstep. done.
Qed.

Lemma coordinator_run_waiting envs c name response consumer :
  coordinator_phase c = WaitingReady name response →
  consumers c !! name = Some consumer →
  ready consumer = false →
  running consumer = false →
  let c' := coordinator_run envs c in
  coordinator_phase c' = WaitingReady name response
  ∧ consumers c' !! name = Some consumer
  ∧ futures c' = futures c
  ∧ queue c' = queue c.
Proof.
  revert c. induction envs as [|env envs IH]; intros c Hphase Hname Hready Hended;
    [done|].
  destruct (step_waiting env c name response consumer Hphase Hname Hready Hended)
    as (H1 & H2 & H3 & H4).
  destruct (IH (step env c) H1 H2 Hready Hended) as (H5 & H6 & H7 & H8).
  unfold coordinator_run in *. simpl. by rewrite H7, H8, H3, H4.
Qed.

(** X10.  [subscribe] for a new group whose lease is free.  When the
    consumer registers with PgQ, [subscribe] followed by [unsubscribe] for
    the same group leaves the consumers of the coordinator as they were and
    the coordinator in its loop, and both futures hold a result.  When the
    registration raises, the consumer thread ends without setting [ready]
    and the coordinator stays in [consumer.ready.wait()] for any number of
    ticks: the future of the command is never completed and the commands
    queued behind it are never taken. *)
Theorem subscribe_new_group env c name configuration r1 r2 :
  coordinator_phase c = Looping →
  consumers c !! name = None →
  lease_available env name = true →
  r1 < length (futures c) → r2 < length (futures c) → r1 ≠ r2 →
  let c' := drain env [subscribe_command name configuration r1;
                       unsubscribe_command name r2] c in
  (register_consumer env name = true →
   consumers c' = consumers c
   ∧ coordinator_phase c' = Looping
   ∧ futures c' !! r1 = Some (Result name)
   ∧ futures c' !! r2 = Some (Result name))
  ∧ (register_consumer env name = false →
     ∀ envs,
       let c'' := coordinator_run envs c' in
       coordinator_phase c'' = WaitingReady name r1
       ∧ futures c'' = futures c
       ∧ queue c'' = [unsubscribe_command name r2]
       ∧ ∃ consumer,
           consumers c'' !! name = Some consumer
           ∧ phase consumer = Failed DatabaseError
           ∧ ready consumer = false
           ∧ lease_held consumer = false).
Proof.
  intros Hphase Hname Hlease Hr1 Hr2 Hne. simpl.
  rewrite Hname. unfold run_tick. simpl. rewrite Hlease. split.
  - intros Hregister. rewrite Hregister. simpl.
    rewrite Hphase, lookup_insert_eq. simpl. rewrite Hphase.
    split; [|split; [|split]]; simpl.
    + by apply delete_insert_id.
    + exact Hphase.
    + rewrite list_lookup_insert_ne by done. by apply list_lookup_insert_eq.
    + apply list_lookup_insert_eq. by rewrite length_insert.
  - intros Hregister envs. rewrite Hregister. simpl.
    edestruct (coordinator_run_waiting envs) as (H1 & H2 & H3 & H4);
      [| | | |split; [exact H1|split; [exact H3|split; [exact H4|]]]].
    + reflexivity.
    + simpl. apply lookup_insert_eq.
    + reflexivity.
    + reflexivity.
    + eexists. split; [exact H2|]. done.
Qed.

Lemma subscribe_new_group_witness :
  let c := (unsubscribe_async "orders"
              (subscribe_async "orders" "configuration" new_coordinator).2).2 in
  let commands := [subscribe_command "orders" "configuration" 0;
                   unsubscribe_command "orders" 1] in
  (consumers (drain leases_free commands c) = consumers c
   ∧ futures (drain leases_free commands c) !! 0 = Some (Result "orders")
   ∧ futures (drain leases_free commands c) !! 1 = Some (Result "orders"))
  ∧ coordinator_phase
      (coordinator_run (replicate 100 leases_free)
         (drain registration_refused commands c))
    = WaitingReady "orders" 0
  ∧ futures
      (coordinator_run (replicate 100 leases_free)
         (drain registration_refused commands c))
    = futures c.
Proof.
  intros c commands. split.
  - destruct (subscribe_new_group leases_free c "orders" "configuration" 0 1)
      as [Hdone _];
      [reflexivity | reflexivity | reflexivity | simpl; lia | simpl; lia | lia |].
    destruct (Hdone eq_refl) as (H1 & _ & H3 & H4).
    split; [exact H1|]. split; [exact H3 | exact H4].
  - destruct (subscribe_new_group registration_refused c "orders"
                "configuration" 0 1)
      as [_ Hstuck];
      [reflexivity | reflexivity | reflexivity | simpl; lia | simpl; lia | lia |].
    destruct (Hstuck eq_refl (replicate 100 leases_free)) as (H1 & H2 & _).
    split; [exact H1 | exact H2].
Defined.

Lemma emptied_empty consumer : batches consumer = None → emptied consumer = consumer.
Proof. destruct consumer. simpl. by intros ->. Qed.

(** One pass over live consumers whose batches all close takes every batch
    handed off; nothing else about the coordinator changes. *)
Lemma supervise_empties env members c :
  NoDup members.*1 →
  (∀ name consumer, (name, consumer) ∈ members →
     consumers c !! name = Some consumer
     ∧ running consumer = true
     ∧ ∀ events batch_id, batches consumer = Some (events, batch_id) →
                          finish_batch env batch_id = true) →
  coordinator_phase (supervise env members c) = coordinator_phase c
  ∧ queue (supervise env members c) = queue c
  ∧ futures (supervise env members c) = futures c
  ∧ ∀ name,
      consumers (supervise env members c) !! name
      = if decide (name ∈ members.*1) then emptied <$> consumers c !! name
        else consumers c !! name.
Proof.
  revert c. induction members as [|[name consumer] rest IH]; intros c Hnodup Hall.
  { repeat split. }
  apply NoDup_cons in Hnodup as [Hname Hnodup].
  destruct (Hall name consumer) as (Hc & Hr & Hfinish); [by left|].
  simpl. rewrite Hr. simpl.
  destruct (batches consumer) as [[events batch_id]|] eqn:Hb.
  - rewrite (Hfinish _ _ eq_refl).
    destruct (IH (with_consumers (<[name := emptied consumer]> (consumers c)) c))
      as (H1 & H2 & H3 & H4); [done| |].
    { intros n x Hin. destruct (Hall n x) as (Hn & Hx); [by right|].
      split; [|done]. simpl. rewrite lookup_insert_ne; [done|].
      intros <-. apply Hname. apply list_elem_of_fmap. by exists (name, x). }
    unfold emptied in *. rewrite H1, H2, H3. repeat split.
    intros n. rewrite H4. simpl.
    destruct (decide (n = name)) as [->|Hne].
    + rewrite decide_False by done. rewrite decide_True by by left.
      by rewrite lookup_insert_eq, Hc.
    + rewrite lookup_insert_ne by done.
      destruct (decide (n ∈ rest.*1)) as [Hin|Hout].
      * by rewrite decide_True by by right.
      * rewrite decide_False; [done|].
        intros [?|?]%elem_of_cons; done.
  - destruct (IH c) as (H1 & H2 & H3 & H4); [done| |].
    { intros n x Hin. apply Hall. by right. }
    rewrite H1, H2, H3. repeat split.
    intros n. rewrite H4.
    destruct (decide (n = name)) as [->|Hne].
    + rewrite decide_False by done. rewrite decide_True by by left.
      rewrite Hc. simpl. by rewrite emptied_empty.
    + destruct (decide (n ∈ rest.*1)) as [Hin|Hout].
      * by rewrite decide_True by by right.
      * rewrite decide_False; [done|].
        intros [?|?]%elem_of_cons; done.
Qed.

(** X11.  In an iteration with nothing queued, when every consumer is
    running and every batch handed off closes ([pgq.finish_batch] succeeds),
    the coordinator takes the batch of every consumer: afterwards every slot
    is empty, nothing else about the consumers has changed, the futures are
    untouched and the coordinator is still in its loop. *)
Theorem coordinator_takes_every_batch env c :
  coordinator_phase c = Looping →
  coordinator_stop_requested c = false →
  queue c = [] →
  map_Forall (λ _ consumer,
                running consumer = true
                ∧ ∀ events batch_id, batches consumer = Some (events, batch_id) →
                                     finish_batch env batch_id = true)
    (consumers c) →
  let c' := run_iteration env c in
  coordinator_phase c' = Looping
  ∧ consumers c' = emptied <$> consumers c
  ∧ futures c' = futures c.
Proof.
  intros Hphase Hstop Hqueue Hall.
  unfold run_iteration, proceed. rewrite Hphase, Hstop, Hqueue. simpl.
  rewrite Hphase.
  destruct (supervise_empties env (map_to_list (consumers c)) (with_queue [] c))
    as (H1 & _ & H3 & H4).
  { apply NoDup_fst_map_to_list. }
  { intros name consumer Hin%elem_of_map_to_list.
    split; [done|]. exact (Hall _ _ Hin). }
  split; [by rewrite H1|]. split; [|by rewrite H3].
  apply map_eq. intros name. rewrite H4, lookup_fmap. simpl.
  case_decide as Hin; [done|].
  destruct (consumers c !! name) as [consumer|] eqn:Hc; [|done].
  exfalso. apply Hin. apply list_elem_of_fmap. exists (name, consumer).
  split; [done|]. by apply elem_of_map_to_list.
Qed.

Lemma coordinator_takes_every_batch_witness :
  let c := history [call_subscribe "orders" "configuration";
                    tick leases_free; tick batch_waiting] in
  consumers (run_iteration leases_free (tick_consumers batch_waiting c))
  = emptied <$> consumers (tick_consumers batch_waiting c).
Proof.
  apply (coordinator_takes_every_batch leases_free
           (tick_consumers batch_waiting
              (history [call_subscribe "orders" "configuration";
                        tick leases_free; tick batch_waiting]))).
  - reflexivity.
  - reflexivity.
  - reflexivity.
  - assert (E : consumers
                  (tick_consumers batch_waiting
                     (history [call_subscribe "orders" "configuration";
                               tick leases_free; tick batch_waiting]))
                = {[ "orders" := run [leases_free; batch_waiting; batch_waiting]
                                   (new_consumer "orders" "configuration") ]})
      by (vm_compute; reflexivity).
    rewrite E. apply map_Forall_singleton. split; [reflexivity|].
    intros events batch_id _. reflexivity.
Defined.

End WorkerTheory.
